(** * LittleJS physics core: utilities, Vector2 and EngineObject

    A shallow embedding of [src/engine/engineUtilities.js] (the utility
    functions, the [Vector2] class and the [EngineObject] class) together
    with the properties its specification states.

    Numbers.  JavaScript numbers are modelled as real numbers: arithmetic
    is exact, there is no rounding, no NaN and no infinity.  A number used
    as a condition is true exactly when it is not zero.

    Objects.  A [Vector2] held in a field of an engine object is modelled
    by its value: the constructor gives every engine object a position and
    a velocity of its own ([pos.copy()], [new Vector2()]), and the engine
    never writes to a size vector.  Instance identity of vectors is
    modelled separately, in [VectorHeap], where it is what the statements
    are about.  Engine objects are identified by a handle and live in a
    store that maps every handle to the state of its object. *)

From Stdlib Require Import Reals Lra Lia List Bool ZArith Arith.
Import ListNotations.

Open Scope R_scope.

(** ** Conditions on numbers *)

(** [a < b] as a JavaScript boolean. *)
Definition Rltb (a b : R) : bool := if Rlt_dec a b then true else false.

(** [a > b] as a JavaScript boolean. *)
Definition Rgtb (a b : R) : bool := Rltb b a.

(** A number in condition position: false for 0, true otherwise. *)
Definition truthy (a : R) : bool := if Req_dec_T a 0 then false else true.

(** ** Utility functions *)

(** [const abs = (a)=> a < 0 ? -a : a] *)
Definition abs (a : R) : R := if Rltb a 0 then - a else a.

(** [const min = (a, b)=> a < b ? a : b] *)
Definition min (a b : R) : R := if Rltb a b then a else b.

(** [const max = (a, b)=> a > b ? a : b] *)
Definition max (a b : R) : R := if Rgtb a b then a else b.

(** [const sign = (a)=> a < 0 ? -1 : 1] *)
Definition sign (a : R) : R := if Rltb a 0 then -1 else 1.

(** [const clamp = (v, min=0, max=1)=> v < min ? min : v > max ? max : v] *)
Definition clamp (v lo hi : R) : R :=
  if Rltb v lo then lo else if Rgtb v hi then hi else v.

(** [const lerp = (p, min=0, max=1)=> min + clamp(p) * (max-min)] *)
Definition lerp (p lo hi : R) : R := lo + clamp p 0 1 * (hi - lo).

(** [x|0]: the number truncated towards zero and wrapped to 32 bits. *)
Definition truncate (r : R) : Z :=
  if Rltb r 0 then (- Int_part (- r))%Z else Int_part r.

Definition toInt32 (r : R) : Z :=
  let n := (truncate r mod 2 ^ 32)%Z in
  if (2 ^ 31 <=? n)%Z then (n - 2 ^ 32)%Z else n.

(** ** Vector2, by value *)

Record Vector2 : Type := vec { x : R; y : R }.

(** [isOverlapping = (pA, sA, pB, sB)=>
      abs(pA.x - pB.x)*2 < sA.x + sB.x & abs(pA.y - pB.y)*2 < sA.y + sB.y] *)
Definition isOverlapping (pA sA pB sB : Vector2) : bool :=
  Rltb (abs (x pA - x pB) * 2) (x sA + x sB)
  && Rltb (abs (y pA - y pB) * 2) (y sA + y sB).

Module Vec.

(** The value each method of the class computes. *)

Definition copy (this : Vector2) : Vector2 := vec (x this) (y this).
Definition add (this v : Vector2) : Vector2 := vec (x this + x v) (y this + y v).
Definition subtract (this v : Vector2) : Vector2 := vec (x this - x v) (y this - y v).
Definition multiply (this v : Vector2) : Vector2 := vec (x this * x v) (y this * y v).
Definition divide (this v : Vector2) : Vector2 := vec (x this / x v) (y this / y v).
Definition scale (this : Vector2) (s : R) : Vector2 := vec (x this * s) (y this * s).

(** [lengthSquared() { return this.x**2 + this.y**2; }] *)
Definition lengthSquared (this : Vector2) : R := x this * x this + y this * y this.

(** [length() { return this.lengthSquared()**.5; }] *)
Definition length (this : Vector2) : R := sqrt (lengthSquared this).

(** [normalize(length=1)
      { const l = this.length();
        return l ? this.scale(length/l) : new Vector2(length); }] *)
Definition normalize (this : Vector2) (len : R) : Vector2 :=
  let l := length this in
  if truthy l then scale this (len / l) else vec len 0.

(** The value of [clampLength(length)]; which instance carries it is
    the business of [VectorHeap.clampLength]. *)
Definition clampLength (this : Vector2) (len : R) : Vector2 :=
  let l := length this in
  if Rgtb l len then scale this (len / l) else this.

Definition dot (this v : Vector2) : R := x this * x v + y this * y v.
Definition cross (this v : Vector2) : R := x this * y v - y this * x v.

(** The value [setAngle(a, length)] stores in its receiver. *)
Definition setAngle (a len : R) : Vector2 := vec (len * sin a) (len * cos a).

(** [rotate(a) { const c = Math.cos(a), s = Math.sin(a);
      return new Vector2(this.x*c-this.y*s, this.x*s+this.y*c); }] *)
Definition rotate (this : Vector2) (a : R) : Vector2 :=
  let c := cos a in let s := sin a in
  vec (x this * c - y this * s) (x this * s + y this * c).

(** [direction()
      { return abs(this.x) > abs(this.y) ? this.x < 0 ? 3 : 1
                                         : this.y < 0 ? 2 : 0; }] *)
Definition direction (this : Vector2) : nat :=
  if Rgtb (abs (x this)) (abs (y this))
  then (if Rltb (x this) 0 then 3%nat else 1%nat)
  else (if Rltb (y this) 0 then 2%nat else 0%nat).

Definition invert (this : Vector2) : Vector2 := vec (y this) (- x this).

Definition floor (this : Vector2) : Vector2 :=
  vec (IZR (Int_part (x this))) (IZR (Int_part (y this))).

(** [lerp(v, p) { return this.add(v.subtract(this).scale(clamp(p))); }] *)
Definition lerp (this v : Vector2) (p : R) : Vector2 :=
  add this (scale (subtract v this) (clamp p 0 1)).

End Vec.

(** ** Vector2 instances

    The instances of the class live in a heap; a reference is the index
    of its instance.  [new Vector2(..)] allocates at the end of the heap,
    so every reference handed out before stays valid and keeps its
    meaning. *)

Module VectorHeap.

Definition Ref : Type := nat.
Definition Heap : Type := list Vector2.

Definition valid (h : Heap) (r : Ref) : Prop := (r < List.length h)%nat.

Definition deref (h : Heap) (r : Ref) : Vector2 := nth r h (vec 0 0).

(** [new Vector2(x, y)] *)
Definition alloc (v : Vector2) (h : Heap) : Heap * Ref :=
  (h ++ [v], List.length h).

(** Assignment to both coordinates of an existing instance. *)
Fixpoint write (r : Ref) (v : Vector2) (h : Heap) : Heap :=
  match h, r with
  | [], _ => []
  | _ :: h', O => v :: h'
  | u :: h', S r' => u :: write r' v h'
  end.

Definition copy (this : Ref) (h : Heap) : Heap * Ref :=
  alloc (Vec.copy (deref h this)) h.

Definition add (this v : Ref) (h : Heap) : Heap * Ref :=
  alloc (Vec.add (deref h this) (deref h v)) h.

Definition subtract (this v : Ref) (h : Heap) : Heap * Ref :=
  alloc (Vec.subtract (deref h this) (deref h v)) h.

Definition multiply (this v : Ref) (h : Heap) : Heap * Ref :=
  alloc (Vec.multiply (deref h this) (deref h v)) h.

Definition divide (this v : Ref) (h : Heap) : Heap * Ref :=
  alloc (Vec.divide (deref h this) (deref h v)) h.

Definition scale (this : Ref) (s : R) (h : Heap) : Heap * Ref :=
  alloc (Vec.scale (deref h this) s) h.

(** [normalize(length=1)
      { const l = this.length();
        return l ? this.scale(length/l) : new Vector2(length); }] *)
Definition normalize (this : Ref) (len : R) (h : Heap) : Heap * Ref :=
  let l := Vec.length (deref h this) in
  if truthy l then scale this (len / l) h else alloc (vec len 0) h.

(** [clampLength(length=1)
      { const l = this.length();
        return l > length ? this.scale(length/l) : this; }] *)
Definition clampLength (this : Ref) (len : R) (h : Heap) : Heap * Ref :=
  let l := Vec.length (deref h this) in
  if Rgtb l len then scale this (len / l) h else (h, this).

(** [setAngle(a=0, length=1)
      { this.x = length*Math.sin(a); this.y = length*Math.cos(a);
        return this; }] *)
Definition setAngle (this : Ref) (a len : R) (h : Heap) : Heap * Ref :=
  (write this (Vec.setAngle a len) h, this).

Definition rotate (this : Ref) (a : R) (h : Heap) : Heap * Ref :=
  alloc (Vec.rotate (deref h this) a) h.

Definition invert (this : Ref) (h : Heap) : Heap * Ref :=
  alloc (Vec.invert (deref h this)) h.

Definition floor (this : Ref) (h : Heap) : Heap * Ref :=
  alloc (Vec.floor (deref h this)) h.

(** [lerp(v, p) { return this.add(v.subtract(this).scale(clamp(p))); }] *)
Definition lerp (this v : Ref) (p : R) (h : Heap) : Heap * Ref :=
  let '(h1, d) := subtract v this h in
  let '(h2, s) := scale d (clamp p 0 1) h1 in
  add this s h2.

(** The methods of the class that return a vector, with their
    arguments. *)
Inductive Method : Type :=
| MCopy
| MAdd (v : Ref)
| MSubtract (v : Ref)
| MMultiply (v : Ref)
| MDivide (v : Ref)
| MScale (s : R)
| MNormalize (len : R)
| MClampLength (len : R)
| MSetAngle (a len : R)
| MRotate (a : R)
| MInvert
| MFloor
| MLerp (v : Ref) (p : R).

Definition call (m : Method) (this : Ref) (h : Heap) : Heap * Ref :=
  match m with
  | MCopy => copy this h
  | MAdd v => add this v h
  | MSubtract v => subtract this v h
  | MMultiply v => multiply this v h
  | MDivide v => divide this v h
  | MScale s => scale this s h
  | MNormalize len => normalize this len h
  | MClampLength len => clampLength this len h
  | MSetAngle a len => setAngle this a len h
  | MRotate a => rotate this a h
  | MInvert => invert this h
  | MFloor => floor this h
  | MLerp v p => lerp this v p h
  end.

(** The vector arguments of a call. *)
Definition arguments (m : Method) : list Ref :=
  match m with
  | MAdd v | MSubtract v | MMultiply v | MDivide v | MLerp v _ => [v]
  | _ => []
  end.

(** No instance that existed before the call has changed. *)
Definition unchanged (h h' : Heap) : Prop :=
  forall r, valid h r -> deref h' r = deref h r.

(** The result is an instance that did not exist before the call. *)
Definition fresh (h : Heap) (res : Heap * Ref) : Prop :=
  ~ valid h (snd res) /\ valid (fst res) (snd res).

(** The specification's value semantics for one call: the result is
    an instance distinct from the receiver and from the arguments. *)
Definition returnsNew (m : Method) (this : Ref) (h : Heap) : Prop :=
  snd (call m this h) <> this /\ ~ In (snd (call m this h)) (arguments m).

(** The call has changed neither its receiver nor an argument. *)
Definition mutatesNothing (m : Method) (this : Ref) (h : Heap) : Prop :=
  deref (fst (call m this h)) this = deref h this /\
  Forall (fun a => deref (fst (call m this h)) a = deref h a) (arguments m).

Definition valueSemantics (m : Method) (this : Ref) (h : Heap) : Prop :=
  returnsNew m this h /\ mutatesNothing m this h.

End VectorHeap.

(** ** Engine objects *)

(** The handle of an engine object. *)
Definition ObjId : Type := nat.

(** The values [groundObject] takes: nothing ([undefined], [0] or
    [false]), [true] (set by the tile pass on landing) or an engine
    object (set by the object pass). *)
Inductive Ground : Type :=
| NoGround
| TileGround
| ObjectGround (o : ObjId).

(** The fields of an engine object the update, the hierarchy and the
    destruction read or write; the fields only the renderer reads
    (tile, colours, render order, spawn time) are left out. *)
Record EngineObject : Type := mkObject {
  pos : Vector2;
  size : Vector2;
  angle : R;
  mass : R;
  damping : R;
  angleDamping : R;
  elasticity : R;
  friction : R;
  gravityScale : R;
  velocity : Vector2;
  angleVelocity : R;
  children : list ObjId;
  collideTiles : bool;
  collideSolidObjects : bool;
  isSolid : bool;
  parent : option ObjId;
  localPos : Vector2;
  localAngle : R;
  mirror : bool;
  groundObject : Ground;
  destroyed : bool }.

(** Assignment to a field: the object with one field replaced. *)
Definition set_pos (v : Vector2) (o : EngineObject) : EngineObject :=
  {| pos := v; size := size o; angle := angle o; mass := mass o;
     damping := damping o; angleDamping := angleDamping o;
     elasticity := elasticity o; friction := friction o;
     gravityScale := gravityScale o; velocity := velocity o;
     angleVelocity := angleVelocity o; children := children o;
     collideTiles := collideTiles o;
     collideSolidObjects := collideSolidObjects o; isSolid := isSolid o;
     parent := parent o; localPos := localPos o;
     localAngle := localAngle o; mirror := mirror o;
     groundObject := groundObject o; destroyed := destroyed o |}.

Definition set_angle (v : R) (o : EngineObject) : EngineObject :=
  {| pos := pos o; size := size o; angle := v; mass := mass o;
     damping := damping o; angleDamping := angleDamping o;
     elasticity := elasticity o; friction := friction o;
     gravityScale := gravityScale o; velocity := velocity o;
     angleVelocity := angleVelocity o; children := children o;
     collideTiles := collideTiles o;
     collideSolidObjects := collideSolidObjects o; isSolid := isSolid o;
     parent := parent o; localPos := localPos o;
     localAngle := localAngle o; mirror := mirror o;
     groundObject := groundObject o; destroyed := destroyed o |}.

Definition set_velocity (v : Vector2) (o : EngineObject) : EngineObject :=
  {| pos := pos o; size := size o; angle := angle o; mass := mass o;
     damping := damping o; angleDamping := angleDamping o;
     elasticity := elasticity o; friction := friction o;
     gravityScale := gravityScale o; velocity := v;
     angleVelocity := angleVelocity o; children := children o;
     collideTiles := collideTiles o;
     collideSolidObjects := collideSolidObjects o; isSolid := isSolid o;
     parent := parent o; localPos := localPos o;
     localAngle := localAngle o; mirror := mirror o;
     groundObject := groundObject o; destroyed := destroyed o |}.

Definition set_angleVelocity (v : R) (o : EngineObject) : EngineObject :=
  {| pos := pos o; size := size o; angle := angle o; mass := mass o;
     damping := damping o; angleDamping := angleDamping o;
     elasticity := elasticity o; friction := friction o;
     gravityScale := gravityScale o; velocity := velocity o;
     angleVelocity := v; children := children o;
     collideTiles := collideTiles o;
     collideSolidObjects := collideSolidObjects o; isSolid := isSolid o;
     parent := parent o; localPos := localPos o;
     localAngle := localAngle o; mirror := mirror o;
     groundObject := groundObject o; destroyed := destroyed o |}.

Definition set_children (v : list ObjId) (o : EngineObject) : EngineObject :=
  {| pos := pos o; size := size o; angle := angle o; mass := mass o;
     damping := damping o; angleDamping := angleDamping o;
     elasticity := elasticity o; friction := friction o;
     gravityScale := gravityScale o; velocity := velocity o;
     angleVelocity := angleVelocity o; children := v;
     collideTiles := collideTiles o;
     collideSolidObjects := collideSolidObjects o; isSolid := isSolid o;
     parent := parent o; localPos := localPos o;
     localAngle := localAngle o; mirror := mirror o;
     groundObject := groundObject o; destroyed := destroyed o |}.

Definition set_collideTiles (v : bool) (o : EngineObject) : EngineObject :=
  {| pos := pos o; size := size o; angle := angle o; mass := mass o;
     damping := damping o; angleDamping := angleDamping o;
     elasticity := elasticity o; friction := friction o;
     gravityScale := gravityScale o; velocity := velocity o;
     angleVelocity := angleVelocity o; children := children o;
     collideTiles := v; collideSolidObjects := collideSolidObjects o;
     isSolid := isSolid o; parent := parent o; localPos := localPos o;
     localAngle := localAngle o; mirror := mirror o;
     groundObject := groundObject o; destroyed := destroyed o |}.

Definition set_collideSolidObjects (v : bool) (o : EngineObject) : EngineObject :=
  {| pos := pos o; size := size o; angle := angle o; mass := mass o;
     damping := damping o; angleDamping := angleDamping o;
     elasticity := elasticity o; friction := friction o;
     gravityScale := gravityScale o; velocity := velocity o;
     angleVelocity := angleVelocity o; children := children o;
     collideTiles := collideTiles o; collideSolidObjects := v;
     isSolid := isSolid o; parent := parent o; localPos := localPos o;
     localAngle := localAngle o; mirror := mirror o;
     groundObject := groundObject o; destroyed := destroyed o |}.

Definition set_isSolid (v : bool) (o : EngineObject) : EngineObject :=
  {| pos := pos o; size := size o; angle := angle o; mass := mass o;
     damping := damping o; angleDamping := angleDamping o;
     elasticity := elasticity o; friction := friction o;
     gravityScale := gravityScale o; velocity := velocity o;
     angleVelocity := angleVelocity o; children := children o;
     collideTiles := collideTiles o;
     collideSolidObjects := collideSolidObjects o; isSolid := v;
     parent := parent o; localPos := localPos o;
     localAngle := localAngle o; mirror := mirror o;
     groundObject := groundObject o; destroyed := destroyed o |}.

Definition set_parent (v : option ObjId) (o : EngineObject) : EngineObject :=
  {| pos := pos o; size := size o; angle := angle o; mass := mass o;
     damping := damping o; angleDamping := angleDamping o;
     elasticity := elasticity o; friction := friction o;
     gravityScale := gravityScale o; velocity := velocity o;
     angleVelocity := angleVelocity o; children := children o;
     collideTiles := collideTiles o;
     collideSolidObjects := collideSolidObjects o; isSolid := isSolid o;
     parent := v; localPos := localPos o; localAngle := localAngle o;
     mirror := mirror o; groundObject := groundObject o;
     destroyed := destroyed o |}.

Definition set_localPos (v : Vector2) (o : EngineObject) : EngineObject :=
  {| pos := pos o; size := size o; angle := angle o; mass := mass o;
     damping := damping o; angleDamping := angleDamping o;
     elasticity := elasticity o; friction := friction o;
     gravityScale := gravityScale o; velocity := velocity o;
     angleVelocity := angleVelocity o; children := children o;
     collideTiles := collideTiles o;
     collideSolidObjects := collideSolidObjects o; isSolid := isSolid o;
     parent := parent o; localPos := v; localAngle := localAngle o;
     mirror := mirror o; groundObject := groundObject o;
     destroyed := destroyed o |}.

Definition set_localAngle (v : R) (o : EngineObject) : EngineObject :=
  {| pos := pos o; size := size o; angle := angle o; mass := mass o;
     damping := damping o; angleDamping := angleDamping o;
     elasticity := elasticity o; friction := friction o;
     gravityScale := gravityScale o; velocity := velocity o;
     angleVelocity := angleVelocity o; children := children o;
     collideTiles := collideTiles o;
     collideSolidObjects := collideSolidObjects o; isSolid := isSolid o;
     parent := parent o; localPos := localPos o; localAngle := v;
     mirror := mirror o; groundObject := groundObject o;
     destroyed := destroyed o |}.

Definition set_groundObject (v : Ground) (o : EngineObject) : EngineObject :=
  {| pos := pos o; size := size o; angle := angle o; mass := mass o;
     damping := damping o; angleDamping := angleDamping o;
     elasticity := elasticity o; friction := friction o;
     gravityScale := gravityScale o; velocity := velocity o;
     angleVelocity := angleVelocity o; children := children o;
     collideTiles := collideTiles o;
     collideSolidObjects := collideSolidObjects o; isSolid := isSolid o;
     parent := parent o; localPos := localPos o;
     localAngle := localAngle o; mirror := mirror o; groundObject := v;
     destroyed := destroyed o |}.

Definition set_destroyed (v : bool) (o : EngineObject) : EngineObject :=
  {| pos := pos o; size := size o; angle := angle o; mass := mass o;
     damping := damping o; angleDamping := angleDamping o;
     elasticity := elasticity o; friction := friction o;
     gravityScale := gravityScale o; velocity := velocity o;
     angleVelocity := angleVelocity o; children := children o;
     collideTiles := collideTiles o;
     collideSolidObjects := collideSolidObjects o; isSolid := isSolid o;
     parent := parent o; localPos := localPos o;
     localAngle := localAngle o; mirror := mirror o;
     groundObject := groundObject o; destroyed := v |}.

(** Assignment to one coordinate of a vector field. *)
Definition set_pos_x (v : R) (o : EngineObject) : EngineObject :=
  set_pos (vec v (y (pos o))) o.
Definition set_pos_y (v : R) (o : EngineObject) : EngineObject :=
  set_pos (vec (x (pos o)) v) o.
Definition set_velocity_x (v : R) (o : EngineObject) : EngineObject :=
  set_velocity (vec v (y (velocity o))) o.
Definition set_velocity_y (v : R) (o : EngineObject) : EngineObject :=
  set_velocity (vec (x (velocity o)) v) o.

(** The store: the state of every engine object, by handle. *)
Definition Store : Type := ObjId -> EngineObject.

Definition upd (s : Store) (i : ObjId) (o : EngineObject) : Store :=
  fun j => if Nat.eqb j i then o else s j.

(** A value in condition position that is an object or nothing. *)
Definition isSome {A : Type} (a : option A) : bool :=
  match a with Some _ => true | None => false end.

Definition isGround (g : Ground) : bool :=
  match g with NoGround => false | _ => true end.

(** ** Hierarchy and destruction *)

(** [Array.prototype.indexOf]: [None] stands for -1. *)
Fixpoint indexOf (l : list ObjId) (c : ObjId) : option nat :=
  match l with
  | [] => None
  | a :: l' => if Nat.eqb a c then Some O
               else match indexOf l' c with
                    | Some i => Some (S i)
                    | None => None
                    end
  end.

Fixpoint removeAt (i : nat) (l : list ObjId) : list ObjId :=
  match l, i with
  | [], _ => []
  | _ :: l', O => l'
  | a :: l', S i' => a :: removeAt i' l'
  end.

(** [l.splice(i, 1)]: one element leaves at index [i]; at index -1 it is
    the last one. *)
Definition splice1 (i : option nat) (l : list ObjId) : list ObjId :=
  match i with
  | Some i => removeAt i l
  | None => removelast l
  end.

(** [addChild(child, localPos=vec2(), localAngle=0)
      { this.children.push(child); child.parent = this;
        child.localPos = localPos.copy(); child.localAngle = localAngle; }] *)
Definition addChild (this child : ObjId) (lpos : Vector2) (langle : R)
    (s : Store) : Store :=
  let s1 := upd s this (set_children (children (s this) ++ [child]) (s this)) in
  upd s1 child
    (set_localAngle langle
       (set_localPos (Vec.copy lpos) (set_parent (Some this) (s1 child)))).

(** [removeChild(child)
      { this.children.splice(this.children.indexOf(child), 1);
        child.parent = 0; }] *)
Definition removeChild (this child : ObjId) (s : Store) : Store :=
  let kids := children (s this) in
  let s1 := upd s this (set_children (splice1 (indexOf kids child) kids) (s this)) in
  upd s1 child (set_parent None (s1 child)).

(** The state destruction runs in: the store, and the record of the
    objects on which [this.destroyed = 1] was executed, latest first. *)
Definition DState : Type := (Store * list ObjId)%type.

(** [for (const child of this.children) body(child)]: the array iterator
    reads the array of [this] as it is when each element is asked for.
    [k] bounds the number of rounds. *)
Fixpoint forChildren (k : nat) (body : ObjId -> DState -> option DState)
    (this : ObjId) (i : nat) (st : DState) : option DState :=
  match k with
  | O => None
  | S k' =>
      match nth_error (children (fst st this)) i with
      | None => Some st
      | Some child =>
          match body child st with
          | None => None
          | Some st' => forChildren k' body this (S i) st'
          end
      end
  end.

(** [destroy()
      { if (this.destroyed) return;
        this.destroyed = 1;
        this.parent && this.parent.removeChild(this);
        for (const child of this.children)
            child.destroy(child.parent = 0); }]
    [fuel] bounds the depth of the recursion; [None] means it was not
    enough.  The loop is given one round for each element the array holds
    when it starts and one to find its end; nothing [destroy] calls makes
    the array longer. *)
Fixpoint destroy (fuel : nat) (this : ObjId) (st : DState) : option DState :=
  match fuel with
  | O => None
  | S n =>
      let s := fst st in
      if destroyed (s this) then Some st
      else
        let s1 := upd s this (set_destroyed true (s this)) in
        let s2 := match parent (s1 this) with
                  | Some p => removeChild p this s1
                  | None => s1
                  end in
        forChildren (S (List.length (children (s2 this))))
          (fun child st' =>
             destroy n child
               (upd (fst st') child (set_parent None (fst st' child)), snd st'))
          this O (s2, this :: snd st)
  end.

(** [getMirrorSign() { return this.mirror ? -1 : 1; }] *)
Definition getMirrorSign (o : EngineObject) : R := if mirror o then -1 else 1.

(** [setCollision(collideSolidObjects=0, isSolid=0, collideTiles=1)] *)
Definition setCollision (cso solid tiles : bool) (o : EngineObject) : EngineObject :=
  set_collideTiles tiles (set_isSolid solid (set_collideSolidObjects cso o)).

(** [applyAcceleration(a)
      { if (this.mass) this.velocity = this.velocity.add(a); }] *)
Definition applyAcceleration (a : Vector2) (o : EngineObject) : EngineObject :=
  if truthy (mass o) then set_velocity (Vec.add (velocity o) a) o else o.

(** [applyForce(force)
      { this.applyAcceleration(force.scale(1/this.mass)); }] *)
Definition applyForce (force : Vector2) (o : EngineObject) : EngineObject :=
  applyAcceleration (Vec.scale force (1 / mass o)) o.

(** ** The world of one update *)

(** What an update reads and writes besides the objects: the list of
    collidable objects, the number of calls made to [Math.random], and
    the record of the denominators [this.mass + o.mass] by which a
    mass-ratio formula has divided, latest first. *)
Record World : Type := mkWorld {
  objects : Store;
  engineObjectsCollide : list ObjId;
  randomCalls : nat;
  divisors : list R }.

Definition set_objects (s : Store) (w : World) : World :=
  mkWorld s (engineObjectsCollide w) (randomCalls w) (divisors w).

(** [w] with the object [i] replaced by its image under [f]. *)
Definition modify (i : ObjId) (f : EngineObject -> EngineObject) (w : World) : World :=
  set_objects (upd (objects w) i (f (objects w i))) w.

Definition tickRandom (w : World) : World :=
  mkWorld (objects w) (engineObjectsCollide w) (S (randomCalls w)) (divisors w).

Definition recordDivisors (ds : list R) (w : World) : World :=
  mkWorld (objects w) (engineObjectsCollide w) (randomCalls w) (ds ++ divisors w).

(** A division, together with the denominator it divides by. *)
Definition divide (a b : R) : R * list R := (a / b, [b]).

(** The response both axes use between two movable objects:
    [const inelastic = (this.mass * this.velocity.y + o.mass * o.velocity.y)
                       / (this.mass + o.mass);
     const elastic0 = this.velocity.y * (this.mass - o.mass) / (this.mass + o.mass)
                      + o.velocity.y * 2 * o.mass / (this.mass + o.mass);
     const elastic1 = o.velocity.y * (o.mass - this.mass) / (this.mass + o.mass)
                      + this.velocity.y * 2 * this.mass / (this.mass + o.mass);
     const elasticity = max(this.elasticity, o.elasticity);
     this.velocity.y = lerp(elasticity, inelastic, elastic0);
     o.velocity.y = lerp(elasticity, inelastic, elastic1);]
    The result is the new component of this, the new component of o,
    and the denominators of the five divisions in the order in which
    they are made. *)
Definition blendRecorded (m0 v0 e0 m1 v1 e1 : R) : R * R * list R :=
  let '(inelastic, d1) := divide (m0 * v0 + m1 * v1) (m0 + m1) in
  let '(q1, d2) := divide (v0 * (m0 - m1)) (m0 + m1) in
  let '(q2, d3) := divide (v1 * 2 * m1) (m0 + m1) in
  let elastic0 := q1 + q2 in
  let '(q3, d4) := divide (v1 * (m1 - m0)) (m0 + m1) in
  let '(q4, d5) := divide (v0 * 2 * m0) (m0 + m1) in
  let elastic1 := q3 + q4 in
  let elasticity := max e0 e1 in
  (lerp elasticity inelastic elastic0, lerp elasticity inelastic elastic1,
   d1 ++ d2 ++ d3 ++ d4 ++ d5).

(** The pair (new component of this, new component of o). *)
Definition blend (m0 v0 e0 m1 v1 e1 : R) : R * R :=
  fst (blendRecorded m0 v0 e0 m1 v1 e1).

(** [const epsilon = 1e-3] *)
Definition epsilon : R := 1 / 1000.

(** [const pushAwayAccel = .001] *)
Definition pushAwayAccel : R := 1 / 1000.

(** ** Notions the statements use *)

(** The fields of an object that no update writes: everything but the
    position, the velocity, the angle, the angular velocity and the
    ground object. *)
Definition fixedFields (o : EngineObject) :=
  (size o, mass o, damping o, angleDamping o, elasticity o, friction o,
   gravityScale o, children o, collideTiles o, collideSolidObjects o,
   isSolid o, parent o, localPos o, localAngle o, mirror o, destroyed o).

(** Two worlds that agree on the fixed fields of every object. *)
Definition sameFixed (w w' : World) : Prop :=
  forall i, fixedFields (objects w' i) = fixedFields (objects w i).

(** What an update of [this] may do to the rest of the world: it keeps
    the fixed fields of every object, the position of every other object,
    and the velocity of every other object of mass 0. *)
Definition respects (this : ObjId) (w w' : World) : Prop :=
  sameFixed w w' /\
  forall o, o <> this ->
    pos (objects w' o) = pos (objects w o) /\
    (mass (objects w o) = 0 -> velocity (objects w' o) = velocity (objects w o)).



(** ** Notions the statements about destruction use *)

(** The objects of a registry that are not destroyed, counted. *)
Definition liveCount (reg : list ObjId) (s : Store) : nat :=
  List.length (filter (fun i => negb (destroyed (s i))) reg).

(** Every child of an object of the registry is in the registry. *)
Definition closedRegistry (reg : list ObjId) (s : Store) : Prop :=
  forall a c, In a reg -> In c (children (s a)) -> In c reg.

(** [d] is reached from [a] in one or more steps from an object to one
    of its children. *)
Inductive descendant (s : Store) (a : ObjId) : ObjId -> Prop :=
| descendant_child (c : ObjId) :
    In c (children (s a)) -> descendant s a c
| descendant_step (d c : ObjId) :
    descendant s a d -> In c (children (s d)) -> descendant s a c.

(** An object that is not destroyed has no destroyed child. *)
Definition liveChildren (s : Store) : Prop :=
  forall a c, destroyed (s a) = false -> In c (children (s a)) ->
              destroyed (s c) = false.

(** The parent of [x], if it has one, lists [x] among its children. *)
Definition listedByParent (s : Store) (x : ObjId) : Prop :=
  forall p, parent (s x) = Some p -> In x (children (s p)).

(** The children of [z] once [x], found not destroyed, has left its
    parent. *)
Definition childrenAfterDetach (s : Store) (x z : ObjId) : list ObjId :=
  match parent (s x) with
  | Some p =>
      if Nat.eqb z p && negb (destroyed (s x))
      then splice1 (indexOf (children (s p)) x) (children (s p))
      else children (s z)
  | None => children (s z)
  end.

(** The round of the loop of [destroy] at depth [n]. *)
Definition destroyChild (n : nat) (child : ObjId) (st : DState) : option DState :=
  destroy n child (upd (fst st) child (set_parent None (fst st child)), snd st).

(** The state in which the loop of [destroy] starts. *)
Definition detached (s : Store) (x : ObjId) : Store :=
  let s1 := upd s x (set_destroyed true (s x)) in
  match parent (s1 x) with
  | Some p => removeChild p x s1
  | None => s1
  end.

(** The objects marked between two states: [news] holds, once each, the
    objects that were not destroyed in [s] and are in [s']. *)
Definition marks (s s' : Store) (news : list ObjId) : Prop :=
  NoDup news /\
  forall z, In z news <-> destroyed (s z) = false /\ destroyed (s' z) = true.

(** What a call [destroy] of [x] that returns [st'] from [st] has done. *)
Record DestroyPost (x : ObjId) (st st' : DState) : Prop := {
  post_log : exists news, snd st' = news ++ snd st /\ marks (fst st) (fst st') news;
  post_mono : forall z, destroyed (fst st z) = true -> destroyed (fst st' z) = true;
  post_self : destroyed (fst st' x) = true;
  post_children : forall z, children (fst st' z) = childrenAfterDetach (fst st) x z;
  post_closed : forall z c,
      destroyed (fst st z) = false -> destroyed (fst st' z) = true ->
      In c (children (fst st' z)) -> destroyed (fst st' c) = true;
  post_reach : forall z,
      destroyed (fst st z) = false -> destroyed (fst st' z) = true ->
      z = x \/ descendant (fst st') x z;
  post_parent : forall z, parent (fst st' z) = None \/ parent (fst st' z) = parent (fst st z);
  post_detached : destroyed (fst st x) = false -> parent (fst st' x) = None }.

(** What the rounds of the loop over the children of [this] from index
    [i] on have done when they end in [st'] from [st]. *)
Record LoopPost (this : ObjId) (i : nat) (st st' : DState) : Prop := {
  loop_log : exists news, snd st' = news ++ snd st /\ marks (fst st) (fst st') news;
  loop_mono : forall z, destroyed (fst st z) = true -> destroyed (fst st' z) = true;
  loop_children : forall z, children (fst st' z) = children (fst st z);
  loop_done : forall j c, (i <= j)%nat ->
      nth_error (children (fst st this)) j = Some c -> destroyed (fst st' c) = true;
  loop_closed : forall z c,
      destroyed (fst st z) = false -> destroyed (fst st' z) = true ->
      In c (children (fst st' z)) -> destroyed (fst st' c) = true;
  loop_reach : forall z,
      destroyed (fst st z) = false -> destroyed (fst st' z) = true ->
      descendant (fst st') this z;
  loop_parent : forall z, parent (fst st' z) = None \/ parent (fst st' z) = parent (fst st z) }.

(** ** Sample data *)

(** A solid unit box at [p] with velocity [v], mass [m] and elasticity
    [e]. *)
Definition sampleBody (p v : Vector2) (m e : R) : EngineObject :=
  mkObject p (vec 1 1) 0 m 1 1 e (4 / 5) 1 v 0 [] true true true
           None (vec 0 0) 0 false NoGround false.

(** A falling box of mass 1 over a fixed box, and boxes of mass 2
    elsewhere; nothing bounces. *)
Definition sampleStore : Store :=
  fun i => match i with
           | O => sampleBody (vec 0 2) (vec 0 (-1)) 1 0
           | S O => sampleBody (vec 0 0) (vec 0 0) 0 0
           | _ => sampleBody (vec 10 10) (vec 0 0) 2 0
           end.

Definition sampleWorld : World := mkWorld sampleStore [0; 1; 2]%nat 0 [].

(** Two boxes of mass 1 that meet head-on, one of them fully elastic. *)
Definition elasticStore : Store :=
  fun i => match i with
           | O => sampleBody (vec 0 1) (vec 0 (-1)) 1 1
           | _ => sampleBody (vec 0 0) (vec 0 1) 1 0
           end.

Definition elasticWorld : World := mkWorld elasticStore [0; 1]%nat 0 [].

(** Tiles fill the half plane below 0. *)
Definition sampleTiles (p sz : Vector2) (o : ObjId) : bool := Rltb (y p) 0.

(** The default [collideWithObject() { return 1; }]. *)
Definition sampleCollide (s : Store) (a b : ObjId) : bool := true.

Definition sampleRandom (n : nat) : R := 0.

(** An object of a hierarchy. *)
Definition sampleNode (kids : list ObjId) (par : option ObjId) : EngineObject :=
  set_parent par (set_children kids (sampleBody (vec 0 0) (vec 0 0) 1 0)).

(** Object 0 has the children 1 and 2, object 1 has the child 3. *)
Definition sampleTree : Store :=
  fun i => match i with
           | 0 => sampleNode [1; 2] None
           | 1 => sampleNode [3] (Some 0)
           | 2 => sampleNode [] (Some 0)
           | 3 => sampleNode [] (Some 1)
           | _ => sampleNode [] None
           end%nat.

Definition sampleRegistry : list ObjId := [0; 1; 2; 3]%nat.

(** Two unit boxes of mass 1, fully elastic, that meet head-on: the upper
    one at (0, 3/2) moving down at speed 1, the lower one at (0, 0)
    moving up at speed 1. *)
Definition headOnStore : Store :=
  fun i => match i with
           | O => sampleBody (vec 0 (3 / 2)) (vec 0 (-1)) 1 1
           | _ => sampleBody (vec 0 0) (vec 0 1) 1 1
           end.

Definition headOnWorld : World := mkWorld headOnStore [0; 1]%nat 0 [].

(** A level without tiles. *)
Definition noTiles (p sz : Vector2) (o : ObjId) : bool := false.

(** A unit box of mass 1 that does not bounce, half a unit above the
    tiles of [sampleTiles] and falling at speed 1. *)
Definition landingStore : Store :=
  fun _ => sampleBody (vec 0 (1 / 2)) (vec 0 (-1)) 1 0.

Definition landingWorld : World := mkWorld landingStore [0]%nat 0 [].

(** Two objects, and the world in which both are collidable. *)
Definition pairStore (a b : EngineObject) : Store :=
  fun i => match i with O => a | _ => b end.

Definition pairWorld (a b : EngineObject) : World :=
  mkWorld (pairStore a b) [0; 1]%nat 0 [].

(** A unit box of mass [m0] and elasticity [e0] that has moved to the
    right at speed 1, from [sideOld], into a unit box of mass [m1] and
    elasticity [e1] that moves at speed [v1] along the same axis. *)
Definition sideHit (m0 e0 m1 e1 v1 : R) : World :=
  pairWorld (sampleBody (vec (- (9 / 10)) 0) (vec 1 0) m0 e0)
            (sampleBody (vec 0 0) (vec v1 0) m1 e1).

Definition sideOld : Vector2 := vec (- (19 / 10)) 0.

(** The same from above: the first box has fallen at speed 1, from
    [topOld], onto the second one. *)
Definition topHit (m0 e0 m1 e1 v1 : R) : World :=
  pairWorld (sampleBody (vec 0 (9 / 10)) (vec 0 (-1)) m0 e0)
            (sampleBody (vec 0 0) (vec 0 v1) m1 e1).

Definition topOld : Vector2 := vec 0 (19 / 10).


(** Before an update: a unit box of mass 1 one and a half units above
    a fixed unit box and falling at speed 1, which will land on it. *)
Definition standWorld : World :=
  pairWorld (sampleBody (vec 0 (3 / 2)) (vec 0 (-1)) 1 0)
            (sampleBody (vec 0 0) (vec 0 0) 0 0).

(** Before an update: a unit box of mass 1 at rest half a unit above
    the centre of a fixed unit box, which it overlaps. *)
Definition stuckWorld : World :=
  pairWorld (sampleBody (vec 0 (1 / 2)) (vec 0 0) 1 0)
            (sampleBody (vec 0 0) (vec 0 0) 0 0).

(** A mirrored parent at (1, 2), turned by a quarter turn, and its
    child at the local offset (3, 4) with the local angle 1, which has
    a velocity of its own. *)
Definition familyStore : Store :=
  fun i =>
    match i with
    | O => mkObject (vec 1 2) (vec 1 1) (PI / 2) 1 1 1 0 (4 / 5) 1 (vec 0 0) 0
                    [1%nat] true true true None (vec 0 0) 0 true NoGround false
    | _ => mkObject (vec 0 0) (vec 1 1) 0 1 1 1 0 (4 / 5) 1 (vec 7 7) 0
                    [] true true true (Some 0%nat) (vec 3 4) 1 false NoGround false
    end.

Definition familyWorld : World := mkWorld familyStore [] 0 [].

(** ** More of the utilities *)

(** [a % b] for a divisor other than 0: what is left of [a] once [b] has
    been taken from it a whole number of times, counted towards zero. *)
Definition jsRem (a b : R) : R := a - b * IZR (truncate (a / b)).

(** [const mod = (a, b=1)=> ((a % b) + b) % b]; [None] stands for the NaN
    a divisor 0 gives. *)
Definition mod_ (a b : R) : option R :=
  if truthy b then Some (jsRem (jsRem a b + b) b) else None.

(** [const percent = (v, min=0, max=1)=>
      max-min ? clamp((v-min) / (max-min)) : 0] *)
Definition percent (v lo hi : R) : R :=
  if truthy (hi - lo) then clamp ((v - lo) / (hi - lo)) 0 1 else 0.

(** [const smoothStep = (p)=> p * p * (3 - 2 * p)] *)
Definition smoothStep (p : R) : R := p * p * (3 - 2 * p).

(** [Math.ceil] *)
Definition ceil (r : R) : Z := (- Int_part (- r))%Z.

(** [const nearestPowerOfTwo = (v)=> 2**Math.ceil(Math.log2(v))]: NaN
    ([None]) below 0, where the logarithm has no value, and 0 at 0, where
    it is minus infinity. *)
Definition nearestPowerOfTwo (v : R) : option R :=
  if Rltb v 0 then None
  else if truthy v then Some (Rpower 2 (IZR (ceil (ln v / ln 2))))
  else Some 0.

(** [const wave = (frequency=1, amplitude=1, t=time)=>
      amplitude/2 * (1 - Math.cos(t*frequency*2*PI))] *)
Definition wave (frequency amplitude t : R) : R :=
  amplitude / 2 * (1 - cos (t * frequency * 2 * PI)).


(** [a <= b] and [a == b] as JavaScript booleans. *)
Definition Rleb (a b : R) : bool := if Rle_dec a b then true else false.
Definition Reqb (a b : R) : bool := if Req_dec_T a b then true else false.

(** ** More of Vector2 *)

(** [distanceSquared(v) { return (this.x - v.x)**2 + (this.y - v.y)**2; }] *)
Definition distanceSquared (this v : Vector2) : R :=
  (x this - x v) * (x this - x v) + (y this - y v) * (y this - y v).

(** [distance(v) { return this.distanceSquared(v)**.5; }] *)
Definition distance (this v : Vector2) : R := sqrt (distanceSquared this v).

(** ** Strings

    A string is a sequence of characters of one byte each. *)

From Stdlib Require String Ascii DecimalString HexadecimalString.
Import String.StringSyntax.
Open Scope string_scope.

(** The string of a whole number in a concatenation, and
    [n.toString(16)]: digits with a minus sign before them for a
    negative number. *)
Definition intToString (n : Z) : String.string :=
  DecimalString.NilZero.string_of_int (Z.to_int n).

Definition intToString16 (n : Z) : String.string :=
  HexadecimalString.NilZero.string_of_int (Z.to_hex_int n).

Definition charCode (c : Ascii.ascii) : Z := Z.of_nat (Ascii.nat_of_ascii c).

(** The white space [parseInt] skips: tab, line feed, vertical tab,
    form feed, carriage return and space. *)
Definition isWhiteSpace (c : Ascii.ascii) : bool :=
  ((9 <=? charCode c) && (charCode c <=? 13) || (charCode c =? 32))%Z.

(** The value of a digit in base 16, of either case. *)
Definition hexDigit (c : Ascii.ascii) : option Z :=
  let n := charCode c in
  if ((48 <=? n) && (n <=? 57))%Z then Some (n - 48)%Z
  else if ((97 <=? n) && (n <=? 102))%Z then Some (n - 87)%Z
  else if ((65 <=? n) && (n <=? 70))%Z then Some (n - 55)%Z
  else None.

Fixpoint skipWhiteSpace (s : String.string) : String.string :=
  match s with
  | String.String c s' => if isWhiteSpace c then skipWhiteSpace s' else s
  | String.EmptyString => s
  end.

(** The digits at the start of a string, read in base 16; [acc] is the
    value of the digits read so far, [None] when there is none. *)
Fixpoint hexDigits (acc : option Z) (s : String.string) : option Z :=
  match s with
  | String.String c s' =>
      match hexDigit c with
      | Some d =>
          hexDigits (Some (16 * match acc with Some n => n | None => 0 end + d)%Z) s'
      | None => acc
      end
  | String.EmptyString => acc
  end.

(** [parseInt(s, 16)]: white space, a sign and a prefix [0x] or [0X]
    are skipped, then the digits are read up to the first character
    that is not one; [None] stands for the NaN of a string without a
    digit there. *)
Definition parseInt16 (s : String.string) : option Z :=
  let s1 := skipWhiteSpace s in
  let '(negative, s2) :=
    match s1 with
    | String.String c s' =>
        if (charCode c =? 45)%Z then (true, s')
        else if (charCode c =? 43)%Z then (false, s')
        else (false, s1)
    | String.EmptyString => (false, s1)
    end in
  let s3 :=
    match s2 with
    | String.String c (String.String d s') =>
        if ((charCode c =? 48) && ((charCode d =? 120) || (charCode d =? 88)))%Z
        then s' else s2
    | _ => s2
    end in
  match hexDigits None s3 with
  | Some n => Some (if negative then - n else n)%Z
  | None => None
  end.

(** [const formatTime = (t)=>
      (t/60|0)+':'+(t%60<10?'0':'')+(t%60|0)] *)
Definition formatTime (t : R) : String.string :=
  String.append (intToString (toInt32 (t / 60)))
    (String.append ":"
       (String.append (if Rltb (jsRem t 60) 10 then "0" else "")
          (intToString (toInt32 (jsRem t 60))))).

(** ** 32-bit integers *)

(** The signed 32-bit integer an integer wraps to. *)
Definition wrapInt32 (n : Z) : Z :=
  let m := (n mod 2 ^ 32)%Z in
  if (2 ^ 31 <=? m)%Z then (m - 2 ^ 32)%Z else m.

(** [n << k], [n >>> k] and [a ^ b] on integers, for [0 <= k < 32]. *)
Definition shiftLeft (n k : Z) : Z := wrapInt32 (Z.shiftl n k).
Definition shiftRightUnsigned (n k : Z) : Z := Z.shiftr (n mod 2 ^ 32) k.
Definition bitXor (a b : Z) : Z := wrapInt32 (Z.lxor a b).

(** ** The seeded random function *)

(** [randSeed ^= randSeed << 13; randSeed ^= randSeed >>> 17;
     randSeed ^= randSeed << 5;] *)
Definition xorshift (randSeed : Z) : Z :=
  let s1 := bitXor randSeed (shiftLeft randSeed 13) in
  let s2 := bitXor s1 (shiftRightUnsigned s1 17) in
  bitXor s2 (shiftLeft s2 5).

(** [const randSeeded = (a=1, b=0)=>
     { .. xorshift ..
       return b + (a-b) * abs(randSeed % 1e9) / 1e9; }]
    The seed is a whole number; the result comes with the new seed. *)
Definition randSeeded (a b : R) (randSeed : Z) : R * Z :=
  let s := xorshift randSeed in
  (b + (a - b) * abs (IZR (Z.rem s 1000000000)) / 1000000000, s).

(** ** Color *)

Module Color.

Record Color : Type := rgba { r : R; g : R; b : R; a : R }.

Definition copy (this : Color) : Color := rgba (r this) (g this) (b this) (a this).
Definition add (this c : Color) : Color :=
  rgba (r this + r c) (g this + g c) (b this + b c) (a this + a c).
Definition subtract (this c : Color) : Color :=
  rgba (r this - r c) (g this - g c) (b this - b c) (a this - a c).
Definition multiply (this c : Color) : Color :=
  rgba (r this * r c) (g this * g c) (b this * b c) (a this * a c).
Definition divide (this c : Color) : Color :=
  rgba (r this / r c) (g this / g c) (b this / b c) (a this / a c).

(** [scale(s, a=s)
      { return new Color(this.r*s, this.g*s, this.b*s, this.a*a); }] *)
Definition scale (this : Color) (s al : R) : Color :=
  rgba (r this * s) (g this * s) (b this * s) (a this * al).

(** [lerp(c, p) { return this.add(c.subtract(this).scale(clamp(p))); }] *)
Definition lerp (this c : Color) (p : R) : Color :=
  add this (scale (subtract c this) (clamp p 0 1) (clamp p 0 1)).

(** [clamp() { return new Color(clamp(this.r), clamp(this.g),
                                clamp(this.b), clamp(this.a)); }] *)
Definition clamp (this : Color) : Color :=
  rgba (clamp (r this) 0 1) (clamp (g this) 0 1) (clamp (b this) 0 1)
       (clamp (a this) 0 1).

(** The function [f] of [setHSLA]:
    [(p, q, t)=> (t = ((t%1)+1)%1) < 1/6 ? p+(q-p)*6*t :
                 t < 1/2 ? q :
                 t < 2/3 ? p+(q-p)*(2/3-t)*6 : p] *)
Definition f (p q t : R) : R :=
  let t := jsRem (jsRem t 1 + 1) 1 in
  if Rltb t (1 / 6) then p + (q - p) * 6 * t
  else if Rltb t (1 / 2) then q
  else if Rltb t (2 / 3) then p + (q - p) * (2 / 3 - t) * 6
  else p.

(** The value [setHSLA(h=0, s=0, l=1, a=1)] stores in its receiver:
    [const q = l < .5 ? l*(1+s) : l+s-l*s, p = 2*l-q;
     this.r = f(p, q, h + 1/3); this.g = f(p, q, h);
     this.b = f(p, q, h - 1/3); this.a = a;] *)
Definition setHSLA (h s l al : R) : Color :=
  let q := if Rltb l (1 / 2) then l * (1 + s) else l + s - l * s in
  let p := 2 * l - q in
  rgba (f p q (h + 1 / 3)) (f p q h) (f p q (h - 1 / 3)) al.

(** [getHSLA()]: the array [h / 6, s, l, a] as a tuple, with
    [max = Math.max(r, g, b)] and [min = Math.min(r, g, b)]. *)
Definition getHSLA (this : Color) : R * R * R * R :=
  let mx := Rmax (Rmax (r this) (g this)) (b this) in
  let mn := Rmin (Rmin (r this) (g this)) (b this) in
  let l := (mx + mn) / 2 in
  let '(h, s) :=
    if negb (Reqb mx mn) then
      let d := mx - mn in
      let s := if Rgtb l (1 / 2) then d / (2 - mx - mn) else d / (mx + mn) in
      let h :=
        if Reqb (r this) mx
        then (g this - b this) / d + (if Rltb (g this) (b this) then 6 else 0)
        else if Reqb (g this) mx then (b this - r this) / d + 2
        else if Reqb (b this) mx then (r this - g this) / d + 4
        else 0 in
      (h, s)
    else (0, 0) in
  (h / 6, s, l, a this).

(** [rgbaInt()
      { return (this.r*255|0) + (this.g*255<<8) + (this.b*255<<16)
               + (this.a*255<<24); }]
    Each shift works on the 32-bit integer of its left operand; the sum
    is one of numbers. *)
Definition rgbaInt (this : Color) : Z :=
  (toInt32 (r this * 255) + shiftLeft (toInt32 (g this * 255)) 8
   + shiftLeft (toInt32 (b this * 255)) 16
   + shiftLeft (toInt32 (a this * 255)) 24)%Z.

(** [hex()
      { const toHex = (c)=> ((c=c*255|0)<16 ? '0' : '') + c.toString(16);
        return '#' + toHex(this.r) + toHex(this.g) + toHex(this.b); }] *)
Definition toHex (c : R) : String.string :=
  let c := toInt32 (c * 255) in
  String.append (if (c <? 16)%Z then "0" else "") (intToString16 c).

Definition hex (this : Color) : String.string :=
  String.append "#"
    (String.append (toHex (r this))
       (String.append (toHex (g this)) (toHex (b this)))).

(** The value [setHex(hex)] stores in its receiver:
    [const fromHex = (a)=> parseInt(hex.slice(a,a+2), 16)/255;
     this.r = fromHex(1); this.g = fromHex(3), this.b = fromHex(5);
     this.a = 1;]
    A component is [None] where [parseInt] finds no number. *)
Definition fromHex (hex : String.string) (i : nat) : option R :=
  match parseInt16 (String.substring i 2 hex) with
  | Some n => Some (IZR n / 255)
  | None => None
  end.

Definition setHex (hex : String.string) : option R * option R * option R * R :=
  (fromHex hex 1, fromHex hex 3, fromHex hex 5, 1).

(** The condition the assertions of [toString] and [rgbaInt] state. *)
Definition valid (this : Color) : Prop :=
  0 <= r this <= 1 /\ 0 <= g this <= 1 /\ 0 <= b this <= 1 /\ 0 <= a this <= 1.

End Color.

(** ** Timer *)

Module Timer.

(** The fields [time] and [setTime]; [None] stands for [undefined]. *)
Record Timer : Type := mk { time : option R; setTime : option R }.

(** [constructor(timeLeft)
      { this.time = timeLeft == undefined ? undefined : time + timeLeft;
        this.setTime = timeLeft; }]
    The global [time] is the argument [now] here and below. *)
Definition new (now : R) (timeLeft : option R) : Timer :=
  mk (match timeLeft with None => None | Some tl => Some (now + tl) end) timeLeft.

(** [set(timeLeft=0) { this.time = time + timeLeft; this.setTime = timeLeft; }] *)
Definition set (now timeLeft : R) (this : Timer) : Timer :=
  mk (Some (now + timeLeft)) (Some timeLeft).

(** [unset() { this.time = undefined; }] *)
Definition unset (this : Timer) : Timer := mk None (setTime this).

(** [isSet() { return this.time != undefined; }] *)
Definition isSet (this : Timer) : bool := isSome (time this).

(** [active() { return time <= this.time; }]: a comparison with
    [undefined] is false. *)
Definition active (now : R) (this : Timer) : bool :=
  match time this with Some t => Rleb now t | None => false end.

(** [elapsed() { return time > this.time; }] *)
Definition elapsed (now : R) (this : Timer) : bool :=
  match time this with Some t => Rgtb now t | None => false end.

(** [get() { return this.isSet()? time - this.time : 0; }] *)
Definition get (now : R) (this : Timer) : R :=
  match time this with Some t => now - t | None => 0 end.

(** [getPercent()
      { return this.isSet()? percent(this.time - time, this.setTime, 0) : 0; }]
    With [setTime] undefined the difference [max-min] of [percent] is NaN,
    which counts as false. *)
Definition getPercent (now : R) (this : Timer) : R :=
  match time this with
  | Some t => match setTime this with
              | Some st => percent (t - now) st 0
              | None => 0
              end
  | None => 0
  end.

Section ToString.

(** The debug switch, and the string of a number in a concatenation;
    both are declared elsewhere. *)
Variable debug : bool.
Variable Number_toString : R -> String.string.

(** [toString()
      { if (debug) { return this.unset() ? 'unset'
            : Math.abs(this.get()) + ' seconds '
              + (this.get()<0 ? 'before' : 'after' ); } }]
    [unset()] returns nothing, which counts as false where a condition
    is expected, after it has run.  The result is the string returned,
    [None] for none, and the timer the call leaves. *)
Definition toString (now : R) (this : Timer) : option String.string * Timer :=
  if debug then
    let this1 := unset this in
    (Some (String.append (Number_toString (Rabs (get now this1)))
             (String.append " seconds "
                (if Rltb (get now this1) 0 then "before" else "after"))),
     this1)
  else (None, this).

End ToString.

End Timer.

(** ** More sample data *)

(** A [Math.random] that returns 1/2 at every call. *)
Definition halfRandom (n : nat) : R := 1 / 2.

(** Opaque orange, white and black. *)
Definition sampleColor : Color.Color := Color.rgba 1 (1 / 2) 0 1.
Definition white : Color.Color := Color.rgba 1 1 1 1.
Definition black : Color.Color := Color.rgba 0 0 0 1.

(** The sample hierarchy as a world. *)
Definition treeWorld : World := mkWorld sampleTree [] 0 [].
Section Physics.

(** Engine settings and collaborators that are declared elsewhere. *)
Variable gravity : R.
Variable objectMaxSpeed : R.
Variable enablePhysicsSolver : bool.

(** [tileCollisionTest(pos, size, object)]: a predicate of the
    position, the size and the object asking. *)
Variable tileCollisionTest : Vector2 -> Vector2 -> ObjId -> bool.

(** [a.collideWithObject(b)], which a subclass may override; it reads
    the objects and changes nothing. *)
Variable collideWithObject : Store -> ObjId -> ObjId -> bool.

(** The value the n-th call of [Math.random()] returns. *)
Variable Math_random : nat -> R.

(** [randVector = (length=1)=> new Vector2().setAngle(rand(2*PI), length)]
    with [rand = (a=1, b=0)=> b + (a-b)*Math.random()]. *)
Definition randVector (len : R) (w : World) : Vector2 * World :=
  (Vec.setAngle (0 + (2 * PI - 0) * Math_random (randomCalls w)) len,
   tickRandom w).

(** The parented branch of [update]:
    [this.pos = this.localPos.multiply(vec2(parent.getMirrorSign(),1))
                    .rotate(-parent.angle).add(parent.pos);
     this.angle = parent.getMirrorSign()*this.localAngle + parent.angle;] *)
Definition followParent (this p : ObjId) (w : World) : World :=
  let w1 :=
    modify this
      (fun t =>
         set_pos
           (Vec.add
              (Vec.rotate
                 (Vec.multiply (localPos t)
                    (vec (getMirrorSign (objects w p)) 1))
                 (- angle (objects w p)))
              (pos (objects w p))) t) w in
  modify this
    (fun t =>
       set_angle
         (getMirrorSign (objects w1 p) * localAngle t + angle (objects w1 p)) t)
    w1.

(** The speed limit and the integration step:
    [this.velocity.x = clamp(this.velocity.x, -objectMaxSpeed, objectMaxSpeed);
     this.velocity.y = clamp(this.velocity.y, -objectMaxSpeed, objectMaxSpeed);
     this.pos.x += this.velocity.x = this.damping * this.velocity.x;
     this.pos.y += this.velocity.y = this.damping * this.velocity.y
                                     + gravity * this.gravityScale;
     this.angle += this.angleVelocity *= this.angleDamping;] *)
Definition integrateObject (t : EngineObject) : EngineObject :=
  let vx := clamp (x (velocity t)) (- objectMaxSpeed) objectMaxSpeed in
  let vy := clamp (y (velocity t)) (- objectMaxSpeed) objectMaxSpeed in
  let vx' := damping t * vx in
  let vy' := damping t * vy + gravity * gravityScale t in
  let av := angleVelocity t * angleDamping t in
  set_angle (angle t + av)
    (set_angleVelocity av
       (set_pos (vec (x (pos t) + vx') (y (pos t) + vy'))
          (set_velocity (vec vx' vy') t))).

Definition integrate (this : ObjId) (w : World) : World :=
  modify this integrateObject w.

(** [if (this.groundObject)
      { const groundSpeed = this.groundObject.velocity
                            ? this.groundObject.velocity.x : 0;
        this.velocity.x = groundSpeed + (this.velocity.x - groundSpeed)
                                        * this.friction;
        this.groundObject = 0; }] *)
Definition applyFriction (this : ObjId) (w : World) : World :=
  let t := objects w this in
  let slide groundSpeed :=
    modify this
      (fun t =>
         set_groundObject NoGround
           (set_velocity_x
              (groundSpeed + (x (velocity t) - groundSpeed) * friction t) t))
      w in
  match groundObject t with
  | NoGround => w
  | TileGround => slide 0
  | ObjectGround g => slide (x (velocity (objects w g)))
  end.

(** The objects already overlapped before the move:
    [const deltaPos = oldPos.subtract(o.pos);
     const length = deltaPos.length();
     const velocity = length < .01 ? randVector(pushAwayAccel)
                                   : deltaPos.scale(pushAwayAccel/length);
     this.velocity = this.velocity.add(velocity);
     if (o.mass) o.velocity = o.velocity.subtract(velocity);] *)
Definition pushAway (this o : ObjId) (oldPos : Vector2) (w : World) : World :=
  let deltaPos := Vec.subtract oldPos (pos (objects w o)) in
  let len := Vec.length deltaPos in
  let '(push, w1) :=
    if Rltb len (1 / 100) then randVector pushAwayAccel w
    else (Vec.scale deltaPos (pushAwayAccel / len), w) in
  let w2 := modify this (fun t => set_velocity (Vec.add (velocity t) push) t) w1 in
  if truthy (mass (objects w2 o))
  then modify o (fun b => set_velocity (Vec.subtract (velocity b) push) b) w2
  else w2.

(** The body of [if (smallStepUp || isBlockedY || !isBlockedX)]:
    [this.pos.y = o.pos.y + (sizeBoth.y/2 + epsilon) * sign(oldPos.y - o.pos.y);
     if (o.groundObject && wasMovingDown || !o.mass)
     { if (wasMovingDown) this.groundObject = o;
       this.velocity.y *= -this.elasticity; }
     else if (o.mass) { .. blend on y .. }] *)
Definition resolveY (this o : ObjId) (oldPos sizeBoth : Vector2)
    (wasMovingDown : bool) (w : World) : World :=
  let w1 :=
    modify this
      (set_pos_y (y (pos (objects w o))
                  + (y sizeBoth / 2 + epsilon) * sign (y oldPos - y (pos (objects w o)))))
      w in
  let b := objects w1 o in
  if (isGround (groundObject b) && wasMovingDown) || negb (truthy (mass b)) then
    let w2 := if wasMovingDown
              then modify this (set_groundObject (ObjectGround o)) w1
              else w1 in
    modify this (fun t => set_velocity_y (y (velocity t) * - elasticity t) t) w2
  else if truthy (mass b) then
    let t := objects w1 this in
    let '(v0, v1, ds) :=
      blendRecorded (mass t) (y (velocity t)) (elasticity t)
                    (mass b) (y (velocity b)) (elasticity b) in
    let w2 := recordDivisors ds w1 in
    let w3 := modify this (set_velocity_y v0) w2 in
    modify o (set_velocity_y v1) w3
  else w1.

(** The body of [if (!smallStepUp && (isBlockedX || !isBlockedY))]:
    [this.pos.x = o.pos.x + (sizeBoth.x/2 + epsilon) * sign(oldPos.x - o.pos.x);
     if (o.mass) { .. blend on x .. }
     else this.velocity.x *= -this.elasticity;] *)
Definition resolveX (this o : ObjId) (oldPos sizeBoth : Vector2) (w : World) : World :=
  let w1 :=
    modify this
      (set_pos_x (x (pos (objects w o))
                  + (x sizeBoth / 2 + epsilon) * sign (x oldPos - x (pos (objects w o)))))
      w in
  let b := objects w1 o in
  if truthy (mass b) then
    let t := objects w1 this in
    let '(v0, v1, ds) :=
      blendRecorded (mass t) (x (velocity t)) (elasticity t)
                    (mass b) (x (velocity b)) (elasticity b) in
    let w2 := recordDivisors ds w1 in
    let w3 := modify this (set_velocity_x v0) w2 in
    modify o (set_velocity_x v1) w3
  else
    modify this (fun t => set_velocity_x (x (velocity t) * - elasticity t) t) w1.

(** The three conditions the choice of the axis rests on:
    [const sizeBoth = this.size.add(o.size);
     const smallStepUp = (oldPos.y - o.pos.y)*2 > sizeBoth.y + gravity;
     const isBlockedX = abs(oldPos.y - o.pos.y)*2 < sizeBoth.y;
     const isBlockedY = abs(oldPos.x - o.pos.x)*2 < sizeBoth.x;] *)
Definition smallStepUp (oldPos opos sizeBoth : Vector2) : bool :=
  Rgtb ((y oldPos - y opos) * 2) (y sizeBoth + gravity).
Definition isBlockedX (oldPos opos sizeBoth : Vector2) : bool :=
  Rltb (abs (y oldPos - y opos) * 2) (y sizeBoth).
Definition isBlockedY (oldPos opos sizeBoth : Vector2) : bool :=
  Rltb (abs (x oldPos - x opos) * 2) (x sizeBoth).

(** The response to an overlap that is new this tick:
    [if (smallStepUp || isBlockedY || !isBlockedX) { .. resolve y .. }
     if (!smallStepUp && (isBlockedX || !isBlockedY)) { .. resolve x .. }] *)
Definition resolveNew (this o : ObjId) (oldPos : Vector2)
    (wasMovingDown : bool) (w : World) : World :=
  let sizeBoth := Vec.add (size (objects w this)) (size (objects w o)) in
  let opos := pos (objects w o) in
  let ssu := smallStepUp oldPos opos sizeBoth in
  let bx := isBlockedX oldPos opos sizeBoth in
  let by_ := isBlockedY oldPos opos sizeBoth in
  let w1 := if ssu || by_ || negb bx
            then resolveY this o oldPos sizeBoth wasMovingDown w
            else w in
  if negb ssu && (bx || negb by_)
  then resolveX this o oldPos sizeBoth w1
  else w1.

(** One round of [for (const o of engineObjectsCollide)]:
    [if (!this.isSolid & !o.isSolid || o.destroyed || o.parent || o == this)
         continue;
     if (!isOverlapping(this.pos, this.size, o.pos, o.size))
         continue;
     if (!this.collideWithObject(o) | !o.collideWithObject(this))
         continue;
     if (isOverlapping(oldPos, this.size, o.pos, o.size))
     { .. push away ..; continue; }
     .. response to a new overlap ..] *)
Definition collideWith (this : ObjId) (oldPos : Vector2) (wasMovingDown : bool)
    (w : World) (o : ObjId) : World :=
  let t := objects w this in
  let b := objects w o in
  if (negb (isSolid t) && negb (isSolid b)) || destroyed b || isSome (parent b)
     || Nat.eqb o this
  then w
  else if negb (isOverlapping (pos t) (size t) (pos b) (size b)) then w
  else if negb (collideWithObject (objects w) this o)
          || negb (collideWithObject (objects w) o this)
  then w
  else if isOverlapping oldPos (size t) (pos b) (size b)
  then pushAway this o oldPos w
  else resolveNew this o oldPos wasMovingDown w.

(** The object pass: [if (this.collideSolidObjects) for (..) ..].  No
    round changes the list the loop runs over. *)
Definition objectPass (this : ObjId) (oldPos : Vector2) (wasMovingDown : bool)
    (w : World) : World :=
  if collideSolidObjects (objects w this)
  then fold_left (collideWith this oldPos wasMovingDown) (engineObjectsCollide w) w
  else w.

(** The body of [if (isBlockedY || !isBlockedX)] of the tile pass:
    [this.groundObject = wasMovingDown;
     this.velocity.y *= -this.elasticity;
     const o = (oldPos.y - this.size.y/2|0) - (oldPos.y - this.size.y/2);
     if (o < 0 && o > this.damping * this.velocity.y + gravity * this.gravityScale)
         this.velocity.y = this.damping
             ? (o - gravity * this.gravityScale) / this.damping : 0;
     this.pos.y = oldPos.y;] *)
Definition tileBounceY (oldPos : Vector2) (wasMovingDown : bool)
    (t : EngineObject) : EngineObject :=
  let t1 := set_groundObject (if wasMovingDown then TileGround else NoGround) t in
  let t2 := set_velocity_y (y (velocity t1) * - elasticity t1) t1 in
  let o := IZR (toInt32 (y oldPos - y (size t2) / 2))
           - (y oldPos - y (size t2) / 2) in
  let t3 :=
    if Rltb o 0 && Rgtb o (damping t2 * y (velocity t2) + gravity * gravityScale t2)
    then set_velocity_y
           (if truthy (damping t2)
            then (o - gravity * gravityScale t2) / damping t2
            else 0) t2
    else t2 in
  set_pos_y (y oldPos) t3.

(** The body of [if (isBlockedX)] of the tile pass:
    [this.pos.x = oldPos.x; this.velocity.x *= -this.elasticity;] *)
Definition tileBounceX (oldPos : Vector2) (t : EngineObject) : EngineObject :=
  let t1 := set_pos_x (x oldPos) t in
  set_velocity_x (x (velocity t1) * - elasticity t1) t1.

(** The tile pass: [if (this.collideTiles) ..]. *)
Definition tilePass (this : ObjId) (oldPos : Vector2) (wasMovingDown : bool)
    (w : World) : World :=
  let t := objects w this in
  if collideTiles t then
    if tileCollisionTest (pos t) (size t) this then
      if negb (tileCollisionTest oldPos (size t) this) then
        let blockedY := tileCollisionTest (vec (x oldPos) (y (pos t))) (size t) this in
        let blockedX := tileCollisionTest (vec (x (pos t)) (y oldPos)) (size t) this in
        let w1 := if blockedY || negb blockedX
                  then modify this (tileBounceY oldPos wasMovingDown) w
                  else w in
        if blockedX then modify this (tileBounceX oldPos) w1 else w1
      else w
    else w
  else w.

(** [update()]: the copy of the parent's transform for a parented object;
    otherwise the integration step with [oldPos = this.pos.copy()] taken
    before it, then, unless
    [if (!enablePhysicsSolver || !this.mass) return;], with
    [wasMovingDown = this.velocity.y < 0], the friction, the object pass
    and the tile pass. *)
Definition update (this : ObjId) (w : World) : World :=
  match parent (objects w this) with
  | Some p => followParent this p w
  | None =>
      let oldPos := Vec.copy (pos (objects w this)) in
      let w1 := integrate this w in
      if negb enablePhysicsSolver || negb (truthy (mass (objects w1 this)))
      then w1
      else
        let wasMovingDown := Rltb (y (velocity (objects w1 this))) 0 in
        let w2 := applyFriction this w1 in
        let w3 := objectPass this oldPos wasMovingDown w2 in
        tilePass this oldPos wasMovingDown w3
  end.

(** The position [resolveY] pushes [this] to. *)
Definition pushedY (o : ObjId) (oldPos sizeBoth : Vector2) (w : World) : R :=
  y (pos (objects w o))
  + (y sizeBoth / 2 + epsilon) * sign (y oldPos - y (pos (objects w o))).

(** The position [resolveX] pushes [this] to. *)
Definition pushedX (o : ObjId) (oldPos sizeBoth : Vector2) (w : World) : R :=
  x (pos (objects w o))
  + (x sizeBoth / 2 + epsilon) * sign (x oldPos - x (pos (objects w o))).

(** Which axes [resolveNew] resolves. *)
Definition resolvesY (this o : ObjId) (oldPos : Vector2) (w : World) : bool :=
  let sizeBoth := Vec.add (size (objects w this)) (size (objects w o)) in
  let opos := pos (objects w o) in
  smallStepUp oldPos opos sizeBoth || isBlockedY oldPos opos sizeBoth
  || negb (isBlockedX oldPos opos sizeBoth).

Definition resolvesX (this o : ObjId) (oldPos : Vector2) (w : World) : bool :=
  let sizeBoth := Vec.add (size (objects w this)) (size (objects w o)) in
  let opos := pos (objects w o) in
  negb (smallStepUp oldPos opos sizeBoth)
  && (isBlockedX oldPos opos sizeBoth || negb (isBlockedY oldPos opos sizeBoth)).

(** The choice of the axis in the words of the specification, for an
    object at [oldPos] before the move, of size [sizeA], against an
    object at [opos] of size [sizeB].  The vertical gap is that of the
    moving object above the other one. *)
Definition specSmallStepUp (oldPos opos sizeA sizeB : Vector2) : Prop :=
  2 * (y oldPos - y opos) > (y sizeA + y sizeB) + gravity.

(** The objects overlapped horizontally at the previous position. *)
Definition specOverlappedX (oldPos opos sizeA sizeB : Vector2) : Prop :=
  2 * Rabs (x oldPos - x opos) < x sizeA + x sizeB.

(** The objects overlapped vertically at the previous position. *)
Definition specOverlappedY (oldPos opos sizeA sizeB : Vector2) : Prop :=
  2 * Rabs (y oldPos - y opos) < y sizeA + y sizeB.

Definition specResolvesY (oldPos opos sizeA sizeB : Vector2) : Prop :=
  specSmallStepUp oldPos opos sizeA sizeB
  \/ specOverlappedX oldPos opos sizeA sizeB
  \/ ~ specOverlappedY oldPos opos sizeA sizeB.

Definition specResolvesX (oldPos opos sizeA sizeB : Vector2) : Prop :=
  ~ specSmallStepUp oldPos opos sizeA sizeB
  /\ (specOverlappedY oldPos opos sizeA sizeB
      \/ ~ specOverlappedX oldPos opos sizeA sizeB).

(** ** The random functions *)

(** [const rand = (a=1, b=0)=> b + (a-b)*Math.random()] *)
Definition rand (a b : R) (w : World) : R * World :=
  (b + (a - b) * Math_random (randomCalls w), tickRandom w).

(** [const randInt = (a=1, b=0)=> rand(a,b)|0] *)
Definition randInt (a b : R) (w : World) : Z * World :=
  let '(r, w1) := rand a b w in (toInt32 r, w1).

(** [const randSign = ()=> (rand(2)|0) * 2 - 1] *)
Definition randSign (w : World) : Z * World :=
  let '(r, w1) := rand 2 0 w in ((toInt32 r * 2 - 1)%Z, w1).

(** [const randInCircle = (radius=1, minRadius=0)=>
      radius > 0 ? randVector(radius * rand(minRadius / radius, 1)**.5)
                 : new Vector2]
    The root is that of a number that is not negative as long as
    [minRadius] is not. *)
Definition randInCircle (radius minRadius : R) (w : World) : Vector2 * World :=
  if Rgtb radius 0
  then let '(r, w1) := rand (minRadius / radius) 1 w in
       randVector (radius * sqrt r) w1
  else (vec 0 0, w).


(** [mutate(amount=.05, alphaAmount=0)
      { return new Color(this.r + rand(amount, -amount),
                         this.g + rand(amount, -amount),
                         this.b + rand(amount, -amount),
                         this.a + rand(alphaAmount, -alphaAmount)).clamp(); }] *)
Definition mutate (amount alphaAmount : R) (this : Color.Color) (w : World) :
    Color.Color * World :=
  let '(dr, w1) := rand amount (- amount) w in
  let '(dg, w2) := rand amount (- amount) w1 in
  let '(db, w3) := rand amount (- amount) w2 in
  let '(da, w4) := rand alphaAmount (- alphaAmount) w3 in
  (Color.clamp
     (Color.rgba (Color.r this + dr) (Color.g this + dg) (Color.b this + db)
                 (Color.a this + da)),
   w4).

(** [const randColor = (cA = new Color, cB = new Color(0,0,0,1), linear)=>
      linear ? cA.lerp(cB, rand())
             : new Color(rand(cA.r,cB.r), rand(cA.g,cB.g),
                         rand(cA.b,cB.b), rand(cA.a,cB.a))] *)
Definition randColor (cA cB : Color.Color) (linear : bool) (w : World) :
    Color.Color * World :=
  if linear then
    let '(p, w1) := rand 1 0 w in (Color.lerp cA cB p, w1)
  else
    let '(cr, w1) := rand (Color.r cA) (Color.r cB) w in
    let '(cg, w2) := rand (Color.g cA) (Color.g cB) w1 in
    let '(cb, w3) := rand (Color.b cA) (Color.b cB) w2 in
    let '(ca, w4) := rand (Color.a cA) (Color.a cB) w3 in
    (Color.rgba cr cg cb ca, w4).
(** * Properties *)

(** ** Numbers and conditions *)

Lemma Rltb_true (a b : R) : Rltb a b = true <-> a < b.
Proof. unfold Rltb; destruct (Rlt_dec a b); split; intros; auto; discriminate. Qed.

Lemma Rltb_false (a b : R) : Rltb a b = false <-> b <= a.
Proof.
  unfold Rltb; destruct (Rlt_dec a b); split; intros; auto; try discriminate; lra.
Qed.

Lemma truthy_true (a : R) : truthy a = true <-> a <> 0.
Proof.
  unfold truthy; destruct (Req_dec_T a 0); split; intros; auto;
    try discriminate; contradiction.
Qed.

Lemma truthy_false (a : R) : truthy a = false <-> a = 0.
Proof.
  unfold truthy; destruct (Req_dec_T a 0); split; intros; auto;
    try discriminate; contradiction.
Qed.

Lemma abs_Rabs (a : R) : abs a = Rabs a.
Proof.
  unfold abs, Rltb; destruct (Rlt_dec a 0).
  - rewrite Rabs_left; lra.
  - rewrite Rabs_right; lra.
Qed.

Lemma clamp_0 : clamp 0 0 1 = 0.
Proof.
  unfold clamp, Rgtb, Rltb.
  destruct (Rlt_dec 0 0); [lra|]. destruct (Rlt_dec 1 0); [lra|]. reflexivity.
Qed.

Lemma clamp_1 : clamp 1 0 1 = 1.
Proof.
  unfold clamp, Rgtb, Rltb.
  destruct (Rlt_dec 1 0); [lra|]. destruct (Rlt_dec 1 1); [lra|]. reflexivity.
Qed.

Lemma lerp_0 (a b : R) : lerp 0 a b = a.
Proof. unfold lerp; rewrite clamp_0; ring. Qed.

Lemma lerp_1 (a b : R) : lerp 1 a b = b.
Proof. unfold lerp; rewrite clamp_1; ring. Qed.

Lemma max_idem (a : R) : max a a = a.
Proof. unfold max; destruct (Rgtb a a); reflexivity. Qed.

Lemma copy_eq (v : Vector2) : Vec.copy v = v.
Proof. destruct v; reflexivity. Qed.

(** ** The store *)

Lemma upd_same (s : Store) (i : ObjId) (o : EngineObject) : upd s i o i = o.
Proof. unfold upd; rewrite Nat.eqb_refl; reflexivity. Qed.

Lemma upd_other (s : Store) (i j : ObjId) (o : EngineObject) :
  j <> i -> upd s i o j = s j.
Proof. intros H; unfold upd; apply Nat.eqb_neq in H; rewrite H; reflexivity. Qed.

Lemma modify_same (i : ObjId) (f : EngineObject -> EngineObject) (w : World) :
  objects (modify i f w) i = f (objects w i).
Proof. apply upd_same. Qed.

Lemma modify_other (i j : ObjId) (f : EngineObject -> EngineObject) (w : World) :
  j <> i -> objects (modify i f w) j = objects w j.
Proof. intros H; simpl; apply upd_other; exact H. Qed.

(** ** Vector2.normalize *)

Lemma lengthSquared_nonneg (v : Vector2) : 0 <= Vec.lengthSquared v.
Proof. unfold Vec.lengthSquared; nra. Qed.

Lemma length_nonneg (v : Vector2) : 0 <= Vec.length v.
Proof. apply sqrt_pos. Qed.

Lemma length_zero : Vec.length (vec 0 0) = 0.
Proof.
  unfold Vec.length, Vec.lengthSquared; simpl.
  replace (0 * 0 + 0 * 0) with 0 by ring. apply sqrt_0.
Qed.

Lemma length_pos (v : Vector2) : v <> vec 0 0 -> 0 < Vec.length v.
Proof.
  intros Hv. apply sqrt_lt_R0.
  destruct v as [a b]; unfold Vec.lengthSquared; simpl.
  destruct (Req_dec_T a 0) as [Ha|Ha]; [|nra].
  destruct (Req_dec_T b 0) as [Hb|Hb]; [|nra].
  subst; contradiction.
Qed.

Lemma length_scale (v : Vector2) (k : R) :
  0 <= k -> Vec.length (Vec.scale v k) = k * Vec.length v.
Proof.
  intros Hk. unfold Vec.length.
  apply sqrt_lem_1.
  - apply lengthSquared_nonneg.
  - apply Rmult_le_pos; [exact Hk | apply sqrt_pos].
  - transitivity (k * k * (sqrt (Vec.lengthSquared v) * sqrt (Vec.lengthSquared v)));
      [ring|].
    rewrite sqrt_sqrt by apply lengthSquared_nonneg.
    unfold Vec.lengthSquared, Vec.scale; simpl; ring.
Qed.

(** C8.  For every length L, [normalize(L)] of the zero vector is the
    vector (L, 0), whose length is L when L is a length (not negative);
    and [normalize(L)] of a vector that is not zero is that vector
    scaled by a factor that is not negative (positive when L is): a
    vector of length L in the same direction. *)
Theorem normalize_length_and_direction (L : R) :
  Vec.normalize (vec 0 0) L = vec L 0 /\
  (0 <= L ->
   Vec.length (Vec.normalize (vec 0 0) L) = L /\
   forall v : Vector2, v <> vec 0 0 ->
     Vec.length (Vec.normalize v L) = L /\
     exists k : R, 0 <= k /\ (0 < L -> 0 < k) /\
                   Vec.normalize v L = Vec.scale v k).
Proof.
  assert (Hz : Vec.normalize (vec 0 0) L = vec L 0).
  { unfold Vec.normalize. rewrite length_zero.
    replace (truthy 0) with false; [reflexivity|].
    symmetry; apply truthy_false; reflexivity. }
  split; [exact Hz|]. intros HL. split.
  - rewrite Hz. unfold Vec.length, Vec.lengthSquared; simpl.
    replace (L * L + 0 * 0) with (L * L) by ring.
    apply sqrt_square; exact HL.
  - intros v Hv. pose proof (length_pos v Hv) as Hl.
    assert (Hn : Vec.normalize v L = Vec.scale v (L / Vec.length v)).
    { unfold Vec.normalize.
      replace (truthy (Vec.length v)) with true; [reflexivity|].
      symmetry; apply truthy_true; lra. }
    assert (Hk : 0 <= L / Vec.length v).
    { apply Rmult_le_pos; [exact HL|]. left; apply Rinv_0_lt_compat; exact Hl. }
    split.
    + rewrite Hn, length_scale by exact Hk. field; lra.
    + exists (L / Vec.length v). split; [exact Hk|]. split; [|exact Hn].
      intros HL'. apply Rmult_lt_0_compat; [exact HL'|].
      apply Rinv_0_lt_compat; exact Hl.
Qed.

(** ** applyAcceleration and applyForce *)

(** C10.  On an object of mass 0, [applyAcceleration] and [applyForce]
    change nothing, the velocity in particular.  On an object of mass
    other than 0, a positive mass in particular, [applyAcceleration]
    adds the vector to the velocity, component by component, and
    [applyForce] adds the force scaled by 1/mass; neither changes the
    position or the mass. *)
Theorem applied_force_respects_mass (o : EngineObject) (a : Vector2) :
  (mass o = 0 ->
   applyAcceleration a o = o /\ applyForce a o = o /\
   velocity (applyAcceleration a o) = velocity o /\
   velocity (applyForce a o) = velocity o) /\
  (mass o <> 0 ->
   x (velocity (applyAcceleration a o)) = x (velocity o) + x a /\
   y (velocity (applyAcceleration a o)) = y (velocity o) + y a /\
   x (velocity (applyForce a o)) = x (velocity o) + x a * (1 / mass o) /\
   y (velocity (applyForce a o)) = y (velocity o) + y a * (1 / mass o) /\
   pos (applyAcceleration a o) = pos o /\ pos (applyForce a o) = pos o /\
   mass (applyAcceleration a o) = mass o /\ mass (applyForce a o) = mass o).
Proof.
  split.
  - intros Hm.
    assert (Ht : truthy (mass o) = false) by (apply truthy_false; exact Hm).
    unfold applyForce, applyAcceleration; rewrite Ht; auto.
  - intros Hm.
    assert (Ht : truthy (mass o) = true) by (apply truthy_true; exact Hm).
    unfold applyForce, applyAcceleration; rewrite Ht; simpl.
    repeat split; reflexivity.
Qed.

(** ** What an update leaves alone *)

Lemma fixed_mass (w w' : World) (i : ObjId) :
  sameFixed w w' -> mass (objects w' i) = mass (objects w i).
Proof. intros H; specialize (H i); unfold fixedFields in H; congruence. Qed.

Lemma fixed_size (w w' : World) (i : ObjId) :
  sameFixed w w' -> size (objects w' i) = size (objects w i).
Proof. intros H; specialize (H i); unfold fixedFields in H; congruence. Qed.

Lemma fixed_collideTiles (w w' : World) (i : ObjId) :
  sameFixed w w' -> collideTiles (objects w' i) = collideTiles (objects w i).
Proof. intros H; specialize (H i); unfold fixedFields in H; congruence. Qed.

Lemma fixed_parent (w w' : World) (i : ObjId) :
  sameFixed w w' -> parent (objects w' i) = parent (objects w i).
Proof. intros H; specialize (H i); unfold fixedFields in H; congruence. Qed.

Lemma respects_refl (this : ObjId) (w : World) : respects this w w.
Proof. split; [intros i; reflexivity | intros o _; split; auto]. Qed.

Lemma respects_trans (this : ObjId) (w1 w2 w3 : World) :
  respects this w1 w2 -> respects this w2 w3 -> respects this w1 w3.
Proof.
  intros [F12 K12] [F23 K23]. split.
  - intros i. rewrite (F23 i). apply F12.
  - intros o Ho. destruct (K12 o Ho) as [P12 V12], (K23 o Ho) as [P23 V23].
    split; [congruence|]. intros Hm.
    rewrite V23, V12; auto. rewrite (fixed_mass w1 w2 o F12); exact Hm.
Qed.

(** Replacing one object respects the rest when the new state keeps the
    fixed fields and, for an object other than [this], the position and
    (at mass 0) the velocity. *)
Lemma respects_modify (this i : ObjId) (f : EngineObject -> EngineObject)
    (w : World) :
  fixedFields (f (objects w i)) = fixedFields (objects w i) ->
  (i <> this ->
   pos (f (objects w i)) = pos (objects w i) /\
   (mass (objects w i) = 0 ->
    velocity (f (objects w i)) = velocity (objects w i))) ->
  respects this w (modify i f w).
Proof.
  intros Hf Hk. split.
  - intros j. destruct (Nat.eq_dec j i) as [->|Hj].
    + rewrite modify_same; exact Hf.
    + rewrite modify_other by exact Hj; reflexivity.
  - intros o Ho. destruct (Nat.eq_dec o i) as [->|Hj].
    + rewrite modify_same. apply Hk; exact Ho.
    + rewrite modify_other by exact Hj. split; auto.
Qed.

Lemma respects_modify_this (this : ObjId) (f : EngineObject -> EngineObject)
    (w : World) :
  fixedFields (f (objects w this)) = fixedFields (objects w this) ->
  respects this w (modify this f w).
Proof. intros Hf; apply respects_modify; [exact Hf | intros H; contradiction]. Qed.

Lemma respects_tickRandom (this : ObjId) (w : World) :
  respects this w (tickRandom w).
Proof. split; [intros i; reflexivity | intros o _; split; auto]. Qed.

Lemma respects_recordDivisors (this : ObjId) (ds : list R) (w : World) :
  respects this w (recordDivisors ds w).
Proof. split; [intros i; reflexivity | intros o _; split; auto]. Qed.

Lemma respects_pushAway (this o : ObjId) (oldPos : Vector2) (w : World) :
  respects this w (pushAway this o oldPos w).
Proof.
  unfold pushAway.
  match goal with |- context [let '(_, _) := ?P in _] => set (push := P) end.
  assert (Hw : respects this w (snd push)).
  { subst push; destruct (Rltb _ _); simpl;
      [apply respects_tickRandom | apply respects_refl]. }
  destruct push as [p w1]; simpl in Hw.
  set (w2 := modify this _ w1).
  assert (H2 : respects this w w2).
  { eapply respects_trans; [exact Hw|].
    apply respects_modify_this; reflexivity. }
  destruct (truthy (mass (objects w2 o))) eqn:Hm; [|exact H2].
  eapply respects_trans; [exact H2|].
  apply respects_modify; [reflexivity|].
  intros _; split; [reflexivity|].
  intros H0. apply truthy_true in Hm. contradiction.
Qed.

Lemma respects_resolveY (this o : ObjId) (oldPos sizeBoth : Vector2)
    (wasMovingDown : bool) (w : World) :
  respects this w (resolveY this o oldPos sizeBoth wasMovingDown w).
Proof.
  unfold resolveY.
  set (w1 := modify this _ w).
  assert (H1 : respects this w w1) by (apply respects_modify_this; reflexivity).
  destruct (isGround (groundObject (objects w1 o)) && wasMovingDown
            || negb (truthy (mass (objects w1 o)))).
  - eapply respects_trans; [|apply respects_modify_this; reflexivity].
    eapply respects_trans; [exact H1|].
    destruct wasMovingDown;
      [apply respects_modify_this; reflexivity | apply respects_refl].
  - destruct (truthy (mass (objects w1 o))) eqn:Hm; [|exact H1].
    destruct (blendRecorded _ _ _ _ _ _) as [[v0 v1] ds].
    match goal with |- respects _ _ (modify o _ ?W) => set (w3 := W) end.
    assert (H3 : respects this w w3).
    { eapply respects_trans; [|apply respects_modify_this; reflexivity].
      eapply respects_trans; [exact H1 | apply respects_recordDivisors]. }
    eapply respects_trans; [exact H3|].
    apply respects_modify; [reflexivity|].
    intros _; split; [reflexivity|]. intros H0.
    apply truthy_true in Hm. exfalso; apply Hm.
    rewrite (fixed_mass w w1 o (proj1 H1)).
    rewrite <- (fixed_mass w w3 o (proj1 H3)). exact H0.
Qed.

Lemma respects_resolveX (this o : ObjId) (oldPos sizeBoth : Vector2) (w : World) :
  respects this w (resolveX this o oldPos sizeBoth w).
Proof.
  unfold resolveX.
  set (w1 := modify this _ w).
  assert (H1 : respects this w w1) by (apply respects_modify_this; reflexivity).
  destruct (truthy (mass (objects w1 o))) eqn:Hm.
  - destruct (blendRecorded _ _ _ _ _ _) as [[v0 v1] ds].
    match goal with |- respects _ _ (modify o _ ?W) => set (w3 := W) end.
    assert (H3 : respects this w w3).
    { eapply respects_trans; [|apply respects_modify_this; reflexivity].
      eapply respects_trans; [exact H1 | apply respects_recordDivisors]. }
    eapply respects_trans; [exact H3|].
    apply respects_modify; [reflexivity|].
    intros _; split; [reflexivity|]. intros H0.
    apply truthy_true in Hm. exfalso; apply Hm.
    rewrite (fixed_mass w w1 o (proj1 H1)).
    rewrite <- (fixed_mass w w3 o (proj1 H3)). exact H0.
  - eapply respects_trans; [exact H1|].
    apply respects_modify_this; reflexivity.
Qed.

Lemma respects_resolveNew (this o : ObjId) (oldPos : Vector2)
    (wasMovingDown : bool) (w : World) :
  respects this w (resolveNew this o oldPos wasMovingDown w).
Proof.
  unfold resolveNew.
  match goal with |- context [resolveX _ _ _ _ ?W] => set (w1 := W) end.
  assert (H1 : respects this w w1).
  { subst w1; destruct (_ || _ || _);
      [apply respects_resolveY | apply respects_refl]. }
  destruct (_ && _); [|exact H1].
  eapply respects_trans; [exact H1 | apply respects_resolveX].
Qed.

Lemma respects_collideWith (this : ObjId) (oldPos : Vector2)
    (wasMovingDown : bool) (w : World) (o : ObjId) :
  respects this w (collideWith this oldPos wasMovingDown w o).
Proof.
  unfold collideWith.
  repeat match goal with
         | |- respects _ _ (if ?c then _ else _) => destruct c
         end;
    try apply respects_refl.
  - apply respects_pushAway.
  - apply respects_resolveNew.
Qed.

Lemma respects_objectPass (this : ObjId) (oldPos : Vector2)
    (wasMovingDown : bool) (w : World) :
  respects this w (objectPass this oldPos wasMovingDown w).
Proof.
  unfold objectPass. destruct (collideSolidObjects _); [|apply respects_refl].
  generalize (engineObjectsCollide w) as l.
  assert (G : forall l w', respects this w w' ->
              respects this w (fold_left (collideWith this oldPos wasMovingDown) l w')).
  { induction l as [|o l IH]; intros w' Hw'; simpl; [exact Hw'|].
    apply IH. eapply respects_trans; [exact Hw' | apply respects_collideWith]. }
  intros l; apply G, respects_refl.
Qed.

Lemma respects_integrate (this : ObjId) (w : World) :
  respects this w (integrate this w).
Proof. apply respects_modify_this; reflexivity. Qed.

Lemma respects_applyFriction (this : ObjId) (w : World) :
  respects this w (applyFriction this w).
Proof.
  unfold applyFriction. destruct (groundObject (objects w this));
    [apply respects_refl | | ]; apply respects_modify_this; reflexivity.
Qed.

Lemma fixed_tileBounceY (oldPos : Vector2) (wasMovingDown : bool)
    (t : EngineObject) :
  fixedFields (tileBounceY oldPos wasMovingDown t) = fixedFields t.
Proof.
  unfold tileBounceY.
  match goal with |- context [if ?c then _ else _] => destruct c end;
    destruct wasMovingDown; reflexivity.
Qed.

Lemma respects_tilePass (this : ObjId) (oldPos : Vector2)
    (wasMovingDown : bool) (w : World) :
  respects this w (tilePass this oldPos wasMovingDown w).
Proof.
  unfold tilePass.
  destruct (collideTiles _); [|apply respects_refl].
  destruct (tileCollisionTest (pos (objects w this)) _ this); [|apply respects_refl].
  destruct (negb _); [|apply respects_refl].
  cbv zeta.
  match goal with |- context [modify this (tileBounceX _) ?W] => set (w1 := W) end.
  assert (H1 : respects this w w1).
  { subst w1. destruct (_ || _); [|apply respects_refl].
    apply respects_modify_this, fixed_tileBounceY. }
  destruct (tileCollisionTest (vec (x (pos (objects w this))) (y oldPos)) _ this);
    [|exact H1].
  eapply respects_trans; [exact H1|].
  apply respects_modify_this; reflexivity.
Qed.

Lemma respects_followParent (this p : ObjId) (w : World) :
  respects this w (followParent this p w).
Proof.
  unfold followParent.
  eapply respects_trans; apply respects_modify_this; reflexivity.
Qed.

Lemma respects_update (this : ObjId) (w : World) :
  respects this w (update this w).
Proof.
  unfold update. destruct (parent (objects w this)) as [p|].
  - apply respects_followParent.
  - destruct (_ || _); [apply respects_integrate|].
    eapply respects_trans; [|apply respects_tilePass].
    eapply respects_trans; [|apply respects_objectPass].
    eapply respects_trans; [apply respects_integrate | apply respects_applyFriction].
Qed.

(** The update of an object of mass 0 stops before the solver. *)
Lemma update_fixed_mass (this : ObjId) (w : World) :
  mass (objects w this) = 0 ->
  update this w = match parent (objects w this) with
                  | Some p => followParent this p w
                  | None => integrate this w
                  end.
Proof.
  intros Hm. unfold update. destruct (parent (objects w this)); [reflexivity|].
  assert (Ht : truthy (mass (objects (integrate this w) this)) = false).
  { apply truthy_false.
    rewrite (fixed_mass w _ this (proj1 (respects_integrate this w))).
    exact Hm. }
  rewrite Ht. rewrite orb_true_r. reflexivity.
Qed.

(** C4.  An object of mass 0 is out of reach of the object-object
    response.  When it is the one updated, its update is the parent
    copy or the integration step alone: the solver is not entered.
    When it is another object, the update of [this] leaves its position
    and its velocity as they were; the position of every other object
    is kept whatever its mass. *)
Theorem fixed_mass_out_of_reach (this : ObjId) (w : World) :
  (mass (objects w this) = 0 ->
   update this w = match parent (objects w this) with
                   | Some p => followParent this p w
                   | None => integrate this w
                   end) /\
  (forall o : ObjId, o <> this ->
     pos (objects (update this w) o) = pos (objects w o) /\
     (mass (objects w o) = 0 ->
      velocity (objects (update this w) o) = velocity (objects w o))).
Proof.
  split.
  - apply update_fixed_mass.
  - intros o Ho. exact (proj2 (respects_update this w) o Ho).
Qed.

(** ** The tile pass *)

Lemma pos_tileBounceY (oldPos : Vector2) (wasMovingDown : bool)
    (t : EngineObject) :
  pos (tileBounceY oldPos wasMovingDown t) = vec (x (pos t)) (y oldPos).
Proof.
  unfold tileBounceY.
  match goal with |- context [if ?c then _ else _] => destruct c end;
    destruct wasMovingDown; reflexivity.
Qed.

Lemma pos_tileBounceX (oldPos : Vector2) (t : EngineObject) :
  pos (tileBounceX oldPos t) = vec (x oldPos) (y (pos t)).
Proof. reflexivity. Qed.

(** Whatever state the tile pass is entered in, when the position
    before the move was clear of tiles, the position it leaves is. *)
Lemma tilePass_clear (this : ObjId) (oldPos : Vector2) (wasMovingDown : bool)
    (w : World) :
  collideTiles (objects w this) = true ->
  tileCollisionTest oldPos (size (objects w this)) this = false ->
  tileCollisionTest
    (pos (objects (tilePass this oldPos wasMovingDown w) this))
    (size (objects (tilePass this oldPos wasMovingDown w) this)) this = false.
Proof.
  intros Hc Hold.
  rewrite (fixed_size w _ this (proj1 (respects_tilePass this oldPos wasMovingDown w))).
  unfold tilePass. rewrite Hc.
  destruct (tileCollisionTest (pos (objects w this)) _ this) eqn:Hnew;
    [|exact Hnew].
  rewrite Hold; simpl negb; cbv iota.
  destruct (tileCollisionTest (vec (x oldPos) (y (pos (objects w this)))) _ this)
    eqn:HY;
  destruct (tileCollisionTest (vec (x (pos (objects w this))) (y oldPos)) _ this)
    eqn:HX; simpl orb; cbv iota;
    rewrite ?modify_same, ?pos_tileBounceX, ?pos_tileBounceY; simpl.
  - destruct oldPos; exact Hold.
  - exact HX.
  - exact HY.
  - exact HX.
Qed.

(** C1.  An object with [collideTiles] set whose position before the
    move is clear of blocked tiles is clear of them after the tile
    pass: in whatever state the pass is entered, and hence at the end
    of every update that reaches the pass (an object without parent
    and of mass other than 0, with the solver enabled). *)
Theorem tile_pass_leaves_object_clear (this : ObjId) (w : World) :
  collideTiles (objects w this) = true ->
  tileCollisionTest (pos (objects w this)) (size (objects w this)) this = false ->
  (forall (wasMovingDown : bool) (w' : World),
     respects this w w' ->
     let w'' := tilePass this (pos (objects w this)) wasMovingDown w' in
     tileCollisionTest (pos (objects w'' this)) (size (objects w'' this)) this
     = false) /\
  (parent (objects w this) = None ->
   enablePhysicsSolver = true ->
   mass (objects w this) <> 0 ->
   tileCollisionTest (pos (objects (update this w) this))
                     (size (objects (update this w) this)) this = false).
Proof.
  intros Hc Hold.
  assert (G : forall (wasMovingDown : bool) (w' : World),
     respects this w w' ->
     let w'' := tilePass this (pos (objects w this)) wasMovingDown w' in
     tileCollisionTest (pos (objects w'' this)) (size (objects w'' this)) this
     = false).
  { intros wmd w' Hw'. apply tilePass_clear.
    - rewrite (fixed_collideTiles w w' this (proj1 Hw')); exact Hc.
    - rewrite (fixed_size w w' this (proj1 Hw')); exact Hold. }
  split; [exact G|].
  intros Hp He Hm. unfold update. rewrite Hp, He.
  assert (Ht : truthy (mass (objects (integrate this w) this)) = true).
  { apply truthy_true.
    rewrite (fixed_mass w _ this (proj1 (respects_integrate this w))).
    exact Hm. }
  rewrite Ht. simpl orb. cbv iota. rewrite copy_eq.
  apply G.
  eapply respects_trans; [|apply respects_objectPass].
  eapply respects_trans; [apply respects_integrate | apply respects_applyFriction].
Qed.

(** ** The response to a new overlap *)

Ltac world_simpl :=
  repeat (rewrite modify_same
          || (rewrite modify_other by (assumption || (apply not_eq_sym; assumption)))
          || (progress cbn [objects recordDivisors tickRandom])).

Lemma fixed_elasticity (w w' : World) (i : ObjId) :
  sameFixed w w' -> elasticity (objects w' i) = elasticity (objects w i).
Proof. intros H; specialize (H i); unfold fixedFields in H; congruence. Qed.

Lemma resolveY_keeps (this o : ObjId) (oldPos sizeBoth : Vector2)
    (wasMovingDown : bool) (w : World) :
  this <> o ->
  let w' := resolveY this o oldPos sizeBoth wasMovingDown w in
  pos (objects w' this)
  = vec (x (pos (objects w this))) (pushedY o oldPos sizeBoth w) /\
  x (velocity (objects w' this)) = x (velocity (objects w this)) /\
  x (velocity (objects w' o)) = x (velocity (objects w o)).
Proof.
  intros Hne. unfold resolveY, pushedY. world_simpl.
  destruct (_ || _).
  - destruct wasMovingDown; world_simpl; simpl; auto.
  - destruct (truthy (mass (objects w o)));
      [destruct (blendRecorded _ _ _ _ _ _) as [[v0 v1] ds]|]; world_simpl; simpl; auto.
Qed.

Lemma resolveX_keeps (this o : ObjId) (oldPos sizeBoth : Vector2) (w : World) :
  this <> o ->
  let w' := resolveX this o oldPos sizeBoth w in
  pos (objects w' this)
  = vec (pushedX o oldPos sizeBoth w) (y (pos (objects w this))) /\
  y (velocity (objects w' this)) = y (velocity (objects w this)) /\
  y (velocity (objects w' o)) = y (velocity (objects w o)).
Proof.
  intros Hne. unfold resolveX, pushedX. world_simpl.
  destruct (truthy (mass (objects w o)));
    [destruct (blendRecorded _ _ _ _ _ _) as [[v0 v1] ds]|]; world_simpl; simpl; auto.
Qed.

(** Where [resolveY] blends, the two vertical components are the pair
    [blend] computes from the state before. *)
Lemma resolveY_blend (this o : ObjId) (oldPos sizeBoth : Vector2)
    (wasMovingDown : bool) (w : World) :
  this <> o ->
  mass (objects w o) <> 0 ->
  isGround (groundObject (objects w o)) && wasMovingDown = false ->
  let w' := resolveY this o oldPos sizeBoth wasMovingDown w in
  let t := objects w this in
  let b := objects w o in
  (y (velocity (objects w' this)), y (velocity (objects w' o)))
  = blend (mass t) (y (velocity t)) (elasticity t)
          (mass b) (y (velocity b)) (elasticity b).
Proof.
  intros Hne Hm Hg. unfold resolveY, blend. world_simpl.
  rewrite Hg. apply truthy_true in Hm. rewrite Hm. cbn [orb negb].
  destruct (blendRecorded _ _ _ _ _ _) as [[v0 v1] ds]; world_simpl; simpl; auto.
Qed.

(** Where [resolveX] blends, the two horizontal components are the pair
    [blend] computes from the state before. *)
Lemma resolveX_blend (this o : ObjId) (oldPos sizeBoth : Vector2) (w : World) :
  this <> o ->
  mass (objects w o) <> 0 ->
  let w' := resolveX this o oldPos sizeBoth w in
  let t := objects w this in
  let b := objects w o in
  (x (velocity (objects w' this)), x (velocity (objects w' o)))
  = blend (mass t) (x (velocity t)) (elasticity t)
          (mass b) (x (velocity b)) (elasticity b).
Proof.
  intros Hne Hm. unfold resolveX, blend. world_simpl.
  apply truthy_true in Hm. rewrite Hm.
  destruct (blendRecorded _ _ _ _ _ _) as [[v0 v1] ds]; world_simpl; simpl; auto.
Qed.

Lemma resolveNew_eq (this o : ObjId) (oldPos : Vector2) (wasMovingDown : bool)
    (w : World) :
  resolveNew this o oldPos wasMovingDown w
  = let sizeBoth := Vec.add (size (objects w this)) (size (objects w o)) in
    let w1 := if resolvesY this o oldPos w
              then resolveY this o oldPos sizeBoth wasMovingDown w else w in
    if resolvesX this o oldPos w then resolveX this o oldPos sizeBoth w1 else w1.
Proof. reflexivity. Qed.

(** The pair of components of the two objects after the response to a
    new overlap, on each axis on which the response blends. *)
Lemma resolveNew_blend (this o : ObjId) (oldPos : Vector2) (wasMovingDown : bool)
    (w : World) :
  this <> o ->
  mass (objects w o) <> 0 ->
  let w' := resolveNew this o oldPos wasMovingDown w in
  let t := objects w this in
  let b := objects w o in
  (resolvesX this o oldPos w = true ->
   (x (velocity (objects w' this)), x (velocity (objects w' o)))
   = blend (mass t) (x (velocity t)) (elasticity t)
           (mass b) (x (velocity b)) (elasticity b)) /\
  (resolvesY this o oldPos w = true ->
   isGround (groundObject b) && wasMovingDown = false ->
   (y (velocity (objects w' this)), y (velocity (objects w' o)))
   = blend (mass t) (y (velocity t)) (elasticity t)
           (mass b) (y (velocity b)) (elasticity b)).
Proof.
  intros Hne Hm. cbv zeta. rewrite resolveNew_eq. cbv zeta.
  set (sb := Vec.add _ _).
  set (w1 := if resolvesY this o oldPos w then _ else w).
  assert (H1 : respects this w w1).
  { subst w1; destruct (resolvesY _ _ _ _);
      [apply respects_resolveY | apply respects_refl]. }
  assert (K1 : x (velocity (objects w1 this)) = x (velocity (objects w this))
               /\ x (velocity (objects w1 o)) = x (velocity (objects w o))).
  { subst w1; destruct (resolvesY _ _ _ _); [|auto].
    destruct (resolveY_keeps this o oldPos sb wasMovingDown w Hne) as (_ & A & B).
    auto. }
  destruct K1 as [K1t K1o].
  split.
  - intros HX. rewrite HX.
    rewrite (resolveX_blend this o oldPos sb w1 Hne).
    + rewrite K1t, K1o.
      rewrite !(fixed_mass w w1 _ (proj1 H1)),
              !(fixed_elasticity w w1 _ (proj1 H1)).
      reflexivity.
    + rewrite (fixed_mass w w1 _ (proj1 H1)). exact Hm.
  - intros HY Hg. subst w1. rewrite HY.
    destruct (resolvesX this o oldPos w).
    + destruct (resolveX_keeps this o oldPos sb
                  (resolveY this o oldPos sb wasMovingDown w) Hne) as (_ & A & B).
      rewrite A, B. apply resolveY_blend; assumption.
    + apply resolveY_blend; assumption.
Qed.

Lemma blend_inelastic (m0 v0 m1 v1 : R) :
  blend m0 v0 0 m1 v1 0
  = ((m0 * v0 + m1 * v1) / (m0 + m1), (m0 * v0 + m1 * v1) / (m0 + m1)).
Proof.
  unfold blend, blendRecorded, divide. cbn [fst].
  rewrite max_idem, !lerp_0. reflexivity.
Qed.

Lemma blend_elastic_equal_mass (m v0 e0 v1 e1 : R) :
  0 < m -> max e0 e1 = 1 -> blend m v0 e0 m v1 e1 = (v1, v0).
Proof.
  intros Hm He. unfold blend, blendRecorded, divide. cbn [fst].
  rewrite He, !lerp_1.
  f_equal; field; lra.
Qed.

(** The code's [max] is the larger of its two arguments. *)
Lemma max_Rmax (a b : R) : max a b = Rmax a b.
Proof.
  unfold max, Rgtb, Rmax. destruct (Rltb b a) eqn:E.
  - apply Rltb_true in E. destruct (Rle_dec a b); [lra | reflexivity].
  - apply Rltb_false in E. destruct (Rle_dec a b); [reflexivity | lra].
Qed.

(** C2.  Between two objects of positive mass whose elasticity is 0,
    the response to a new overlap gives both objects, on every axis on
    which it blends, the common velocity (m1*v1 + m2*v2)/(m1 + m2).  It
    blends on the horizontal axis whenever it resolves that axis, and
    on the vertical axis whenever it resolves that axis and the object
    does not land on a grounded one. *)
Theorem inelastic_pair_takes_common_velocity (this o : ObjId)
    (oldPos : Vector2) (wasMovingDown : bool) (w : World) :
  this <> o ->
  0 < mass (objects w this) -> 0 < mass (objects w o) ->
  elasticity (objects w this) = 0 -> elasticity (objects w o) = 0 ->
  let w' := resolveNew this o oldPos wasMovingDown w in
  let t := objects w this in
  let b := objects w o in
  let common v0 v1 := (mass t * v0 + mass b * v1) / (mass t + mass b) in
  (resolvesX this o oldPos w = true ->
   x (velocity (objects w' this)) = common (x (velocity t)) (x (velocity b)) /\
   x (velocity (objects w' o)) = common (x (velocity t)) (x (velocity b))) /\
  (resolvesY this o oldPos w = true ->
   isGround (groundObject b) && wasMovingDown = false ->
   y (velocity (objects w' this)) = common (y (velocity t)) (y (velocity b)) /\
   y (velocity (objects w' o)) = common (y (velocity t)) (y (velocity b))).
Proof.
  intros Hne Hmt Hmb Het Heb. cbv zeta.
  assert (Hm : mass (objects w o) <> 0) by lra.
  destruct (resolveNew_blend this o oldPos wasMovingDown w Hne Hm) as [HX HY].
  split.
  - intros Hx. specialize (HX Hx).
    rewrite Het, Heb, blend_inelastic in HX. inversion HX; auto.
  - intros Hy Hg. specialize (HY Hy Hg).
    rewrite Het, Heb, blend_inelastic in HY. inversion HY; auto.
Qed.

(** C3.  Between two objects of the same positive mass, when the larger
    of the two elasticities is 1, whichever of the two objects has it,
    the response to a new overlap exchanges the components of the two
    velocities on every axis on which it blends. *)
Theorem elastic_equal_mass_pair_swaps_velocity (this o : ObjId)
    (oldPos : Vector2) (wasMovingDown : bool) (w : World) :
  this <> o ->
  0 < mass (objects w this) ->
  mass (objects w o) = mass (objects w this) ->
  Rmax (elasticity (objects w this)) (elasticity (objects w o)) = 1 ->
  let w' := resolveNew this o oldPos wasMovingDown w in
  let t := objects w this in
  let b := objects w o in
  (resolvesX this o oldPos w = true ->
   x (velocity (objects w' this)) = x (velocity b) /\
   x (velocity (objects w' o)) = x (velocity t)) /\
  (resolvesY this o oldPos w = true ->
   isGround (groundObject b) && wasMovingDown = false ->
   y (velocity (objects w' this)) = y (velocity b) /\
   y (velocity (objects w' o)) = y (velocity t)).
Proof.
  intros Hne Hmt Hmb He. cbv zeta.
  rewrite <- max_Rmax in He.
  assert (Hm : mass (objects w o) <> 0) by lra.
  destruct (resolveNew_blend this o oldPos wasMovingDown w Hne Hm) as [HX HY].
  split.
  - intros Hx. specialize (HX Hx).
    rewrite Hmb, blend_elastic_equal_mass in HX by assumption.
    inversion HX; auto.
  - intros Hy Hg. specialize (HY Hy Hg).
    rewrite Hmb, blend_elastic_equal_mass in HY by assumption.
    inversion HY; auto.
Qed.

(** ** The choice of the axis *)

Lemma smallStepUp_spec (oldPos opos sizeA sizeB : Vector2) :
  smallStepUp oldPos opos (Vec.add sizeA sizeB) = true
  <-> specSmallStepUp oldPos opos sizeA sizeB.
Proof.
  unfold smallStepUp, specSmallStepUp, Rgtb. rewrite Rltb_true. simpl. lra.
Qed.

Lemma isBlockedY_spec (oldPos opos sizeA sizeB : Vector2) :
  isBlockedY oldPos opos (Vec.add sizeA sizeB) = true
  <-> specOverlappedX oldPos opos sizeA sizeB.
Proof.
  unfold isBlockedY, specOverlappedX. rewrite Rltb_true, abs_Rabs. simpl. lra.
Qed.

Lemma isBlockedX_spec (oldPos opos sizeA sizeB : Vector2) :
  isBlockedX oldPos opos (Vec.add sizeA sizeB) = true
  <-> specOverlappedY oldPos opos sizeA sizeB.
Proof.
  unfold isBlockedX, specOverlappedY. rewrite Rltb_true, abs_Rabs. simpl. lra.
Qed.

Lemma orb3_true (a b c : bool) :
  a || b || negb c = true <-> a = true \/ b = true \/ c <> true.
Proof using.
  destruct a, b, c; simpl; split; intros H; try reflexivity; try discriminate.
  all: try (left; reflexivity).
  all: try (right; left; reflexivity).
  all: try (right; right; discriminate).
  all: destruct H as [H|[H|H]]; try discriminate; exfalso; apply H; reflexivity.
Qed.

Lemma andb_orb_true (a b c : bool) :
  negb a && (b || negb c) = true <-> a <> true /\ (b = true \/ c <> true).
Proof using.
  destruct a, b, c; simpl; split; intros H; try reflexivity; try discriminate.
  all: try (split; [discriminate|]).
  all: try (left; reflexivity).
  all: try (right; discriminate).
  all: destruct H as [Ha [H|H]]; try discriminate;
    exfalso; first [apply Ha; reflexivity | apply H; reflexivity].
Qed.

Lemma resolvesY_spec (this o : ObjId) (oldPos : Vector2) (w : World) :
  resolvesY this o oldPos w = true
  <-> specResolvesY oldPos (pos (objects w o))
        (size (objects w this)) (size (objects w o)).
Proof using gravity.
  unfold resolvesY, specResolvesY.
  rewrite <- smallStepUp_spec, <- isBlockedY_spec, <- isBlockedX_spec.
  cbv zeta. apply orb3_true.
Qed.

Lemma resolvesX_spec (this o : ObjId) (oldPos : Vector2) (w : World) :
  resolvesX this o oldPos w = true
  <-> specResolvesX oldPos (pos (objects w o))
        (size (objects w this)) (size (objects w o)).
Proof using gravity.
  unfold resolvesX, specResolvesX.
  rewrite <- smallStepUp_spec, <- isBlockedY_spec, <- isBlockedX_spec.
  cbv zeta. apply andb_orb_true.
Qed.

(** Where the response to a new overlap leaves [this]. *)
Lemma resolveNew_pos (this o : ObjId) (oldPos : Vector2) (wasMovingDown : bool)
    (w : World) :
  this <> o ->
  let sizeBoth := Vec.add (size (objects w this)) (size (objects w o)) in
  pos (objects (resolveNew this o oldPos wasMovingDown w) this)
  = vec (if resolvesX this o oldPos w then pushedX o oldPos sizeBoth w
         else x (pos (objects w this)))
        (if resolvesY this o oldPos w then pushedY o oldPos sizeBoth w
         else y (pos (objects w this))).
Proof.
  intros Hne. cbv zeta. rewrite resolveNew_eq. cbv zeta.
  set (sb := Vec.add _ _).
  destruct (resolveY_keeps this o oldPos sb wasMovingDown w Hne) as (PY & _ & _).
  pose proof (respects_resolveY this o oldPos sb wasMovingDown w) as RY.
  destruct (resolvesY this o oldPos w), (resolvesX this o oldPos w).
  - destruct (resolveX_keeps this o oldPos sb
                (resolveY this o oldPos sb wasMovingDown w) Hne) as (PX & _ & _).
    cbv zeta in PX, PY. rewrite PX, PY. simpl. unfold pushedX.
    rewrite (proj1 (proj2 RY o (not_eq_sym Hne))). reflexivity.
  - exact PY.
  - destruct (resolveX_keeps this o oldPos sb w Hne) as (PX & _ & _). exact PX.
  - destruct (pos (objects w this)); reflexivity.
Qed.

(** C5.  On a new overlap the vertical axis is resolved exactly when
    twice the height of the previous position above the other object
    exceeds the combined height plus gravity, or the objects overlapped
    horizontally at the previous position, or they did not overlap
    vertically there; the horizontal axis is resolved exactly when
    there is no such step-up and the objects overlapped vertically at
    the previous position or did not overlap horizontally there.  The
    response is the vertical resolution, if chosen, followed by the
    horizontal one, if chosen; a resolved axis puts the object at the
    boundary of the other one and an axis not resolved keeps its
    coordinate.  When the two overlap conditions agree, the vertical
    axis is resolved. *)
Theorem axis_choice_priority (this o : ObjId) (oldPos : Vector2)
    (wasMovingDown : bool) (w : World) :
  let t := objects w this in
  let b := objects w o in
  let sizeBoth := Vec.add (size t) (size b) in
  let w' := resolveNew this o oldPos wasMovingDown w in
  (resolvesY this o oldPos w = true
   <-> specResolvesY oldPos (pos b) (size t) (size b)) /\
  (resolvesX this o oldPos w = true
   <-> specResolvesX oldPos (pos b) (size t) (size b)) /\
  w' = (let w1 := if resolvesY this o oldPos w
                  then resolveY this o oldPos sizeBoth wasMovingDown w else w in
        if resolvesX this o oldPos w
        then resolveX this o oldPos sizeBoth w1 else w1) /\
  (this <> o ->
   (specResolvesY oldPos (pos b) (size t) (size b) ->
    y (pos (objects w' this)) = pushedY o oldPos sizeBoth w) /\
   (~ specResolvesY oldPos (pos b) (size t) (size b) ->
    y (pos (objects w' this)) = y (pos t)) /\
   (specResolvesX oldPos (pos b) (size t) (size b) ->
    x (pos (objects w' this)) = pushedX o oldPos sizeBoth w) /\
   (~ specResolvesX oldPos (pos b) (size t) (size b) ->
    x (pos (objects w' this)) = x (pos t))) /\
  ((specOverlappedX oldPos (pos b) (size t) (size b)
    <-> specOverlappedY oldPos (pos b) (size t) (size b)) ->
   specResolvesY oldPos (pos b) (size t) (size b)).
Proof using gravity.
  cbv zeta.
  split; [apply resolvesY_spec|].
  split; [apply resolvesX_spec|].
  split; [apply resolveNew_eq|].
  split.
  - intros Hne.
    pose proof (resolveNew_pos this o oldPos wasMovingDown w Hne) as P.
    cbv zeta in P. rewrite P. simpl.
    rewrite <- resolvesY_spec, <- resolvesX_spec.
    destruct (resolvesY this o oldPos w), (resolvesX this o oldPos w);
      repeat split; intros; try reflexivity; try discriminate;
      match goal with H : ~ _ |- _ => exfalso; apply H; reflexivity end.
  - intros Hiff. unfold specResolvesY.
    destruct (Rlt_dec
                (2 * Rabs (y oldPos - y (pos (objects w o))))
                (y (size (objects w this)) + y (size (objects w o))))
      as [Hy|Hy].
    + right; left. apply Hiff. exact Hy.
    + right; right. exact Hy.
Qed.
(** ** The denominators of the mass-ratio formulas *)

















(** * More properties of the update *)

(** ** Momentum and energy *)

(** What [blend] does to a pair of velocities: the momentum is kept,
    and the relative velocity is reversed and scaled by the larger of
    the two elasticities, clamped to [0, 1]. *)
Lemma blend_laws (m0 v0 e0 m1 v1 e1 : R) :
  m0 + m1 <> 0 ->
  m0 * fst (blend m0 v0 e0 m1 v1 e1) + m1 * snd (blend m0 v0 e0 m1 v1 e1)
  = m0 * v0 + m1 * v1 /\
  fst (blend m0 v0 e0 m1 v1 e1) - snd (blend m0 v0 e0 m1 v1 e1)
  = - clamp (max e0 e1) 0 1 * (v0 - v1).
Proof.
  intros HM. unfold blend, blendRecorded, divide, lerp. cbv zeta. cbn [fst snd].
  generalize (clamp (max e0 e1) 0 1) as c. intros c. split; field; exact HM.
Qed.

Lemma clamp_unit (p : R) : 0 <= clamp p 0 1 <= 1.
Proof.
  unfold clamp, Rgtb. destruct (Rltb p 0) eqn:E; [lra|].
  apply Rltb_false in E. destruct (Rltb 1 p) eqn:E'; [lra|].
  apply Rltb_false in E'. lra.
Qed.

(** Two velocities with the momentum of [v0], [v1] and a relative
    velocity that is no larger carry no more energy. *)
Lemma energy_bound (m0 m1 v0 v1 u0 u1 c : R) :
  0 < m0 -> 0 < m1 -> 0 <= c <= 1 ->
  m0 * u0 + m1 * u1 = m0 * v0 + m1 * v1 ->
  u0 - u1 = - c * (v0 - v1) ->
  m0 * (u0 * u0) + m1 * (u1 * u1) <= m0 * (v0 * v0) + m1 * (v1 * v1).
Proof.
  intros H0 H1 Hc HP HR.
  assert (A : (m0 + m1) * (m0 * (u0 * u0) + m1 * (u1 * u1))
              = (m0 * u0 + m1 * u1) * (m0 * u0 + m1 * u1)
                + m0 * m1 * ((u0 - u1) * (u0 - u1))) by ring.
  assert (B : (m0 + m1) * (m0 * (v0 * v0) + m1 * (v1 * v1))
              = (m0 * v0 + m1 * v1) * (m0 * v0 + m1 * v1)
                + m0 * m1 * ((v0 - v1) * (v0 - v1))) by ring.
  rewrite HP, HR in A.
  assert (C : 0 <= m0 * m1 * ((1 - c * c) * ((v0 - v1) * (v0 - v1)))).
  { apply Rmult_le_pos; [apply Rmult_le_pos; lra|].
    apply Rmult_le_pos; [|apply (Rle_0_sqr (v0 - v1))].
    destruct Hc as [C0 C1].
    pose proof (Rmult_le_compat c 1 c 1 C0 C0 C1 C1). lra. }
  assert (D : (m0 + m1) * (m0 * (u0 * u0) + m1 * (u1 * u1))
              <= (m0 + m1) * (m0 * (v0 * v0) + m1 * (v1 * v1))) by nra.
  apply Rmult_le_reg_l with (r := m0 + m1); [lra | exact D].
Qed.

(** The larger of the two elasticities, clamped to [0, 1], as the code
    computes it and as a formula. *)
Lemma clamp_max_spec (a b : R) :
  clamp (max a b) 0 1 = Rmax 0 (Rmin 1 (Rmax a b)).
Proof.
  rewrite max_Rmax. generalize (Rmax a b) as v. intros v.
  unfold clamp, Rgtb, Rmax, Rmin.
  destruct (Rltb v 0) eqn:E0.
  - apply Rltb_true in E0. destruct (Rle_dec 1 v); [lra|].
    destruct (Rle_dec 0 v); [lra | reflexivity].
  - apply Rltb_false in E0. destruct (Rltb 1 v) eqn:E1.
    + apply Rltb_true in E1. destruct (Rle_dec 1 v); [|lra].
      destruct (Rle_dec 0 1); [reflexivity | lra].
    + apply Rltb_false in E1. destruct (Rle_dec 1 v).
      * destruct (Rle_dec 0 1); lra.
      * destruct (Rle_dec 0 v); [reflexivity | lra].
Qed.

(** X1.  Where the response to a new overlap blends the velocities of
    two objects that can move, on the horizontal axis whenever it is
    resolved and on the vertical one unless the object lands on a
    grounded one, the momentum of the pair on that axis is kept, and
    their relative velocity is reversed and scaled by the larger of
    the two elasticities, whichever object has it, brought into
    [0, 1].  Between positive masses the kinetic energy of the pair on
    that axis does not grow. *)
Theorem collision_keeps_the_momentum (this o : ObjId) (oldPos : Vector2)
    (wasMovingDown : bool) (w : World) :
  this <> o ->
  mass (objects w o) <> 0 ->
  mass (objects w this) + mass (objects w o) <> 0 ->
  let w' := resolveNew this o oldPos wasMovingDown w in
  let m0 := mass (objects w this) in
  let m1 := mass (objects w o) in
  let c := Rmax 0 (Rmin 1 (Rmax (elasticity (objects w this))
                                (elasticity (objects w o)))) in
  (resolvesX this o oldPos w = true ->
   m0 * x (velocity (objects w' this)) + m1 * x (velocity (objects w' o))
   = m0 * x (velocity (objects w this)) + m1 * x (velocity (objects w o)) /\
   x (velocity (objects w' this)) - x (velocity (objects w' o))
   = - c * (x (velocity (objects w this)) - x (velocity (objects w o))) /\
   (0 < m0 -> 0 < m1 ->
    m0 * (x (velocity (objects w' this)) * x (velocity (objects w' this)))
    + m1 * (x (velocity (objects w' o)) * x (velocity (objects w' o)))
    <= m0 * (x (velocity (objects w this)) * x (velocity (objects w this)))
       + m1 * (x (velocity (objects w o)) * x (velocity (objects w o))))) /\
  (resolvesY this o oldPos w = true ->
   isGround (groundObject (objects w o)) && wasMovingDown = false ->
   m0 * y (velocity (objects w' this)) + m1 * y (velocity (objects w' o))
   = m0 * y (velocity (objects w this)) + m1 * y (velocity (objects w o)) /\
   y (velocity (objects w' this)) - y (velocity (objects w' o))
   = - c * (y (velocity (objects w this)) - y (velocity (objects w o))) /\
   (0 < m0 -> 0 < m1 ->
    m0 * (y (velocity (objects w' this)) * y (velocity (objects w' this)))
    + m1 * (y (velocity (objects w' o)) * y (velocity (objects w' o)))
    <= m0 * (y (velocity (objects w this)) * y (velocity (objects w this)))
       + m1 * (y (velocity (objects w o)) * y (velocity (objects w o))))).
Proof.
  intros Hne Hm HM w' m0 m1 c.
  destruct (resolveNew_blend this o oldPos wasMovingDown w Hne Hm) as [BX BY].
  cbv zeta in BX, BY. fold w' in BX, BY.
  assert (Ec : clamp (max (elasticity (objects w this)) (elasticity (objects w o))) 0 1
               = c) by apply clamp_max_spec.
  assert (Hc : 0 <= c <= 1) by (rewrite <- Ec; apply clamp_unit).
  split.
  - intros HX. specialize (BX HX).
    destruct (blend_laws m0 (x (velocity (objects w this))) (elasticity (objects w this))
                m1 (x (velocity (objects w o))) (elasticity (objects w o)) HM)
      as [L1 L2].
    unfold m0, m1 in L1, L2. rewrite <- BX in L1, L2. rewrite Ec in L2. cbn [fst snd] in L1, L2.
    split; [exact L1|]. split; [exact L2|].
    intros P0 P1. apply (energy_bound m0 m1 _ _ _ _ c P0 P1 Hc L1 L2).
  - intros HY Hg. specialize (BY HY Hg).
    destruct (blend_laws m0 (y (velocity (objects w this))) (elasticity (objects w this))
                m1 (y (velocity (objects w o))) (elasticity (objects w o)) HM)
      as [L1 L2].
    unfold m0, m1 in L1, L2. rewrite <- BY in L1, L2. rewrite Ec in L2. cbn [fst snd] in L1, L2.
    split; [exact L1|]. split; [exact L2|].
    intros P0 P1. apply (energy_bound m0 m1 _ _ _ _ c P0 P1 Hc L1 L2).
Qed.

(** ** Separation *)

Lemma abs_pushed (s d : R) :
  0 <= s -> abs ((s / 2 + epsilon) * sign d) * 2 = s + 2 * epsilon.
Proof.
  intros Hs. unfold epsilon, sign, abs.
  destruct (Rltb d 0).
  - replace (Rltb ((s / 2 + 1 / 1000) * -1) 0) with true
      by (symmetry; apply Rltb_true; lra).
    lra.
  - replace (Rltb ((s / 2 + 1 / 1000) * 1) 0) with false
      by (symmetry; apply Rltb_false; lra).
    lra.
Qed.

(** The response to a new overlap resolves at least one axis. *)
Lemma resolves_an_axis (this o : ObjId) (oldPos : Vector2) (w : World) :
  resolvesX this o oldPos w = true \/ resolvesY this o oldPos w = true.
Proof using gravity.
  unfold resolvesX, resolvesY. cbv zeta.
  destruct (smallStepUp _ _ _), (isBlockedX _ _ _), (isBlockedY _ _ _);
    cbn [negb orb andb];
    first [left; reflexivity | right; reflexivity].
Qed.

(** X2.  The response to a new overlap with another object, between
    sizes that are not negative, resolves the horizontal axis or the
    vertical one, or both, and leaves the two objects apart:
    afterwards they do not overlap.  The other object is not moved. *)
Theorem new_overlap_is_separated (this o : ObjId) (oldPos : Vector2)
    (wasMovingDown : bool) (w : World) :
  this <> o ->
  0 <= x (size (objects w this)) + x (size (objects w o)) ->
  0 <= y (size (objects w this)) + y (size (objects w o)) ->
  let w' := resolveNew this o oldPos wasMovingDown w in
  (resolvesX this o oldPos w = true \/ resolvesY this o oldPos w = true) /\
  isOverlapping (pos (objects w' this)) (size (objects w' this))
                (pos (objects w' o)) (size (objects w' o)) = false /\
  pos (objects w' o) = pos (objects w o).
Proof.
  intros Hne Hsx Hsy w'.
  pose proof (respects_resolveNew this o oldPos wasMovingDown w) as [HF HO].
  fold w' in HF, HO.
  destruct (HO o (not_eq_sym Hne)) as [Po _].
  pose proof (resolveNew_pos this o oldPos wasMovingDown w Hne) as Pt.
  cbv zeta in Pt. fold w' in Pt.
  split; [apply resolves_an_axis|]. split; [|exact Po].
  unfold isOverlapping.
  rewrite !(fixed_size w w' _ HF), Po, Pt. cbn [x y].
  destruct (resolves_an_axis this o oldPos w) as [HX|HY].
  - rewrite HX. apply andb_false_iff. left. apply Rltb_false.
    unfold pushedX. cbn [Vec.add x y].
    replace (x (pos (objects w o))
             + ((x (size (objects w this)) + x (size (objects w o))) / 2 + epsilon)
               * sign (x oldPos - x (pos (objects w o)))
             - x (pos (objects w o)))
      with (((x (size (objects w this)) + x (size (objects w o))) / 2 + epsilon)
            * sign (x oldPos - x (pos (objects w o)))) by ring.
    rewrite abs_pushed by exact Hsx. unfold epsilon. lra.
  - rewrite HY. apply andb_false_iff. right. apply Rltb_false.
    unfold pushedY. cbn [Vec.add x y].
    replace (y (pos (objects w o))
             + ((y (size (objects w this)) + y (size (objects w o))) / 2 + epsilon)
               * sign (y oldPos - y (pos (objects w o)))
             - y (pos (objects w o)))
      with (((y (size (objects w this)) + y (size (objects w o))) / 2 + epsilon)
            * sign (y oldPos - y (pos (objects w o)))) by ring.
    rewrite abs_pushed by exact Hsy. unfold epsilon. lra.
Qed.

(** ** The push between objects that already overlapped *)

Lemma length_setAngle (a len : R) : Vec.length (Vec.setAngle a len) = Rabs len.
Proof.
  unfold Vec.length, Vec.lengthSquared, Vec.setAngle. cbn [x y].
  replace (len * sin a * (len * sin a) + len * cos a * (len * cos a))
    with (len * len * (sin a * sin a + cos a * cos a)) by ring.
  pose proof (sin2_cos2 a) as H. unfold Rsqr in H. rewrite H, Rmult_1_r.
  apply sqrt_Rsqr_abs.
Qed.


(** ** Children and the integration step *)

Lemma length_rotate (v : Vector2) (a : R) :
  Vec.length (Vec.rotate v a) = Vec.length v.
Proof.
  pose proof (sin2_cos2 a) as H. unfold Rsqr in H.
  unfold Vec.length, Vec.lengthSquared, Vec.rotate. cbn [x y]. f_equal.
  replace ((x v * cos a - y v * sin a) * (x v * cos a - y v * sin a)
           + (x v * sin a + y v * cos a) * (x v * sin a + y v * cos a))
    with ((x v * x v + y v * y v) * (sin a * sin a + cos a * cos a)) by ring.
  rewrite H. ring.
Qed.

(** X4.  The update of an object that has a parent places it at the
    parent's position plus its local offset, mirrored with the parent
    and turned by the parent's angle, so that it stays at the distance
    of its local offset from the parent; its angle is the parent's
    plus its local angle, mirrored.  Its own velocity is neither used
    nor changed, and nothing else in the world changes: no other
    object, no random number, no collision. *)
Theorem child_follows_its_parent (this p : ObjId) (w : World) :
  parent (objects w this) = Some p ->
  let w' := update this w in
  let t := objects w this in
  let par := objects w p in
  pos (objects w' this)
  = Vec.add (Vec.rotate (Vec.multiply (localPos t) (vec (getMirrorSign par) 1))
                        (- angle par))
            (pos par) /\
  distance (pos (objects w' this)) (pos par) = Vec.length (localPos t) /\
  angle (objects w' this) = getMirrorSign par * localAngle t + angle par /\
  velocity (objects w' this) = velocity t /\
  angleVelocity (objects w' this) = angleVelocity t /\
  (forall i : ObjId, i <> this -> objects w' i = objects w i) /\
  randomCalls w' = randomCalls w /\
  divisors w' = divisors w /\
  engineObjectsCollide w' = engineObjectsCollide w.
Proof.
  intros Hp w' t par.
  assert (Ew : w' = followParent this p w).
  { unfold w', update. rewrite Hp. reflexivity. }
  assert (Epos : pos (objects w' this)
                 = Vec.add (Vec.rotate (Vec.multiply (localPos t)
                                          (vec (getMirrorSign par) 1))
                                       (- angle par))
                           (pos par)).
  { rewrite Ew. unfold followParent. rewrite !modify_same. reflexivity. }
  split; [exact Epos|]. split.
  { rewrite Epos.
    set (r := Vec.rotate _ _).
    transitivity (Vec.length r).
    - unfold distance, distanceSquared, Vec.length, Vec.lengthSquared, Vec.add.
      cbn [x y]. f_equal. ring.
    - unfold r. rewrite length_rotate.
      unfold Vec.length, Vec.lengthSquared, Vec.multiply, getMirrorSign.
      cbn [x y]. f_equal. destruct (mirror par); ring. }
  rewrite Ew. unfold followParent.
  split.
  { rewrite !modify_same. cbn [angle set_angle].
    destruct (Nat.eq_dec p this) as [->|Hne].
    - rewrite !modify_same. reflexivity.
    - rewrite !modify_other by exact Hne. reflexivity. }
  split; [rewrite !modify_same; reflexivity|].
  split; [rewrite !modify_same; reflexivity|].
  split.
  { intros i Hi. rewrite !modify_other by exact Hi. reflexivity. }
  repeat split; reflexivity.
Qed.

Lemma clamp_symmetric_bound (v m : R) : 0 <= m -> Rabs (clamp v (- m) m) <= m.
Proof.
  intros Hm. unfold clamp, Rgtb.
  destruct (Rltb v (- m)) eqn:E1.
  - rewrite Rabs_Ropp. rewrite Rabs_right; lra.
  - apply Rltb_false in E1. destruct (Rltb m v) eqn:E2.
    + rewrite Rabs_right; lra.
    + apply Rltb_false in E2. unfold Rabs. destruct (Rcase_abs v); lra.
Qed.

(** X5.  With the physics solver switched off, the update of an
    object without a parent is the integration step alone, whatever
    its mass: the object moves by its new velocity and turns by its new
    angular velocity, and nothing else in the world changes.  For a
    speed limit that is not negative, each component of the velocity is
    first limited to it and then damped, and gravity is added to the
    vertical one after the limit. *)
Theorem update_without_solver_only_integrates (this : ObjId) (w : World) :
  enablePhysicsSolver = false ->
  parent (objects w this) = None ->
  0 <= objectMaxSpeed ->
  let w' := update this w in
  let t := objects w this in
  let t' := objects w' this in
  pos t' = Vec.add (pos t) (velocity t') /\
  Rabs (x (velocity t')) <= Rabs (damping t) * objectMaxSpeed /\
  Rabs (y (velocity t') - gravity * gravityScale t)
  <= Rabs (damping t) * objectMaxSpeed /\
  (Rabs (x (velocity t)) <= objectMaxSpeed ->
   x (velocity t') = damping t * x (velocity t)) /\
  angleVelocity t' = angleVelocity t * angleDamping t /\
  angle t' = angle t + angleVelocity t' /\
  groundObject t' = groundObject t /\
  (forall i : ObjId, i <> this -> objects w' i = objects w i) /\
  randomCalls w' = randomCalls w /\
  divisors w' = divisors w.
Proof.
  intros Hs Hp Hm w' t t'.
  assert (Ew : w' = integrate this w).
  { unfold w', update. rewrite Hp, Hs. reflexivity. }
  assert (Et : t' = integrateObject t).
  { unfold t'. rewrite Ew. unfold integrate. apply modify_same. }
  rewrite Et. unfold integrateObject. cbv zeta.
  cbn [pos velocity angle angleVelocity groundObject set_angle set_angleVelocity
       set_pos set_velocity x y Vec.add].
  pose proof (clamp_symmetric_bound (x (velocity t)) objectMaxSpeed Hm) as Bx.
  pose proof (clamp_symmetric_bound (y (velocity t)) objectMaxSpeed Hm) as By.
  split; [reflexivity|].
  split.
  { rewrite Rabs_mult. apply Rmult_le_compat_l; [apply Rabs_pos | exact Bx]. }
  split.
  { replace (damping t * clamp (y (velocity t)) (- objectMaxSpeed) objectMaxSpeed
             + gravity * gravityScale t - gravity * gravityScale t)
      with (damping t * clamp (y (velocity t)) (- objectMaxSpeed) objectMaxSpeed)
      by ring.
    rewrite Rabs_mult. apply Rmult_le_compat_l; [apply Rabs_pos | exact By]. }
  split.
  { intros Hv. f_equal. unfold clamp, Rgtb.
    assert (Hb : - objectMaxSpeed <= x (velocity t) <= objectMaxSpeed).
    { unfold Rabs in Hv. destruct (Rcase_abs (x (velocity t))); lra. }
    replace (Rltb (x (velocity t)) (- objectMaxSpeed)) with false
      by (symmetry; apply Rltb_false; lra).
    replace (Rltb objectMaxSpeed (x (velocity t))) with false
      by (symmetry; apply Rltb_false; lra).
    reflexivity. }
  split; [reflexivity|]. split; [reflexivity|]. split; [reflexivity|].
  split.
  { intros i Hi. rewrite Ew. unfold integrate. rewrite modify_other by exact Hi.
    reflexivity. }
  rewrite Ew. split; reflexivity.
Qed.

End Physics.

(** ** Instances of Vector2 *)

Lemma deref_alloc (v : Vector2) (h : VectorHeap.Heap) (r : VectorHeap.Ref) :
  VectorHeap.valid h r ->
  VectorHeap.deref (fst (VectorHeap.alloc v h)) r = VectorHeap.deref h r.
Proof. intros Hr. unfold VectorHeap.deref; simpl. apply app_nth1; exact Hr. Qed.

Lemma alloc_fresh (v : Vector2) (h : VectorHeap.Heap) :
  VectorHeap.fresh h (VectorHeap.alloc v h).
Proof.
  unfold VectorHeap.fresh, VectorHeap.valid; simpl. rewrite length_app; simpl.
  split; lia.
Qed.

Lemma alloc_unchanged (v : Vector2) (h : VectorHeap.Heap) :
  VectorHeap.unchanged h (fst (VectorHeap.alloc v h)).
Proof. intros r Hr; apply deref_alloc; exact Hr. Qed.

Lemma alloc_valid (v : Vector2) (h : VectorHeap.Heap) (r : VectorHeap.Ref) :
  VectorHeap.valid h r -> VectorHeap.valid (fst (VectorHeap.alloc v h)) r.
Proof. unfold VectorHeap.valid; simpl; rewrite length_app; simpl; lia. Qed.

Lemma deref_write_same (v : Vector2) (h : VectorHeap.Heap) (r : VectorHeap.Ref) :
  VectorHeap.valid h r -> VectorHeap.deref (VectorHeap.write r v h) r = v.
Proof.
  unfold VectorHeap.valid, VectorHeap.deref. revert r.
  induction h as [|u h IH]; intros [|r] Hr; simpl in *; try lia; auto.
  apply IH; lia.
Qed.

Lemma deref_write_other (v : Vector2) (h : VectorHeap.Heap) (r r' : VectorHeap.Ref) :
  r' <> r -> VectorHeap.deref (VectorHeap.write r v h) r' = VectorHeap.deref h r'.
Proof.
  unfold VectorHeap.deref. revert r r'.
  induction h as [|u h IH]; intros [|r] [|r'] Hne; simpl; auto; try lia.
Qed.

(** A fresh result is neither the receiver nor an argument. *)
Lemma fresh_is_new (m : VectorHeap.Method) (this : VectorHeap.Ref)
    (h : VectorHeap.Heap) :
  VectorHeap.valid h this ->
  Forall (VectorHeap.valid h) (VectorHeap.arguments m) ->
  VectorHeap.fresh h (VectorHeap.call m this h) ->
  VectorHeap.returnsNew m this h.
Proof.
  intros Ht Ha [Hf _]. split.
  - intros E; apply Hf; rewrite E; exact Ht.
  - intros Hin. rewrite Forall_forall in Ha. apply Hf, Ha, Hin.
Qed.

(** A call that changes no instance mutates neither receiver nor
    arguments. *)
Lemma unchanged_mutates_nothing (m : VectorHeap.Method) (this : VectorHeap.Ref)
    (h : VectorHeap.Heap) :
  VectorHeap.valid h this ->
  Forall (VectorHeap.valid h) (VectorHeap.arguments m) ->
  VectorHeap.unchanged h (fst (VectorHeap.call m this h)) ->
  VectorHeap.mutatesNothing m this h.
Proof.
  intros Ht Ha Hu. split; [apply Hu, Ht|].
  rewrite Forall_forall in *. intros a Hin. apply Hu, Ha, Hin.
Qed.

Lemma lerp_fresh_unchanged (this v : VectorHeap.Ref) (p : R) (h : VectorHeap.Heap) :
  VectorHeap.fresh h (VectorHeap.lerp this v p h) /\
  VectorHeap.unchanged h (fst (VectorHeap.lerp this v p h)).
Proof.
  unfold VectorHeap.lerp, VectorHeap.subtract, VectorHeap.scale, VectorHeap.add,
    VectorHeap.alloc, VectorHeap.fresh, VectorHeap.unchanged, VectorHeap.valid,
    VectorHeap.deref.
  simpl. rewrite !length_app; simpl. split; [split; lia|].
  intros r Hr. rewrite !app_nth1; [reflexivity | | |]; rewrite ?length_app; simpl; lia.
Qed.

(** C9, as the code has it.  Every method of the class that returns a
    vector, [setAngle] and [clampLength] apart, returns an instance that
    did not exist before the call, so one distinct from its receiver and
    its arguments, and changes no instance that existed.  [clampLength]
    changes no instance either, and what it returns when it clamps is
    such a new instance.  [setAngle] stores the vector of the given angle
    and length in its receiver, returns that receiver, and changes no
    other instance. *)
Theorem vector_methods_allocate_except_setAngle (m : VectorHeap.Method)
    (this : VectorHeap.Ref) (h : VectorHeap.Heap) :
  VectorHeap.valid h this ->
  Forall (VectorHeap.valid h) (VectorHeap.arguments m) ->
  let res := VectorHeap.call m this h in
  match m with
  | VectorHeap.MSetAngle a len =>
      snd res = this /\
      VectorHeap.deref (fst res) this = Vec.setAngle a len /\
      (forall r, r <> this -> VectorHeap.deref (fst res) r = VectorHeap.deref h r)
  | VectorHeap.MClampLength len =>
      VectorHeap.unchanged h (fst res) /\
      VectorHeap.mutatesNothing m this h /\
      (Vec.length (VectorHeap.deref h this) > len ->
       VectorHeap.fresh h res /\ VectorHeap.returnsNew m this h)
  | _ =>
      VectorHeap.fresh h res /\ VectorHeap.unchanged h (fst res) /\
      VectorHeap.valueSemantics m this h
  end.
Proof.
  intros Ht Ha res.
  assert (G : VectorHeap.fresh h res -> VectorHeap.unchanged h (fst res) ->
              VectorHeap.fresh h res /\ VectorHeap.unchanged h (fst res) /\
              VectorHeap.valueSemantics m this h).
  { intros Hf Hu. split; [exact Hf|]. split; [exact Hu|]. split.
    - apply fresh_is_new; assumption.
    - apply unchanged_mutates_nothing; assumption. }
  destruct m; subst res;
    try (apply G; [apply alloc_fresh | apply alloc_unchanged]).
  - (* normalize *)
    apply G; simpl; unfold VectorHeap.normalize;
      destruct (truthy _); first [apply alloc_fresh | apply alloc_unchanged].
  - (* clampLength *)
    assert (Hu : VectorHeap.unchanged h
                   (fst (VectorHeap.call (VectorHeap.MClampLength len) this h))).
    { simpl. unfold VectorHeap.clampLength. destruct (Rgtb _ _).
      - apply alloc_unchanged.
      - intros r _; reflexivity. }
    split; [exact Hu|]. split; [apply unchanged_mutates_nothing; assumption|].
    intros Hl.
    assert (Hf : VectorHeap.fresh h
                   (VectorHeap.call (VectorHeap.MClampLength len) this h)).
    { simpl. unfold VectorHeap.clampLength, Rgtb.
      replace (Rltb len (Vec.length (VectorHeap.deref h this))) with true
        by (symmetry; apply Rltb_true; lra).
      apply alloc_fresh. }
    split; [exact Hf | apply fresh_is_new; assumption].
  - (* setAngle *)
    simpl. split; [reflexivity|]. split.
    + apply deref_write_same; exact Ht.
    + intros r Hr. apply deref_write_other; exact Hr.
  - (* lerp *)
    apply G; apply lerp_fresh_unchanged.
Qed.

(** ** Destruction *)

Lemma destroy_unfold (n : nat) (this : ObjId) (st : DState) :
  destroy (S n) this st
  = if destroyed (fst st this) then Some st
    else
      let s1 := upd (fst st) this (set_destroyed true (fst st this)) in
      let s2 := match parent (s1 this) with
                | Some p => removeChild p this s1
                | None => s1
                end in
      forChildren (S (List.length (children (s2 this)))) (destroyChild n)
        this O (s2, this :: snd st).
Proof. reflexivity. Qed.

Lemma marks_nil (s : Store) : marks s s [].
Proof.
  split; [constructor|]. intros z; split; [intros []|].
  intros [H1 H2]; congruence.
Qed.

(** Marks of two consecutive stretches add up. *)
Lemma marks_app (s1 s2 s3 : Store) (n12 n23 : list ObjId) :
  (forall z, destroyed (s1 z) = true -> destroyed (s2 z) = true) ->
  (forall z, destroyed (s2 z) = true -> destroyed (s3 z) = true) ->
  marks s1 s2 n12 -> marks s2 s3 n23 -> marks s1 s3 (n23 ++ n12).
Proof.
  intros M12 M23 [D12 I12] [D23 I23]. split.
  - apply NoDup_app; [exact D23 | exact D12 |].
    intros z Hz23 Hz12. apply I12 in Hz12. apply I23 in Hz23.
    destruct Hz12, Hz23; congruence.
  - intros z. rewrite in_app_iff, I12, I23. split.
    + intros [[A B]|[A B]].
      * split; [|exact B]. destruct (destroyed (s1 z)) eqn:E; [|reflexivity].
        apply M12 in E; congruence.
      * split; [exact A | apply M23; exact B].
    + intros [A B]. destruct (destroyed (s2 z)) eqn:E; [right | left]; auto.
Qed.

Lemma marks_ext (s1 s1' s2 : Store) (news : list ObjId) :
  (forall z, destroyed (s1' z) = destroyed (s1 z)) ->
  marks s1' s2 news -> marks s1 s2 news.
Proof.
  intros E [D I]. split; [exact D|]. intros z. rewrite I, E. reflexivity.
Qed.

(** The loop, given what each call at depth [n] does. *)
Lemma forChildren_post (n : nat) :
  (forall x st st', destroy n x st = Some st' -> DestroyPost x st st') ->
  forall k this i st st',
    forChildren k (destroyChild n) this i st = Some st' ->
    LoopPost this i st st'.
Proof.
  intros IH. induction k as [|k IHk]; intros this i st st' H; [discriminate|].
  simpl in H.
  destruct (nth_error (children (fst st this)) i) as [child|] eqn:Hnth.
  2:{ injection H as <-. constructor; auto.
      - exists []; split; [reflexivity | apply marks_nil].
      - intros j c Hj Hc. apply nth_error_None in Hnth.
        assert (j < List.length (children (fst st this)))%nat
          by (apply nth_error_Some; congruence). lia.
      - intros z c A B; congruence.
      - intros z A B; congruence. }
  destruct (destroyChild n child st) as [st1|] eqn:Hcall; [|discriminate].
  unfold destroyChild in Hcall.
  set (s0 := upd (fst st) child (set_parent None (fst st child))) in Hcall.
  pose proof (IH _ _ _ Hcall) as P. pose proof (IHk _ _ _ _ H) as L.
  destruct P as [Plog Pmono Pself Pchildren Pclosed Preach Pparent _].
  destruct L as [Llog Lmono Lchildren Ldone Lclosed Lreach Lparent].
  simpl fst in *; simpl snd in *.
  assert (D0 : forall z, destroyed (s0 z) = destroyed (fst st z)).
  { intros z. unfold s0, upd. destruct (Nat.eqb z child) eqn:E; [|reflexivity].
    apply Nat.eqb_eq in E; subst; reflexivity. }
  assert (C0 : forall z, children (s0 z) = children (fst st z)).
  { intros z. unfold s0, upd. destruct (Nat.eqb z child) eqn:E; [|reflexivity].
    apply Nat.eqb_eq in E; subst; reflexivity. }
  assert (P0 : parent (s0 child) = None).
  { unfold s0; rewrite upd_same; reflexivity. }
  assert (C1 : forall z, children (fst st1 z) = children (fst st z)).
  { intros z. rewrite Pchildren. unfold childrenAfterDetach. rewrite P0. apply C0. }
  constructor.
  - destruct Plog as (n1 & E1 & M1), Llog as (n2 & E2 & M2).
    exists (n2 ++ n1). split; [rewrite E2, E1, app_assoc; reflexivity|].
    eapply marks_app; [| exact Lmono | | exact M2].
    + intros z Hz. apply Pmono. rewrite D0; exact Hz.
    + eapply marks_ext; [|exact M1]. intros z; apply D0.
  - intros z Hz. apply Lmono, Pmono. rewrite D0; exact Hz.
  - intros z. rewrite Lchildren. apply C1.
  - intros j c Hj Hc. destruct (Nat.eq_dec j i) as [->|Hne].
    + assert (c = child) by congruence. subst c. apply Lmono, Pself.
    + apply (Ldone j c); [lia|]. rewrite C1. exact Hc.
  - intros z c Hz Hz' Hc.
    destruct (destroyed (fst st1 z)) eqn:E1.
    + apply Lmono. apply (Pclosed z c); [rewrite D0; exact Hz | exact E1 |].
      rewrite <- Lchildren. exact Hc.
    + apply (Lclosed z c); assumption.
  - intros z Hz Hz'.
    assert (Hchild : In child (children (fst st' this))).
    { rewrite Lchildren, C1. eapply nth_error_In; exact Hnth. }
    assert (Sub : forall a b, descendant (fst st1) a b -> descendant (fst st') a b).
    { intros a b Hd. induction Hd as [c Hc|d c _ IHd Hc].
      - apply descendant_child. rewrite Lchildren; exact Hc.
      - eapply descendant_step; [exact IHd|]. rewrite Lchildren; exact Hc. }
    destruct (destroyed (fst st1 z)) eqn:E1.
    + destruct (Preach z) as [->|Hd]; [rewrite D0; exact Hz | exact E1 | |].
      * apply descendant_child; exact Hchild.
      * apply Sub in Hd. clear - Hd Hchild.
        induction Hd as [c Hc|d c _ IHd Hc].
        -- eapply descendant_step; [apply descendant_child; exact Hchild | exact Hc].
        -- eapply descendant_step; [exact IHd | exact Hc].
    + apply Lreach; assumption.
  - intros z. destruct (Lparent z) as [A|A]; [left; exact A|].
    rewrite A. destruct (Pparent z) as [B|B]; [left; exact B|].
    rewrite B. unfold s0, upd. destruct (Nat.eqb z child) eqn:E; [|right; reflexivity].
    left; reflexivity.
Qed.

Lemma removeChild_destroyed (p x : ObjId) (s : Store) (z : ObjId) :
  destroyed (removeChild p x s z) = destroyed (s z).
Proof.
  unfold removeChild, upd.
  destruct (Nat.eqb_spec z x) as [->|Hx]; simpl.
  - destruct (Nat.eqb_spec x p) as [->|Hp]; reflexivity.
  - destruct (Nat.eqb_spec z p) as [->|Hp]; reflexivity.
Qed.

Lemma removeChild_children (p x : ObjId) (s : Store) (z : ObjId) :
  children (removeChild p x s z)
  = if Nat.eqb z p then splice1 (indexOf (children (s p)) x) (children (s p))
    else children (s z).
Proof.
  unfold removeChild, upd.
  destruct (Nat.eqb_spec z x) as [->|Hx]; simpl.
  - destruct (Nat.eqb_spec x p) as [->|Hp]; reflexivity.
  - destruct (Nat.eqb_spec z p) as [->|Hp]; reflexivity.
Qed.

Lemma removeChild_parent (p x : ObjId) (s : Store) (z : ObjId) :
  parent (removeChild p x s z) = if Nat.eqb z x then None else parent (s z).
Proof.
  unfold removeChild, upd.
  destruct (Nat.eqb_spec z x) as [->|Hx]; simpl; [reflexivity|].
  destruct (Nat.eqb_spec z p) as [->|Hp]; reflexivity.
Qed.

Lemma detached_destroyed (s : Store) (x z : ObjId) :
  destroyed (detached s x z) = if Nat.eqb z x then true else destroyed (s z).
Proof.
  unfold detached. rewrite upd_same.
  change (parent (set_destroyed true (s x))) with (parent (s x)).
  destruct (parent (s x)) as [p|]; [rewrite removeChild_destroyed|];
    unfold upd; destruct (Nat.eqb z x); reflexivity.
Qed.

Lemma detached_children (s : Store) (x z : ObjId) :
  destroyed (s x) = false ->
  children (detached s x z) = childrenAfterDetach s x z.
Proof.
  intros Hlive. unfold detached, childrenAfterDetach. rewrite upd_same.
  change (parent (set_destroyed true (s x))) with (parent (s x)).
  rewrite Hlive.
  destruct (parent (s x)) as [p|].
  - rewrite removeChild_children. rewrite andb_true_r.
    assert (E : forall j, children (upd s x (set_destroyed true (s x)) j)
                          = children (s j)).
    { intros j. unfold upd. destruct (Nat.eqb_spec j x) as [->|]; reflexivity. }
    rewrite !E. reflexivity.
  - unfold upd. destruct (Nat.eqb_spec z x) as [->|]; reflexivity.
Qed.

Lemma detached_parent (s : Store) (x z : ObjId) :
  parent (detached s x z) = None \/ parent (detached s x z) = parent (s z).
Proof.
  unfold detached. rewrite upd_same.
  change (parent (set_destroyed true (s x))) with (parent (s x)).
  destruct (parent (s x)) as [p|] eqn:Hp.
  - rewrite removeChild_parent. unfold upd.
    destruct (Nat.eqb_spec z x) as [->|]; [left | right]; reflexivity.
  - unfold upd. destruct (Nat.eqb_spec z x) as [->|]; right; reflexivity.
Qed.

Lemma detached_parent_self (s : Store) (x : ObjId) :
  parent (detached s x x) = None.
Proof.
  unfold detached. rewrite upd_same.
  change (parent (set_destroyed true (s x))) with (parent (s x)).
  destruct (parent (s x)) as [p|] eqn:Hp.
  - rewrite removeChild_parent, Nat.eqb_refl. reflexivity.
  - rewrite upd_same. exact Hp.
Qed.

(** What a call of [destroy] that returns has done. *)
Lemma destroy_post (n : nat) :
  forall x st st', destroy n x st = Some st' -> DestroyPost x st st'.
Proof.
  induction n as [|n IH]; intros x st st' H; [discriminate|].
  rewrite destroy_unfold in H.
  destruct (destroyed (fst st x)) eqn:Hx.
  - injection H as <-. constructor; auto; try congruence.
    + exists []; split; [reflexivity | apply marks_nil].
    + intros z. unfold childrenAfterDetach. rewrite Hx.
      destruct (parent (fst st x)); [rewrite andb_false_r|]; reflexivity.
  - cbv zeta in H. fold (detached (fst st) x) in H.
    pose proof (forChildren_post n IH _ _ _ _ _ H) as L.
    destruct L as [Llog Lmono Lchildren Ldone Lclosed Lreach Lparent].
    simpl fst in *; simpl snd in *.
    pose proof (detached_destroyed (fst st) x) as D2.
    assert (Dx : destroyed (detached (fst st) x x) = true)
      by (rewrite D2, Nat.eqb_refl; reflexivity).
    assert (Dz : forall z, z <> x ->
                 destroyed (detached (fst st) x z) = destroyed (fst st z)).
    { intros z Hz. rewrite D2. apply Nat.eqb_neq in Hz; rewrite Hz; reflexivity. }
    assert (Mono2 : forall z, destroyed (fst st z) = true ->
                    destroyed (detached (fst st) x z) = true).
    { intros z Hz. rewrite D2. destruct (Nat.eqb z x); auto. }
    constructor.
    + destruct Llog as (nl & E & M). exists (nl ++ [x]). split.
      * rewrite E, <- app_assoc; reflexivity.
      * eapply marks_app; [exact Mono2 | exact Lmono | | exact M].
        split; [repeat constructor; intros []|].
        intros z; split.
        -- intros [<-|[]]. split; assumption.
        -- intros [A B]. left. destruct (Nat.eq_dec z x) as [->|Hz]; [reflexivity|].
           rewrite (Dz z Hz) in B; congruence.
    + intros z Hz. apply Lmono, Mono2, Hz.
    + apply Lmono, Dx.
    + intros z. rewrite Lchildren. apply detached_children; exact Hx.
    + intros z c Hz Hz' Hc. destruct (Nat.eq_dec z x) as [->|Hne].
      * rewrite Lchildren in Hc. apply In_nth_error in Hc. destruct Hc as [j Hj].
        apply (Ldone j c); [lia | exact Hj].
      * apply (Lclosed z c); [rewrite (Dz z Hne); exact Hz | exact Hz' | exact Hc].
    + intros z Hz Hz'. destruct (Nat.eq_dec z x) as [->|Hne]; [left; reflexivity|].
      right. apply Lreach; [rewrite (Dz z Hne); exact Hz | exact Hz'].
    + intros z. destruct (Lparent z) as [A|A]; [left; exact A|].
      rewrite A. apply detached_parent.
    + intros _. destruct (Lparent x) as [A|A]; [exact A|].
      rewrite A. apply detached_parent_self.
Qed.

(** *** Lists of children *)

Lemma removeAt_subset (i : nat) (l : list ObjId) (c : ObjId) :
  In c (removeAt i l) -> In c l.
Proof.
  revert i; induction l as [|a l IH]; intros [|i] H; simpl in *; auto.
  destruct H as [H|H]; [left; exact H | right; eapply IH; exact H].
Qed.

Lemma removelast_subset (l : list ObjId) (c : ObjId) :
  In c (removelast l) -> In c l.
Proof.
  induction l as [|a l IH]; simpl; auto.
  destruct l as [|b l]; [intros []|].
  intros [H|H]; [left; exact H | right; apply IH; exact H].
Qed.

Lemma splice1_subset (i : option nat) (l : list ObjId) (c : ObjId) :
  In c (splice1 i l) -> In c l.
Proof.
  destruct i; simpl; [apply removeAt_subset | apply removelast_subset].
Qed.

(** With [x] in the list, [splice(indexOf(x), 1)] takes the first [x]
    out and nothing else. *)
Lemma splice1_indexOf (l : list ObjId) (x : ObjId) :
  In x l ->
  (forall c, In c l -> c <> x -> In c (splice1 (indexOf l x) l)) /\
  (NoDup l -> ~ In x (splice1 (indexOf l x) l)).
Proof.
  induction l as [|a l IH]; intros Hin; [destruct Hin|].
  simpl. destruct (Nat.eqb_spec a x) as [->|Hax]; simpl.
  - split.
    + intros c [Hc|Hc] Hne; [congruence | exact Hc].
    + intros Hnd; inversion Hnd; assumption.
  - destruct Hin as [Hin|Hin]; [congruence|].
    destruct (IH Hin) as [K N].
    destruct (indexOf l x) as [i|] eqn:Ei; simpl in *.
    + split.
      * intros c [Hc|Hc] Hne; [left; exact Hc | right; apply K; assumption].
      * intros Hnd [H|H]; [congruence|]. inversion Hnd; subst. apply N; assumption.
    + exfalso. clear - Hin Ei. induction l as [|b l IHl]; [destruct Hin|].
      simpl in Ei. destruct (Nat.eqb_spec b x) as [->|Hb]; [discriminate|].
      destruct (indexOf l x); [discriminate|].
      destruct Hin as [Hin|Hin]; [congruence | auto].
Qed.

Lemma childrenAfterDetach_subset (s : Store) (x z c : ObjId) :
  In c (childrenAfterDetach s x z) -> In c (children (s z)).
Proof.
  unfold childrenAfterDetach. destruct (parent (s x)) as [p|]; [|auto].
  destruct (Nat.eqb_spec z p) as [->|]; simpl; [|auto].
  destruct (negb _); [apply splice1_subset | auto].
Qed.

(** *** Termination *)

Lemma liveCount_mono (reg : list ObjId) (s s' : Store) :
  (forall z, destroyed (s z) = true -> destroyed (s' z) = true) ->
  (liveCount reg s' <= liveCount reg s)%nat.
Proof.
  intros M. unfold liveCount. induction reg as [|a reg IH]; simpl; [lia|].
  destruct (destroyed (s a)) eqn:Ea.
  - rewrite (M a Ea). simpl. exact IH.
  - destruct (destroyed (s' a)); simpl; lia.
Qed.

Lemma liveCount_mark (reg : list ObjId) (s s' : Store) (x : ObjId) :
  (forall z, destroyed (s z) = true -> destroyed (s' z) = true) ->
  In x reg -> destroyed (s x) = false -> destroyed (s' x) = true ->
  (liveCount reg s' < liveCount reg s)%nat.
Proof.
  intros M Hin Hx Hx'. unfold liveCount.
  induction reg as [|a reg IH]; [destruct Hin|].
  pose proof (liveCount_mono reg s s' M) as Hle. unfold liveCount in Hle.
  simpl. destruct Hin as [->|Hin].
  - rewrite Hx, Hx'. simpl. lia.
  - specialize (IH Hin). destruct (destroyed (s a)) eqn:Ea.
    + rewrite (M a Ea). simpl. exact IH.
    + destruct (destroyed (s' a)); simpl; lia.
Qed.

Lemma forChildren_total (reg : list ObjId) (n : nat) :
  (forall x st, closedRegistry reg (fst st) -> In x reg ->
                (liveCount reg (fst st) < n)%nat ->
                exists st', destroy n x st = Some st') ->
  forall k this i st,
    closedRegistry reg (fst st) -> In this reg ->
    (liveCount reg (fst st) < n)%nat ->
    (i <= List.length (children (fst st this)) < k + i)%nat ->
    exists st', forChildren k (destroyChild n) this i st = Some st'.
Proof.
  intros IH. induction k as [|k IHk]; intros this i st Hcl Hin Hlive Hk; [lia|].
  simpl.
  destruct (nth_error (children (fst st this)) i) as [child|] eqn:Hnth;
    [|eexists; reflexivity].
  assert (Hi : (i < List.length (children (fst st this)))%nat)
    by (apply nth_error_Some; congruence).
  set (s0 := upd (fst st) child (set_parent None (fst st child))).
  assert (D0 : forall z, destroyed (s0 z) = destroyed (fst st z)).
  { intros z. unfold s0, upd. destruct (Nat.eqb_spec z child) as [->|]; reflexivity. }
  assert (C0 : forall z, children (s0 z) = children (fst st z)).
  { intros z. unfold s0, upd. destruct (Nat.eqb_spec z child) as [->|]; reflexivity. }
  assert (Hchild : In child reg).
  { apply (Hcl this child Hin). eapply nth_error_In; exact Hnth. }
  destruct (IH child (s0, snd st)) as [st1 Hcall].
  - intros a c Ha Hc. simpl in Hc. rewrite C0 in Hc. eapply Hcl; eassumption.
  - exact Hchild.
  - simpl. apply Nat.le_lt_trans with (liveCount reg (fst st)); [|exact Hlive].
    apply liveCount_mono. intros z Hz. rewrite D0; exact Hz.
  - unfold destroyChild. fold s0. rewrite Hcall.
    pose proof (destroy_post n _ _ _ Hcall) as P.
    assert (C1 : forall z, children (fst st1 z) = children (fst st z)).
    { intros z. rewrite (post_children _ _ _ P). simpl.
      unfold childrenAfterDetach, s0 at 1. rewrite upd_same. simpl. apply C0. }
    apply IHk.
    + intros a c Ha Hc. rewrite C1 in Hc. eapply Hcl; eassumption.
    + exact Hin.
    + apply Nat.le_lt_trans with (liveCount reg (fst st)); [|exact Hlive].
      apply liveCount_mono. intros z Hz.
      apply (post_mono _ _ _ P). simpl. rewrite D0; exact Hz.
    + rewrite C1. lia.
Qed.

(** With more fuel than the registry has live objects, [destroy]
    returns. *)
Lemma destroy_total (reg : list ObjId) (n : nat) :
  forall x st, closedRegistry reg (fst st) -> In x reg ->
               (liveCount reg (fst st) < n)%nat ->
               exists st', destroy n x st = Some st'.
Proof.
  induction n as [|n IH]; intros x st Hcl Hin Hlive; [lia|].
  rewrite destroy_unfold.
  destruct (destroyed (fst st x)) eqn:Hx; [eexists; reflexivity|].
  cbv zeta. fold (detached (fst st) x).
  pose proof (detached_destroyed (fst st) x) as D2.
  apply (forChildren_total reg n IH); simpl.
  - intros a c Ha Hc. rewrite detached_children in Hc by exact Hx.
    apply childrenAfterDetach_subset in Hc. eapply Hcl; eassumption.
  - exact Hin.
  - assert (liveCount reg (detached (fst st) x) < liveCount reg (fst st))%nat; [|lia].
    apply (liveCount_mark reg _ _ x); auto.
    + intros z Hz. rewrite D2. destruct (Nat.eqb z x); auto.
    + rewrite D2, Nat.eqb_refl; reflexivity.
  - lia.
Qed.

Lemma liveCount_le_length (reg : list ObjId) (s : Store) :
  (liveCount reg s <= List.length reg)%nat.
Proof. apply filter_length_le. Qed.

(** *** More fuel changes nothing *)

Lemma forChildren_body (k : nat) (body body' : ObjId -> DState -> option DState) :
  (forall c st r, body c st = Some r -> body' c st = Some r) ->
  forall this i st r,
    forChildren k body this i st = Some r ->
    forChildren k body' this i st = Some r.
Proof.
  intros Hb. induction k as [|k IH]; intros this i st r H; [discriminate|].
  simpl in *. destruct (nth_error _ i) as [c|]; [|exact H].
  destruct (body c st) as [st1|] eqn:E; [|discriminate].
  rewrite (Hb _ _ _ E). apply IH; exact H.
Qed.

Lemma destroy_fuel (n : nat) :
  forall m x st r, (n <= m)%nat -> destroy n x st = Some r -> destroy m x st = Some r.
Proof.
  induction n as [|n IH]; intros m x st r Hm H; [discriminate|].
  destruct m as [|m]; [lia|].
  rewrite destroy_unfold in *.
  destruct (destroyed (fst st x)); [exact H|].
  cbv zeta in *. revert H. apply forChildren_body.
  intros c st1 r1. unfold destroyChild. apply IH. lia.
Qed.

Lemma descendant_subset (s s' : Store) (a b : ObjId) :
  (forall z c, In c (children (s' z)) -> In c (children (s z))) ->
  descendant s' a b -> descendant s a b.
Proof.
  intros Sub Hd. induction Hd as [c Hc|d c _ IH Hc].
  - apply descendant_child, Sub, Hc.
  - eapply descendant_step; [exact IH | apply Sub, Hc].
Qed.

(** C7.  [destroy()] on an object that is already destroyed changes
    nothing.  On an object that is not, in a store whose objects are all
    reached from a registry, where no live object has a destroyed child
    and the parent of the object lists it: the call returns; the object
    is destroyed and has no parent, and its former parent has taken it
    out of its children; the objects on which the body of [destroy] ran
    are the object and its descendants, each exactly once, so every
    descendant is destroyed; no other object changes its flag; and a
    second call changes nothing. *)
Theorem destroy_idempotent_and_cascading (reg : list ObjId) (s : Store)
    (x : ObjId) :
  (forall (fuel : nat) (st : DState),
     (0 < fuel)%nat -> destroyed (fst st x) = true -> destroy fuel x st = Some st) /\
  (closedRegistry reg s -> In x reg -> liveChildren s -> listedByParent s x ->
   destroyed (s x) = false ->
   exists (s' : Store) (news : list ObjId),
     (forall fuel, (List.length reg < fuel)%nat ->
                   destroy fuel x (s, []) = Some (s', news)) /\
     destroyed (s' x) = true /\
     parent (s' x) = None /\
     (forall p, parent (s x) = Some p ->
        children (s' p) = splice1 (indexOf (children (s p)) x) (children (s p)) /\
        (NoDup (children (s p)) -> ~ In x (children (s' p)))) /\
     NoDup news /\
     (forall d, In d news <-> d = x \/ descendant s x d) /\
     (forall d, descendant s x d -> destroyed (s' d) = true) /\
     (forall d, d <> x -> ~ descendant s x d -> destroyed (s' d) = destroyed (s d)) /\
     (forall fuel, (0 < fuel)%nat ->
                   destroy fuel x (s', news) = Some (s', news))).
Proof.
  assert (Idem : forall (fuel : nat) (y : ObjId) (st : DState),
             (0 < fuel)%nat -> destroyed (fst st y) = true ->
             destroy fuel y st = Some st).
  { intros [|fuel] y st Hf Hd; [lia|]. rewrite destroy_unfold, Hd. reflexivity. }
  split; [intros fuel st; apply Idem|].
  intros Hcl Hin Hlc Hlp Hlive.
  destruct (destroy_total reg (S (List.length reg)) x (s, [])) as [[s' news] Hrun];
    simpl; auto.
  { pose proof (liveCount_le_length reg s); lia. }
  pose proof (destroy_post _ _ _ _ Hrun) as P.
  destruct P as [Plog Pmono Pself Pchildren Pclosed Preach Pparent Pdetached].
  simpl fst in *; simpl snd in *.
  destruct Plog as (news0 & E & [Hnd Hmarks]). rewrite app_nil_r in E. subst news0.
  assert (Sub : forall z c, In c (children (s' z)) -> In c (children (s z))).
  { intros z c Hc. rewrite Pchildren in Hc.
    eapply childrenAfterDetach_subset; exact Hc. }
  (* a child in [s] of a marked object is destroyed in the end *)
  assert (Kids : forall z c, In z news -> In c (children (s z)) ->
                             destroyed (s' c) = true).
  { intros z c Hz Hc. apply Hmarks in Hz. destruct Hz as [Hz Hz'].
    destruct (Nat.eq_dec c x) as [->|Hcx]; [exact Pself|].
    apply (Pclosed z c Hz Hz'). rewrite Pchildren. unfold childrenAfterDetach.
    destruct (parent (s x)) as [p|] eqn:Hp; [|exact Hc].
    destruct (Nat.eqb_spec z p) as [->|]; simpl; [|exact Hc].
    rewrite Hlive; simpl.
    apply (proj1 (splice1_indexOf (children (s p)) x (Hlp p Hp))); assumption. }
  assert (Down : forall d, descendant s x d -> In d news).
  { intros d Hd. induction Hd as [c Hc|d c _ IH Hc].
    - apply Hmarks. split.
      + apply (Hlc x c Hlive Hc).
      + apply (Kids x c); [|exact Hc]. apply Hmarks; split; assumption.
    - apply Hmarks. split.
      + apply Hmarks in IH. apply (Hlc d c (proj1 IH) Hc).
      + apply (Kids d c IH Hc). }
  exists s', news.
  split.
  { intros fuel Hf. apply (destroy_fuel (S (List.length reg))); [lia | exact Hrun]. }
  split; [exact Pself|].
  split; [apply Pdetached; exact Hlive|].
  split.
  { intros p Hp.
    assert (Ep : children (s' p)
                 = splice1 (indexOf (children (s p)) x) (children (s p))).
    { rewrite Pchildren. unfold childrenAfterDetach.
      rewrite Hp, Nat.eqb_refl, Hlive. reflexivity. }
    split; [exact Ep|]. intros Hnodup. rewrite Ep.
    apply (proj2 (splice1_indexOf (children (s p)) x (Hlp p Hp))); exact Hnodup. }
  split; [exact Hnd|].
  split.
  { intros d; split.
    - intros Hd. apply Hmarks in Hd. destruct Hd as [Hd Hd'].
      destruct (Preach d Hd Hd') as [->|Hdesc]; [left; reflexivity|].
      right. eapply descendant_subset; [exact Sub | exact Hdesc].
    - intros [->|Hd]; [apply Hmarks; split; assumption | apply Down; exact Hd]. }
  split.
  { intros d Hd. apply Down, Hmarks in Hd. tauto. }
  split.
  { intros d Hdx Hnd'. destruct (destroyed (s d)) eqn:Ed; [apply Pmono; exact Ed|].
    destruct (destroyed (s' d)) eqn:Ed'; [|reflexivity].
    destruct (Preach d Ed Ed') as [->|Hdesc]; [congruence|].
    exfalso; apply Hnd'. eapply descendant_subset; [exact Sub | exact Hdesc]. }
  intros fuel Hf. apply Idem; [exact Hf | exact Pself].
Qed.

(** [addChild] leaves the child listed by its parent, as [destroy]
    expects to find it. *)
Lemma addChild_listed (s : Store) (this child : ObjId) (lpos : Vector2)
    (langle : R) :
  listedByParent (addChild this child lpos langle s) child.
Proof.
  intros p Hp. unfold addChild in *. rewrite upd_same in Hp. simpl in Hp.
  injection Hp as <-.
  destruct (Nat.eq_dec this child) as [->|Hne].
  - rewrite !upd_same. simpl. apply in_or_app; right; left; reflexivity.
  - rewrite upd_other by exact Hne. rewrite upd_same. simpl.
    apply in_or_app; right; left; reflexivity.
Qed.

(** * The statements at sample data *)

(** After [destroy()] on object 1 of the sample hierarchy, the body has
    run on 1 and then on 3, the objects 1 and 3 are destroyed, and object
    0 keeps the child 2. *)
Example destroy_sampleTree :
  option_map
    (fun st => (snd st,
                map (fun i => destroyed (fst st i)) sampleRegistry,
                children (fst st 0%nat),
                map (fun i => parent (fst st i)) sampleRegistry))
    (destroy 5 1%nat (sampleTree, []))
  = Some ([3; 1]%nat, [false; true; false; true], [2]%nat,
          [None; None; Some 0%nat; None]).
Proof. reflexivity. Qed.

Lemma sampleTree_closed : closedRegistry sampleRegistry sampleTree.
Proof.
  intros a c Ha Hc. unfold sampleRegistry in *. simpl in Ha.
  destruct Ha as [<-|[<-|[<-|[<-|[]]]]]; simpl in Hc; simpl; tauto.
Qed.

Lemma sampleTree_liveChildren : liveChildren sampleTree.
Proof.
  intros a c _ _. destruct c as [|[|[|[|c]]]]; reflexivity.
Qed.

Lemma sampleTree_listed : listedByParent sampleTree 1%nat.
Proof. intros p Hp. injection Hp as <-. simpl. tauto. Qed.

Lemma destroy_idempotent_and_cascading_witness :
  closedRegistry sampleRegistry sampleTree /\
  In 1%nat sampleRegistry /\
  liveChildren sampleTree /\
  listedByParent sampleTree 1%nat /\
  destroyed (sampleTree 1%nat) = false /\
  exists (s' : Store) (news : list ObjId),
    (forall fuel, (List.length sampleRegistry < fuel)%nat ->
                  destroy fuel 1%nat (sampleTree, []) = Some (s', news)) /\
    destroyed (s' 1%nat) = true /\
    parent (s' 1%nat) = None /\
    (forall p, parent (sampleTree 1%nat) = Some p ->
       children (s' p)
       = splice1 (indexOf (children (sampleTree p)) 1%nat) (children (sampleTree p)) /\
       (NoDup (children (sampleTree p)) -> ~ In 1%nat (children (s' p)))) /\
    NoDup news /\
    (forall d, In d news <-> d = 1%nat \/ descendant sampleTree 1%nat d) /\
    (forall d, descendant sampleTree 1%nat d -> destroyed (s' d) = true) /\
    (forall d, d <> 1%nat -> ~ descendant sampleTree 1%nat d ->
               destroyed (s' d) = destroyed (sampleTree d)) /\
    (forall fuel, (0 < fuel)%nat -> destroy fuel 1%nat (s', news) = Some (s', news)).
Proof.
  split; [exact sampleTree_closed|].
  split; [simpl; tauto|].
  split; [exact sampleTree_liveChildren|].
  split; [exact sampleTree_listed|].
  split; [reflexivity|].
  apply (proj2 (destroy_idempotent_and_cascading sampleRegistry sampleTree 1%nat)).
  - exact sampleTree_closed.
  - simpl; tauto.
  - exact sampleTree_liveChildren.
  - exact sampleTree_listed.
  - reflexivity.
Defined.

Local Abbreviation sampleUpdate :=
  (update 0 1 true sampleTiles sampleCollide sampleRandom).

Local Abbreviation sampleResolve := (resolveNew 0).

Lemma axis_choice_priority_witness :
  0%nat <> 1%nat /\
  specResolvesY 0 (vec 0 2) (pos (objects sampleWorld 1%nat))
    (size (objects sampleWorld 0%nat)) (size (objects sampleWorld 1%nat)) /\
  ~ specResolvesX 0 (vec 0 2) (pos (objects sampleWorld 1%nat))
      (size (objects sampleWorld 0%nat)) (size (objects sampleWorld 1%nat)) /\
  let w' := sampleResolve 0%nat 1%nat (vec 0 2) true sampleWorld in
  y (pos (objects w' 0%nat))
  = pushedY 1%nat (vec 0 2) (vec 2 2) sampleWorld /\
  x (pos (objects w' 0%nat)) = 0.
Proof.
  assert (Hne : 0%nat <> 1%nat) by discriminate.
  assert (HY : specResolvesY 0 (vec 0 2) (pos (objects sampleWorld 1%nat))
                 (size (objects sampleWorld 0%nat))
                 (size (objects sampleWorld 1%nat))).
  { left. unfold specSmallStepUp; simpl; lra. }
  assert (HX : ~ specResolvesX 0 (vec 0 2) (pos (objects sampleWorld 1%nat))
                   (size (objects sampleWorld 0%nat))
                   (size (objects sampleWorld 1%nat))).
  { intros [Hs _]. apply Hs. unfold specSmallStepUp; simpl; lra. }
  split; [exact Hne|]. split; [exact HY|]. split; [exact HX|].
  destruct (axis_choice_priority 0 0%nat 1%nat (vec 0 2) true sampleWorld)
    as (_ & _ & _ & Hpos & _).
  destruct (Hpos Hne) as (Py & _ & _ & Px).
  split; [exact (Py HY) | exact (Px HX)].
Defined.

Lemma normalize_length_and_direction_witness :
  0 <= 10 /\ vec 3 4 <> vec 0 0 /\
  Vec.length (Vec.normalize (vec 0 0) 10) = 10 /\
  Vec.length (Vec.normalize (vec 3 4) 10) = 10 /\
  exists k : R, 0 <= k /\ (0 < 10 -> 0 < k) /\
                Vec.normalize (vec 3 4) 10 = Vec.scale (vec 3 4) k.
Proof.
  assert (HL : 0 <= 10) by lra.
  assert (Hv : vec 3 4 <> vec 0 0) by (intros E; injection E; lra).
  split; [exact HL|]. split; [exact Hv|].
  destruct (proj2 (normalize_length_and_direction 10) HL) as [Hz Hn].
  split; [exact Hz|]. exact (Hn (vec 3 4) Hv).
Defined.

(** C9, as stated, fails: [setAngle(0, 1)] on the vector (5, 5) returns
    its receiver and has overwritten it with (0, 1). *)
Lemma setAngle_overwrites_and_returns_receiver :
  let h := [vec 5 5] in
  let res := VectorHeap.call (VectorHeap.MSetAngle 0 1) 0%nat h in
  VectorHeap.valid h 0%nat /\
  snd res = 0%nat /\
  VectorHeap.deref h 0%nat = vec 5 5 /\
  VectorHeap.deref (fst res) 0%nat = vec 0 1 /\
  ~ VectorHeap.returnsNew (VectorHeap.MSetAngle 0 1) 0%nat h /\
  ~ VectorHeap.mutatesNothing (VectorHeap.MSetAngle 0 1) 0%nat h /\
  ~ VectorHeap.valueSemantics (VectorHeap.MSetAngle 0 1) 0%nat h.
Proof.
  assert (E : VectorHeap.deref
                (fst (VectorHeap.call (VectorHeap.MSetAngle 0 1) 0%nat [vec 5 5]))
                0%nat = vec 0 1).
  { simpl. unfold VectorHeap.deref, Vec.setAngle; simpl.
    rewrite sin_0, cos_0. f_equal; ring. }
  cbv zeta.
  assert (N : ~ VectorHeap.returnsNew (VectorHeap.MSetAngle 0 1) 0%nat [vec 5 5]).
  { intros [Hr _]. apply Hr. reflexivity. }
  split; [unfold VectorHeap.valid; simpl; lia|].
  split; [reflexivity|]. split; [reflexivity|]. split; [exact E|].
  split; [exact N|]. split.
  - intros [Hm _]. rewrite E in Hm. unfold VectorHeap.deref in Hm; simpl in Hm.
    injection Hm; lra.
  - intros [Hr _]. exact (N Hr).
Qed.

(** [clampLength] of a vector that is short enough returns its
    receiver. *)
Example clampLength_short_vector :
  VectorHeap.call (VectorHeap.MClampLength 10) 0%nat [vec 3 4] = ([vec 3 4], 0%nat).
Proof.
  simpl. unfold VectorHeap.clampLength, Rgtb.
  replace (Rltb 10 (Vec.length (VectorHeap.deref [vec 3 4] 0%nat))) with false;
    [reflexivity|].
  symmetry. apply Rltb_false.
  unfold VectorHeap.deref, Vec.length, Vec.lengthSquared; simpl.
  replace (3 * 3 + 4 * 4) with (5 * 5) by ring.
  rewrite sqrt_square; lra.
Qed.

Lemma vector_methods_allocate_except_setAngle_witness :
  VectorHeap.valid [vec 1 2; vec 3 4] 0%nat /\
  Forall (VectorHeap.valid [vec 1 2; vec 3 4])
         (VectorHeap.arguments (VectorHeap.MAdd 1%nat)) /\
  let res := VectorHeap.call (VectorHeap.MAdd 1%nat) 0%nat [vec 1 2; vec 3 4] in
  VectorHeap.fresh [vec 1 2; vec 3 4] res /\
  VectorHeap.unchanged [vec 1 2; vec 3 4] (fst res) /\
  VectorHeap.valueSemantics (VectorHeap.MAdd 1%nat) 0%nat [vec 1 2; vec 3 4].
Proof.
  assert (Ht : VectorHeap.valid [vec 1 2; vec 3 4] 0%nat)
    by (unfold VectorHeap.valid; simpl; lia).
  assert (Ha : Forall (VectorHeap.valid [vec 1 2; vec 3 4])
                      (VectorHeap.arguments (VectorHeap.MAdd 1%nat))).
  { repeat constructor. }
  split; [exact Ht|]. split; [exact Ha|].
  exact (vector_methods_allocate_except_setAngle (VectorHeap.MAdd 1%nat) 0%nat
           [vec 1 2; vec 3 4] Ht Ha).
Defined.

(** Settles the comparisons between numerals that stand in the goal. *)
Ltac decide_R :=
  repeat match goal with
    | |- context [Rltb ?a ?b] =>
        first [rewrite (proj2 (Rltb_true a b)) by lra
              | rewrite (proj2 (Rltb_false a b)) by lra]
    | |- context [truthy ?a] =>
        first [rewrite (proj2 (truthy_true a)) by lra
              | rewrite (proj2 (truthy_false a)) by lra]
    end.

(** ** One tick of a head-on collision *)

Lemma integrate_headOn :
  objects (integrate 0 1 0%nat headOnWorld) 0%nat
  = set_pos (vec 0 (1 / 2)) (headOnStore 0%nat).
Proof.
  unfold integrate. rewrite modify_same. unfold integrateObject. simpl.
  unfold clamp, Rgtb. decide_R.
  unfold sampleBody, set_pos, set_angle, set_angleVelocity, set_velocity; simpl.
  replace (3 / 2 + (1 * -1 + 0 * 1)) with (1 / 2) by lra.
  replace (1 * -1 + 0 * 1) with (-1) by lra.
  replace (0 + 1 * 0) with 0 by lra.
  replace (1 * 0) with 0 by lra.
  replace (0 + 0 * 1) with 0 by lra.
  replace (0 * 1) with 0 by lra.
  reflexivity.
Qed.

Lemma tilePass_noTiles (g : R) (this : ObjId) (oldPos : Vector2) (d : bool)
    (w : World) :
  tilePass g noTiles this oldPos d w = w.
Proof. unfold tilePass, noTiles. destruct (collideTiles _); reflexivity. Qed.

(** The upper box is updated: it meets the lower one for the first time,
    is put on top of it, and the two vertical velocities are exchanged. *)
Example headOn_tick :
  let w' := update 0 1 true noTiles sampleCollide sampleRandom 0%nat headOnWorld in
  y (velocity (objects w' 0%nat)) = 1 /\
  y (velocity (objects w' 1%nat)) = -1 /\
  pos (objects w' 0%nat) = vec 0 (1001 / 1000) /\
  pos (objects w' 1%nat) = vec 0 0.
Proof.
  cbv zeta. unfold update.
  change (parent (objects headOnWorld 0%nat)) with (@None ObjId). cbv iota zeta.
  rewrite tilePass_noTiles.
  pose proof integrate_headOn as E0.
  assert (E1 : objects (integrate 0 1 0%nat headOnWorld) 1%nat = headOnStore 1%nat)
    by reflexivity.
  assert (E2 : engineObjectsCollide (integrate 0 1 0%nat headOnWorld)
               = [0%nat; 1%nat]) by reflexivity.
  remember (integrate 0 1 0%nat headOnWorld) as w1 eqn:Hw1. clear Hw1.
  rewrite E0. simpl mass. simpl velocity. simpl y. decide_R.
  simpl negb; simpl orb; cbv iota.
  assert (F : applyFriction 0%nat w1 = w1).
  { unfold applyFriction. rewrite E0. reflexivity. }
  rewrite F. unfold objectPass. rewrite E0, E2. simpl collideSolidObjects. cbv iota.
  simpl fold_left.
  assert (C0 : collideWith 0 sampleCollide sampleRandom 0%nat (Vec.copy (vec 0 (3 / 2))) true w1 0%nat
               = w1).
  { unfold collideWith. rewrite Nat.eqb_refl, !orb_true_r. reflexivity. }
  rewrite C0.
  assert (C1 : collideWith 0 sampleCollide sampleRandom 0%nat (Vec.copy (vec 0 (3 / 2))) true w1 1%nat
               = resolveNew 0 0%nat 1%nat (vec 0 (3 / 2)) true w1).
  { unfold collideWith. rewrite E0, E1. unfold isOverlapping, sampleCollide, abs.
    simpl. decide_R. reflexivity. }
  rewrite C1.
  assert (Hne : 0%nat <> 1%nat) by discriminate.
  assert (HY : resolvesY 0 0%nat 1%nat (vec 0 (3 / 2)) w1 = true).
  { apply resolvesY_spec. left. rewrite E0, E1. unfold specSmallStepUp; simpl; lra. }
  assert (HX : resolvesX 0 0%nat 1%nat (vec 0 (3 / 2)) w1 = false).
  { destruct (resolvesX 0 0%nat 1%nat (vec 0 (3 / 2)) w1) eqn:E; [|reflexivity].
    apply resolvesX_spec in E. destruct E as [E _]. exfalso; apply E.
    rewrite E0, E1. unfold specSmallStepUp; simpl; lra. }
  assert (Hm : mass (objects w1 1%nat) <> 0) by (rewrite E1; simpl; lra).
  destruct (resolveNew_blend 0 0%nat 1%nat (vec 0 (3 / 2)) true w1 Hne Hm)
    as [_ BY].
  specialize (BY HY). rewrite E0, E1 in BY. simpl in BY.
  rewrite blend_elastic_equal_mass in BY by (try apply max_idem; lra).
  specialize (BY eq_refl). injection BY as B0 B1.
  pose proof (resolveNew_pos 0 0%nat 1%nat (vec 0 (3 / 2)) true w1 Hne) as P.
  cbv zeta in P. rewrite HX, HY, E0, E1 in P. unfold pushedY in P. rewrite E1 in P.
  simpl in P. unfold sign in P. revert P. decide_R. intros P.
  split; [exact B0|]. split; [exact B1|].
  split; [rewrite P; unfold epsilon; f_equal; lra|].
  rewrite (proj1 (proj2 (respects_resolveNew 0 0%nat 1%nat (vec 0 (3 / 2)) true w1)
                        1%nat (not_eq_sym Hne))).
  rewrite E1. reflexivity.
Qed.

(** ** Truncation *)

(** [5/2|0] is 2, [-5/2|0] is -2 and [0|0] is 0. *)
Lemma toInt32_examples :
  toInt32 (5 / 2) = 2%Z /\ toInt32 (- (5 / 2)) = (-2)%Z /\ toInt32 0 = 0%Z.
Proof.
  assert (H2 : Int_part (5 / 2) = 2%Z).
  { symmetry; apply Int_part_spec; simpl; lra. }
  assert (H0 : Int_part 0 = 0%Z).
  { symmetry; apply Int_part_spec; simpl; lra. }
  unfold toInt32, truncate. repeat split.
  - replace (Rltb (5 / 2) 0) with false by (symmetry; apply Rltb_false; lra).
    rewrite H2. reflexivity.
  - replace (Rltb (- (5 / 2)) 0) with true by (symmetry; apply Rltb_true; lra).
    rewrite Ropp_involutive, H2. reflexivity.
  - replace (Rltb 0 0) with false by (symmetry; apply Rltb_false; lra).
    rewrite H0. reflexivity.
Qed.

(** ** One tick of a landing on tiles *)

Lemma integrate_landing :
  objects (integrate 0 1 0%nat landingWorld) 0%nat
  = set_pos (vec 0 (- (1 / 2))) (landingStore 0%nat).
Proof.
  unfold integrate. rewrite modify_same. unfold integrateObject. simpl.
  unfold clamp, Rgtb. decide_R.
  unfold sampleBody, set_pos, set_angle, set_angleVelocity, set_velocity; simpl.
  replace (1 / 2 + (1 * -1 + 0 * 1)) with (- (1 / 2)) by lra.
  replace (1 * -1 + 0 * 1) with (-1) by lra.
  replace (0 + 1 * 0) with 0 by lra.
  replace (1 * 0) with 0 by lra.
  replace (0 + 0 * 1) with 0 by lra.
  replace (0 * 1) with 0 by lra.
  reflexivity.
Qed.

(** The box would enter the tiles: the tile pass puts it back at its
    height, stops its fall and records that it stands on tiles. *)
Example landing_tick :
  let w' := update 0 1 true sampleTiles sampleCollide sampleRandom 0%nat landingWorld in
  pos (objects w' 0%nat) = vec 0 (1 / 2) /\
  y (velocity (objects w' 0%nat)) = 0 /\
  groundObject (objects w' 0%nat) = TileGround.
Proof.
  cbv zeta. unfold update.
  change (parent (objects landingWorld 0%nat)) with (@None ObjId). cbv iota zeta.
  pose proof integrate_landing as E0.
  assert (E2 : engineObjectsCollide (integrate 0 1 0%nat landingWorld) = [0%nat])
    by reflexivity.
  remember (integrate 0 1 0%nat landingWorld) as w1 eqn:Hw1. clear Hw1.
  rewrite E0. simpl mass. simpl velocity. simpl y. decide_R.
  simpl negb; simpl orb; cbv iota.
  assert (F : applyFriction 0%nat w1 = w1).
  { unfold applyFriction. rewrite E0. reflexivity. }
  rewrite F. unfold objectPass. rewrite E0, E2. simpl collideSolidObjects. cbv iota.
  simpl fold_left.
  assert (C0 : collideWith 0 sampleCollide sampleRandom 0%nat
                 (Vec.copy (vec 0 (1 / 2))) true w1 0%nat = w1).
  { unfold collideWith. rewrite Nat.eqb_refl, !orb_true_r. reflexivity. }
  rewrite C0.
  unfold tilePass, sampleTiles. rewrite E0. simpl collideTiles. simpl pos. simpl y.
  decide_R. simpl negb. simpl orb. cbv iota zeta.
  rewrite !modify_same. rewrite E0.
  unfold tileBounceY. simpl.
  replace (1 / 2 - 1 / 2) with 0 by lra.
  rewrite (proj2 (proj2 toInt32_examples)). simpl. unfold Rgtb. decide_R. simpl.
  repeat split. lra.
Qed.


(** ** Two boxes that meet: side hits, top hits, landings on a fixed box *)

(** Reads the store after the writes of [modify]. *)
Ltac store_simpl :=
  repeat (rewrite modify_same
          || (rewrite modify_other by (assumption || (apply not_eq_sym; assumption)))
          || (progress cbn [objects recordDivisors tickRandom])).

(** The first box of [sideHit] has entered the second one from the
    side: the loop round reaches the response, which resolves the
    horizontal axis and not the vertical one. *)
Lemma sideHit_meets (m0 e0 m1 e1 v1 : R) (d : bool) :
  resolvesX 0 0%nat 1%nat sideOld (sideHit m0 e0 m1 e1 v1) = true /\
  resolvesY 0 0%nat 1%nat sideOld (sideHit m0 e0 m1 e1 v1) = false /\
  collideWith 0 sampleCollide sampleRandom 0%nat sideOld d
    (sideHit m0 e0 m1 e1 v1) 1%nat
  = resolveNew 0 0%nat 1%nat sideOld d (sideHit m0 e0 m1 e1 v1).
Proof.
  split; [|split].
  - unfold resolvesX, smallStepUp, isBlockedX, isBlockedY, Rgtb, abs. simpl.
    decide_R. reflexivity.
  - unfold resolvesY, smallStepUp, isBlockedX, isBlockedY, Rgtb, abs. simpl.
    decide_R. reflexivity.
  - unfold collideWith, isOverlapping, sampleCollide, abs. simpl.
    decide_R. reflexivity.
Qed.

(** The first box of [topHit] has entered the second one from above:
    the loop round reaches the response, which resolves the vertical
    axis and not the horizontal one. *)
Lemma topHit_meets (m0 e0 m1 e1 v1 : R) (d : bool) :
  resolvesY 0 0%nat 1%nat topOld (topHit m0 e0 m1 e1 v1) = true /\
  resolvesX 0 0%nat 1%nat topOld (topHit m0 e0 m1 e1 v1) = false /\
  collideWith 0 sampleCollide sampleRandom 0%nat topOld d
    (topHit m0 e0 m1 e1 v1) 1%nat
  = resolveNew 0 0%nat 1%nat topOld d (topHit m0 e0 m1 e1 v1).
Proof.
  split; [|split].
  - unfold resolvesY, smallStepUp, isBlockedX, isBlockedY, Rgtb, abs. simpl.
    decide_R. reflexivity.
  - unfold resolvesX, smallStepUp, isBlockedX, isBlockedY, Rgtb, abs. simpl.
    decide_R. reflexivity.
  - unfold collideWith, isOverlapping, sampleCollide, abs. simpl.
    decide_R. reflexivity.
Qed.

(** ** One update of the first of two boxes *)

(** The integration step of a sample box that is within the speed
    limit, without gravity. *)
Lemma integrateObject_sampleBody (ms : R) (p v : Vector2) (m e : R) :
  - ms <= x v <= ms -> - ms <= y v <= ms ->
  integrateObject 0 ms (sampleBody p v m e)
  = sampleBody (vec (x p + x v) (y p + y v)) v m e.
Proof.
  intros Hx Hy. destruct p as [px py], v as [vx vy]. cbn [x y] in *.
  unfold integrateObject, sampleBody. cbn.
  unfold clamp, Rgtb.
  replace (Rltb vx (- ms)) with false by (symmetry; apply Rltb_false; lra).
  replace (Rltb ms vx) with false by (symmetry; apply Rltb_false; lra).
  replace (Rltb vy (- ms)) with false by (symmetry; apply Rltb_false; lra).
  replace (Rltb ms vy) with false by (symmetry; apply Rltb_false; lra).
  unfold set_angle, set_angleVelocity, set_pos, set_velocity. cbn.
  replace (1 * vx) with vx by ring.
  replace (1 * vy + 0 * 1) with vy by ring.
  replace (0 * 1) with 0 by ring.
  replace (0 + 0) with 0 by ring.
  reflexivity.
Qed.

(** The update of the first of two collidable objects, in a level
    without tiles: after the integration step, the round of the loop
    against the second object is all that is left. *)
Lemma update_first_of_two (g ms : R) (w : World) :
  engineObjectsCollide w = [0; 1]%nat ->
  parent (objects w 0%nat) = None ->
  mass (objects w 0%nat) <> 0 ->
  groundObject (objects w 0%nat) = NoGround ->
  collideSolidObjects (objects w 0%nat) = true ->
  update g ms true noTiles sampleCollide sampleRandom 0%nat w
  = collideWith g sampleCollide sampleRandom 0%nat (pos (objects w 0%nat))
      (Rltb (y (velocity (integrateObject g ms (objects w 0%nat)))) 0)
      (integrate g ms 0%nat w) 1%nat.
Proof.
  intros He Hp Hm Hg Hc. unfold update. rewrite Hp. cbv zeta.
  rewrite tilePass_noTiles.
  assert (E0 : objects (integrate g ms 0%nat w) 0%nat
               = integrateObject g ms (objects w 0%nat)).
  { unfold integrate. apply modify_same. }
  rewrite E0.
  change (mass (integrateObject g ms (objects w 0%nat))) with (mass (objects w 0%nat)).
  rewrite (proj2 (truthy_true _) Hm). cbn [negb orb].
  assert (F : applyFriction 0%nat (integrate g ms 0%nat w) = integrate g ms 0%nat w).
  { unfold applyFriction. rewrite E0.
    change (groundObject (integrateObject g ms (objects w 0%nat)))
      with (groundObject (objects w 0%nat)).
    rewrite Hg. reflexivity. }
  rewrite F. unfold objectPass. rewrite E0.
  change (collideSolidObjects (integrateObject g ms (objects w 0%nat)))
    with (collideSolidObjects (objects w 0%nat)).
  rewrite Hc.
  change (engineObjectsCollide (integrate g ms 0%nat w)) with (engineObjectsCollide w).
  rewrite He. cbn [fold_left].
  assert (C0 : forall op d w1,
            collideWith g sampleCollide sampleRandom 0%nat op d w1 0%nat = w1).
  { intros op d w1. unfold collideWith. rewrite Nat.eqb_refl, !orb_true_r.
    reflexivity. }
  rewrite C0, copy_eq. reflexivity.
Qed.
(** A box that falls onto a fixed box: the update puts it on top of
    the fixed box, stops its fall and makes the fixed box its ground. *)
Lemma stand_tick :
  let w' := update 0 1 true noTiles sampleCollide sampleRandom 0%nat standWorld in
  pos (objects (integrate 0 1 0%nat standWorld) 0%nat) = vec 0 (1 / 2) /\
  pos (objects w' 0%nat) = vec 0 (1001 / 1000) /\
  y (velocity (objects w' 0%nat)) = 0 /\
  groundObject (objects w' 0%nat) = ObjectGround 1%nat.
Proof.
  cbv zeta.
  assert (I0 : integrateObject 0 1 (objects standWorld 0%nat)
               = sampleBody (vec 0 (1 / 2)) (vec 0 (-1)) 1 0).
  { change (objects standWorld 0%nat)
      with (sampleBody (vec 0 (3 / 2)) (vec 0 (-1)) 1 0).
    rewrite integrateObject_sampleBody by (cbn [x y]; lra).
    cbn [x y]. f_equal. f_equal; lra. }
  assert (E0 : objects (integrate 0 1 0%nat standWorld) 0%nat
               = sampleBody (vec 0 (1 / 2)) (vec 0 (-1)) 1 0).
  { unfold integrate. rewrite modify_same. exact I0. }
  split; [rewrite E0; reflexivity|].
  rewrite update_first_of_two;
    [|reflexivity|reflexivity|cbn; lra|reflexivity|reflexivity].
  rewrite I0.
  assert (E1 : objects (integrate 0 1 0%nat standWorld) 1%nat
               = sampleBody (vec 0 0) (vec 0 0) 0 0) by reflexivity.
  change (pos (objects standWorld 0%nat)) with (vec 0 (3 / 2)).
  remember (integrate 0 1 0%nat standWorld) as w1 eqn:Hw1. clear Hw1.
  cbn [velocity sampleBody y]. decide_R.
  assert (Hne : 0%nat <> 1%nat) by discriminate.
  assert (C1 : collideWith 0 sampleCollide sampleRandom 0%nat (vec 0 (3 / 2)) true w1 1%nat
               = resolveNew 0 0%nat 1%nat (vec 0 (3 / 2)) true w1).
  { unfold collideWith. rewrite E0, E1. unfold isOverlapping, sampleCollide, abs.
    simpl. decide_R. reflexivity. }
  rewrite C1.
  assert (HY : resolvesY 0 0%nat 1%nat (vec 0 (3 / 2)) w1 = true).
  { unfold resolvesY, smallStepUp, isBlockedX, isBlockedY, Rgtb, abs.
    rewrite E0, E1. simpl. decide_R. reflexivity. }
  assert (HX : resolvesX 0 0%nat 1%nat (vec 0 (3 / 2)) w1 = false).
  { unfold resolvesX, smallStepUp, isBlockedX, isBlockedY, Rgtb, abs.
    rewrite E0, E1. simpl. decide_R. reflexivity. }
  rewrite resolveNew_eq. cbv zeta. rewrite HY, HX.
  unfold resolveY. store_simpl. rewrite E0, E1.
  cbn [mass groundObject sampleBody isGround andb]. decide_R. cbn [negb orb].
  store_simpl.
  cbn. unfold sign. decide_R. unfold epsilon. rewrite E0. cbn.
  split; [f_equal; lra|]. split; [lra | reflexivity].
Qed.

Lemma length_half_up :
  Vec.length (Vec.subtract (vec 0 (1 / 2)) (vec 0 0)) = 1 / 2.
Proof.
  unfold Vec.length, Vec.lengthSquared, Vec.subtract. cbn [x y].
  replace ((0 - 0) * (0 - 0) + (1 / 2 - 0) * (1 / 2 - 0)) with ((1 / 2) * (1 / 2))
    by lra.
  apply sqrt_square. lra.
Qed.

(** A box at rest inside a fixed box: the update pushes it away, by a
    velocity of 1/1000 upwards, and does not move it. *)
Lemma stuck_tick :
  let w' := update 0 1 true noTiles sampleCollide sampleRandom 0%nat stuckWorld in
  velocity (objects stuckWorld 0%nat) = vec 0 0 /\
  velocity (objects w' 0%nat) = vec 0 (1 / 1000) /\
  pos (objects w' 0%nat) = vec 0 (1 / 2).
Proof.
  cbv zeta. split; [reflexivity|].
  assert (I0 : integrateObject 0 1 (objects stuckWorld 0%nat)
               = sampleBody (vec 0 (1 / 2)) (vec 0 0) 1 0).
  { change (objects stuckWorld 0%nat)
      with (sampleBody (vec 0 (1 / 2)) (vec 0 0) 1 0).
    rewrite integrateObject_sampleBody by (cbn [x y]; lra).
    cbn [x y]. f_equal. f_equal; lra. }
  assert (E0 : objects (integrate 0 1 0%nat stuckWorld) 0%nat
               = sampleBody (vec 0 (1 / 2)) (vec 0 0) 1 0).
  { unfold integrate. rewrite modify_same. exact I0. }
  rewrite update_first_of_two;
    [|reflexivity|reflexivity|cbn; lra|reflexivity|reflexivity].
  rewrite I0.
  assert (E1 : objects (integrate 0 1 0%nat stuckWorld) 1%nat
               = sampleBody (vec 0 0) (vec 0 0) 0 0) by reflexivity.
  change (pos (objects stuckWorld 0%nat)) with (vec 0 (1 / 2)).
  remember (integrate 0 1 0%nat stuckWorld) as w1 eqn:Hw1. clear Hw1.
  cbn [velocity sampleBody y]. decide_R.
  assert (Hne : 0%nat <> 1%nat) by discriminate.
  assert (C1 : collideWith 0 sampleCollide sampleRandom 0%nat (vec 0 (1 / 2)) false w1 1%nat
               = pushAway sampleRandom 0%nat 1%nat (vec 0 (1 / 2)) w1).
  { unfold collideWith. rewrite E0, E1. unfold isOverlapping, sampleCollide, abs.
    simpl. decide_R. reflexivity. }
  rewrite C1. unfold pushAway. rewrite E1.
  cbn [pos sampleBody]. rewrite length_half_up. decide_R.
  store_simpl. rewrite E1. cbn [mass sampleBody]. decide_R.
  store_simpl. rewrite E0. cbn. unfold pushAwayAccel.
  unfold Vec.add, Vec.scale, Vec.subtract. cbn [x y].
  split; [f_equal; lra | reflexivity].
Qed.


(** * The statements about the update at sample data *)

Lemma tile_pass_leaves_object_clear_witness :
  let w' := update 0 1 true sampleTiles sampleCollide sampleRandom 0%nat landingWorld in
  collideTiles (objects landingWorld 0%nat) = true /\
  sampleTiles (pos (objects landingWorld 0%nat)) (size (objects landingWorld 0%nat)) 0%nat
  = false /\
  pos (objects (integrate 0 1 0%nat landingWorld) 0%nat) = vec 0 (- (1 / 2)) /\
  sampleTiles (pos (objects (integrate 0 1 0%nat landingWorld) 0%nat))
              (size (objects (integrate 0 1 0%nat landingWorld) 0%nat)) 0%nat = true /\
  (let w'' := tilePass 0 sampleTiles 0%nat (pos (objects landingWorld 0%nat)) true
                (integrate 0 1 0%nat landingWorld) in
   sampleTiles (pos (objects w'' 0%nat)) (size (objects w'' 0%nat)) 0%nat = false) /\
  pos (objects w' 0%nat) = vec 0 (1 / 2) /\
  y (velocity (objects w' 0%nat)) = 0 /\
  groundObject (objects w' 0%nat) = TileGround /\
  sampleTiles (pos (objects w' 0%nat)) (size (objects w' 0%nat)) 0%nat = false.
Proof.
  cbv zeta.
  assert (Hc : collideTiles (objects landingWorld 0%nat) = true) by reflexivity.
  assert (Hold : sampleTiles (pos (objects landingWorld 0%nat))
                   (size (objects landingWorld 0%nat)) 0%nat = false).
  { unfold sampleTiles. simpl. decide_R. reflexivity. }
  destruct (tile_pass_leaves_object_clear 0 1 true sampleTiles sampleCollide
              sampleRandom 0%nat landingWorld Hc Hold) as [Hpass Hupd].
  destruct landing_tick as [Lp [Lv Lg]].
  split; [exact Hc|]. split; [exact Hold|].
  split; [rewrite integrate_landing; reflexivity|].
  split; [rewrite integrate_landing; unfold sampleTiles; simpl; decide_R; reflexivity|].
  split; [exact (Hpass true _ (respects_integrate 0 1 0%nat landingWorld))|].
  split; [exact Lp|]. split; [exact Lv|]. split; [exact Lg|].
  apply Hupd; [reflexivity | reflexivity | simpl; lra].
Defined.

Lemma inelastic_pair_takes_common_velocity_witness :
  (let w := sideHit 1 0 2 0 0 in
   let w' := collideWith 0 sampleCollide sampleRandom 0%nat sideOld false w 1%nat in
   resolvesX 0 0%nat 1%nat sideOld w = true /\
   x (velocity (objects w 0%nat)) = 1 /\ x (velocity (objects w 1%nat)) = 0 /\
   x (velocity (objects w' 0%nat)) = 1 / 3 /\
   x (velocity (objects w' 1%nat)) = 1 / 3) /\
  (let w := topHit 1 0 2 0 0 in
   let w' := collideWith 0 sampleCollide sampleRandom 0%nat topOld true w 1%nat in
   resolvesY 0 0%nat 1%nat topOld w = true /\
   isGround (groundObject (objects w 1%nat)) && true = false /\
   y (velocity (objects w 0%nat)) = -1 /\ y (velocity (objects w 1%nat)) = 0 /\
   y (velocity (objects w' 0%nat)) = - (1 / 3) /\
   y (velocity (objects w' 1%nat)) = - (1 / 3)).
Proof.
  assert (Hne : 0%nat <> 1%nat) by discriminate.
  split; cbv zeta.
  - destruct (sideHit_meets 1 0 2 0 0 false) as [Hx [_ Hc]]. rewrite Hc.
    destruct (inelastic_pair_takes_common_velocity 0 0%nat 1%nat sideOld false
                (sideHit 1 0 2 0 0) Hne) as [HX _];
      [simpl; lra | simpl; lra | reflexivity | reflexivity |].
    destruct (HX Hx) as [H0 H1]. rewrite H0, H1.
    split; [exact Hx|]. simpl. repeat split; lra.
  - destruct (topHit_meets 1 0 2 0 0 true) as [Hy [_ Hc]]. rewrite Hc.
    destruct (inelastic_pair_takes_common_velocity 0 0%nat 1%nat topOld true
                (topHit 1 0 2 0 0) Hne) as [_ HY];
      [simpl; lra | simpl; lra | reflexivity | reflexivity |].
    destruct (HY Hy eq_refl) as [H0 H1]. rewrite H0, H1.
    split; [exact Hy|]. simpl. repeat split; lra.
Defined.

Lemma elastic_equal_mass_pair_swaps_velocity_witness :
  (let w := sideHit 1 0 1 1 (-1) in
   let w' := collideWith 0 sampleCollide sampleRandom 0%nat sideOld false w 1%nat in
   elasticity (objects w 0%nat) = 0 /\ elasticity (objects w 1%nat) = 1 /\
   resolvesX 0 0%nat 1%nat sideOld w = true /\
   x (velocity (objects w 0%nat)) = 1 /\ x (velocity (objects w 1%nat)) = -1 /\
   x (velocity (objects w' 0%nat)) = -1 /\
   x (velocity (objects w' 1%nat)) = 1) /\
  (let w := topHit 1 1 1 0 2 in
   let w' := collideWith 0 sampleCollide sampleRandom 0%nat topOld true w 1%nat in
   elasticity (objects w 0%nat) = 1 /\ elasticity (objects w 1%nat) = 0 /\
   resolvesY 0 0%nat 1%nat topOld w = true /\
   isGround (groundObject (objects w 1%nat)) && true = false /\
   y (velocity (objects w 0%nat)) = -1 /\ y (velocity (objects w 1%nat)) = 2 /\
   y (velocity (objects w' 0%nat)) = 2 /\
   y (velocity (objects w' 1%nat)) = -1).
Proof.
  assert (Hne : 0%nat <> 1%nat) by discriminate.
  split; cbv zeta.
  - destruct (sideHit_meets 1 0 1 1 (-1) false) as [Hx [_ Hc]]. rewrite Hc.
    destruct (elastic_equal_mass_pair_swaps_velocity 0 0%nat 1%nat sideOld false
                (sideHit 1 0 1 1 (-1)) Hne) as [HX _];
      [simpl; lra | reflexivity | simpl; apply Rmax_right; lra |].
    destruct (HX Hx) as [H0 H1]. rewrite H0, H1.
    split; [reflexivity|]. split; [reflexivity|]. split; [exact Hx|].
    repeat split; reflexivity.
  - destruct (topHit_meets 1 1 1 0 2 true) as [Hy [_ Hc]]. rewrite Hc.
    destruct (elastic_equal_mass_pair_swaps_velocity 0 0%nat 1%nat topOld true
                (topHit 1 1 1 0 2) Hne) as [_ HY];
      [simpl; lra | reflexivity | simpl; apply Rmax_left; lra |].
    destruct (HY Hy eq_refl) as [H0 H1]. rewrite H0, H1.
    split; [reflexivity|]. split; [reflexivity|]. split; [exact Hy|].
    repeat split; reflexivity.
Defined.

Lemma fixed_mass_out_of_reach_witness :
  (let w' := update 0 1 true noTiles sampleCollide sampleRandom 0%nat standWorld in
   mass (objects standWorld 1%nat) = 0 /\
   pos (objects (integrate 0 1 0%nat standWorld) 0%nat) = vec 0 (1 / 2) /\
   pos (objects w' 0%nat) = vec 0 (1001 / 1000) /\
   y (velocity (objects w' 0%nat)) = 0 /\
   groundObject (objects w' 0%nat) = ObjectGround 1%nat /\
   pos (objects w' 1%nat) = vec 0 0 /\
   velocity (objects w' 1%nat) = vec 0 0) /\
  (let w' := update 0 1 true noTiles sampleCollide sampleRandom 0%nat stuckWorld in
   mass (objects stuckWorld 1%nat) = 0 /\
   velocity (objects stuckWorld 0%nat) = vec 0 0 /\
   velocity (objects w' 0%nat) = vec 0 (1 / 1000) /\
   pos (objects w' 1%nat) = vec 0 0 /\
   velocity (objects w' 1%nat) = vec 0 0) /\
  update 0 1 true noTiles sampleCollide sampleRandom 1%nat standWorld
  = integrate 0 1 1%nat standWorld.
Proof.
  assert (Hne : 1%nat <> 0%nat) by discriminate.
  split; [|split]; cbv zeta.
  - destruct (fixed_mass_out_of_reach 0 1 true noTiles sampleCollide sampleRandom
                0%nat standWorld) as [_ H].
    destruct (H 1%nat Hne) as [Hp Hv].
    destruct stand_tick as [S0 [S1 [S2 S3]]].
    split; [reflexivity|]. split; [exact S0|]. split; [exact S1|].
    split; [exact S2|]. split; [exact S3|].
    split; [rewrite Hp; reflexivity | rewrite Hv; reflexivity].
  - destruct (fixed_mass_out_of_reach 0 1 true noTiles sampleCollide sampleRandom
                0%nat stuckWorld) as [_ H].
    destruct (H 1%nat Hne) as [Hp Hv].
    destruct stuck_tick as [S0 [S1 S2]].
    split; [reflexivity|]. split; [exact S0|]. split; [exact S1|].
    split; [rewrite Hp; reflexivity | rewrite Hv; reflexivity].
  - destruct (fixed_mass_out_of_reach 0 1 true noTiles sampleCollide sampleRandom
                1%nat standWorld) as [H _].
    exact (H eq_refl).
Defined.



Lemma applied_force_respects_mass_witness :
  let o := sampleBody (vec 0 0) (vec 3 4) 2 0 in
  let fixed := sampleBody (vec 0 0) (vec 3 4) 0 0 in
  mass o <> 0 /\
  x (velocity (applyAcceleration (vec 1 (-2)) o)) = 4 /\
  y (velocity (applyAcceleration (vec 1 (-2)) o)) = 2 /\
  x (velocity (applyForce (vec 1 (-2)) o)) = 7 / 2 /\
  y (velocity (applyForce (vec 1 (-2)) o)) = 3 /\
  mass fixed = 0 /\
  velocity (applyAcceleration (vec 1 (-2)) fixed) = vec 3 4 /\
  velocity (applyForce (vec 1 (-2)) fixed) = vec 3 4.
Proof.
  cbv zeta.
  assert (Hm : mass (sampleBody (vec 0 0) (vec 3 4) 2 0) <> 0) by (simpl; lra).
  destruct (applied_force_respects_mass (sampleBody (vec 0 0) (vec 3 4) 2 0)
              (vec 1 (-2))) as [_ H].
  destruct (H Hm) as [A1 [A2 [F1 [F2 _]]]].
  destruct (applied_force_respects_mass (sampleBody (vec 0 0) (vec 3 4) 0 0)
              (vec 1 (-2))) as [H0 _].
  destruct (H0 eq_refl) as [_ [_ [V1 V2]]].
  split; [exact Hm|].
  split; [rewrite A1; simpl; lra|]. split; [rewrite A2; simpl; lra|].
  split; [rewrite F1; simpl; lra|]. split; [rewrite F2; simpl; lra|].
  split; [reflexivity|]. split; [rewrite V1; reflexivity | rewrite V2; reflexivity].
Defined.

(** * The utility functions *)

(** ** Modulo *)

(** ** Truncation and remainder *)

Lemma truncate_bounds (r : R) :
  (0 <= r -> 0 <= IZR (truncate r) <= r /\ r < IZR (truncate r) + 1) /\
  (r <= 0 -> r <= IZR (truncate r) <= 0 /\ IZR (truncate r) - 1 < r).
Proof.
  unfold truncate. split; intros Hr.
  - destruct (Rltb r 0) eqn:E; [apply Rltb_true in E; lra|].
    destruct (base_Int_part r) as [A B]. split; [split|]; try lra.
    apply IZR_le. apply Z.lt_succ_r. apply lt_IZR. rewrite succ_IZR. lra.
  - destruct (Rltb r 0) eqn:E.
    + destruct (base_Int_part (- r)) as [A B]. rewrite opp_IZR.
      apply Rltb_true in E.
      assert (0 <= IZR (Int_part (- r))).
      { apply IZR_le. apply Z.lt_succ_r. apply lt_IZR. rewrite succ_IZR. lra. }
      lra.
    + apply Rltb_false in E. assert (r = 0) by lra. subst r.
      destruct (base_Int_part 0) as [A B].
      assert (0 <= IZR (Int_part 0)).
      { apply IZR_le. apply Z.lt_succ_r. apply lt_IZR. rewrite succ_IZR. lra. }
      lra.
Qed.

(** The remainder is smaller than the divisor and has the sign of the
    dividend. *)
Lemma jsRem_bounds (a b : R) :
  0 < b ->
  (0 <= a -> 0 <= jsRem a b < b) /\ (a <= 0 -> - b < jsRem a b <= 0).
Proof.
  intros Hb. unfold jsRem.
  assert (Hi : 0 < / b) by (apply Rinv_0_lt_compat; lra).
  destruct (truncate_bounds (a / b)) as [P N].
  assert (E : a = b * (a / b)) by (field; lra).
  revert P N. generalize (IZR (truncate (a / b))) as q.
  revert E. generalize (a / b) as d. intros d E q P N.
  split; intros Ha.
  - assert (Hq : 0 <= d) by (subst a; nra).
    destruct (P Hq) as [[A B] C]. subst a. split; nra.
  - assert (Hq : d <= 0) by (subst a; nra).
    destruct (N Hq) as [[A B] C]. subst a. split; nra.
Qed.

Lemma Int_part_0 : Int_part 0 = 0%Z.
Proof. symmetry; apply Int_part_spec; simpl; lra. Qed.

Lemma truncate_opp (r : R) : truncate (- r) = (- truncate r)%Z.
Proof.
  unfold truncate.
  destruct (Rltb r 0) eqn:E; destruct (Rltb (- r) 0) eqn:E'.
  - apply Rltb_true in E, E'. lra.
  - rewrite Z.opp_involutive. reflexivity.
  - rewrite Ropp_involutive. reflexivity.
  - apply Rltb_false in E, E'. assert (r = 0) by lra. subst r.
    rewrite Ropp_0, Int_part_0. reflexivity.
Qed.

Lemma jsRem_opp_divisor (a b : R) : jsRem a (- b) = jsRem a b.
Proof.
  unfold jsRem. replace (a / - b) with (- (a / b)).
  - rewrite truncate_opp, opp_IZR. ring.
  - destruct (Req_dec_T b 0) as [->|Hb].
    + unfold Rdiv. rewrite Ropp_0, Rinv_0. ring.
    + field; exact Hb.
Qed.

(** The remainder differs from the dividend by a whole multiple of the
    divisor. *)
Lemma jsRem_multiple (a b : R) :
  a = IZR (truncate (a / b)) * b + jsRem a b.
Proof. unfold jsRem; ring. Qed.

Lemma jsRem_abs_bound (a b : R) : 0 < b -> - b < jsRem a b < b.
Proof.
  intros Hb. destruct (jsRem_bounds a b Hb) as [P N].
  destruct (Rle_dec 0 a) as [Ha|Ha].
  - specialize (P Ha). lra.
  - assert (Ha' : a <= 0) by lra. specialize (N Ha'). lra.
Qed.

(** Two whole multiples of [b] that differ by less than [b] are equal. *)
Lemma multiples_close (b : R) (k k' : Z) (m m' : R) :
  0 < b -> IZR k * b + m = IZR k' * b + m' -> - b < m' - m < b -> m' = m.
Proof.
  intros Hb E Hm.
  assert (D : IZR (k - k') * b = m' - m) by (rewrite minus_IZR; lra).
  assert (Hk : (k - k' = 0)%Z).
  { assert (-1 < IZR (k - k') < 1) by (split; nra).
    destruct H as [A B]. apply lt_IZR in B.
    assert (A' : (-1 < k - k')%Z) by (apply lt_IZR; exact A). lia. }
  rewrite Hk in D. lra.
Qed.

(** X6.  [mod(a, b)] has no value at divisor 0.  At a positive divisor it
    is the one number of [0, b) that differs from [a] by a whole multiple
    of [b], whatever the sign of [a]; at a negative divisor it is the one
    such number of (b, 0]. *)
Theorem mod_wraps_into_the_divisor_range (a b : R) :
  (b = 0 -> mod_ a b = None) /\
  (0 < b ->
   exists (m : R) (k : Z),
     mod_ a b = Some m /\ 0 <= m < b /\ a = IZR k * b + m /\
     forall (m' : R) (k' : Z), 0 <= m' < b -> a = IZR k' * b + m' -> m' = m) /\
  (b < 0 ->
   exists (m : R) (k : Z),
     mod_ a b = Some m /\ b < m <= 0 /\ a = IZR k * b + m /\
     forall (m' : R) (k' : Z), b < m' <= 0 -> a = IZR k' * b + m' -> m' = m).
Proof.
  unfold mod_. split; [|split].
  - intros ->. replace (truthy 0) with false; [reflexivity|].
    symmetry; apply truthy_false; reflexivity.
  - intros Hb.
    replace (truthy b) with true by (symmetry; apply truthy_true; lra).
    pose proof (jsRem_abs_bound a b Hb) as H1.
    pose proof (jsRem_multiple a b) as M1.
    pose proof (jsRem_multiple (jsRem a b + b) b) as M2.
    destruct (jsRem_bounds (jsRem a b + b) b Hb) as [P _].
    assert (H2 : 0 <= jsRem a b + b) by lra. specialize (P H2).
    set (m := jsRem (jsRem a b + b) b) in *.
    set (k := (truncate (a / b) + truncate ((jsRem a b + b) / b) - 1)%Z).
    assert (Ek : a = IZR k * b + m).
    { unfold k. rewrite minus_IZR, plus_IZR. lra. }
    exists m, k. split; [reflexivity|]. split; [exact P|]. split; [exact Ek|].
    intros m' k' Hm' E'. apply (multiples_close b k k' m m' Hb); lra.
  - intros Hb.
    replace (truthy b) with true by (symmetry; apply truthy_true; lra).
    assert (Hb' : 0 < - b) by lra.
    pose proof (jsRem_abs_bound a (- b) Hb') as H1.
    rewrite jsRem_opp_divisor in H1.
    pose proof (jsRem_multiple a b) as M1.
    pose proof (jsRem_multiple (jsRem a b + b) b) as M2.
    destruct (jsRem_bounds (jsRem a b + b) (- b) Hb') as [_ N].
    rewrite jsRem_opp_divisor in N.
    assert (H2 : jsRem a b + b <= 0) by lra. specialize (N H2).
    set (m := jsRem (jsRem a b + b) b) in *.
    set (k := (truncate (a / b) + truncate ((jsRem a b + b) / b) - 1)%Z).
    assert (Ek : a = IZR k * b + m).
    { unfold k. rewrite minus_IZR, plus_IZR. lra. }
    exists m, k. split; [reflexivity|]. split; [lra|]. split; [exact Ek|].
    intros m' k' Hm' E'.
    apply (multiples_close (- b) (- k) (- k') m m' Hb'); [|lra].
    rewrite !opp_IZR. lra.
Qed.

(** ** Clamping and interpolation *)

(** ** clamp, percent, lerp and smoothStep *)

Lemma clamp_cases (v lo hi : R) :
  (v < lo /\ clamp v lo hi = lo) \/
  (lo <= v /\ hi < v /\ clamp v lo hi = hi) \/
  (lo <= v <= hi /\ clamp v lo hi = v).
Proof.
  unfold clamp, Rgtb.
  destruct (Rltb v lo) eqn:E1.
  - left. apply Rltb_true in E1. auto.
  - apply Rltb_false in E1. destruct (Rltb hi v) eqn:E2.
    + right; left. apply Rltb_true in E2. auto.
    + right; right. apply Rltb_false in E2. auto.
Qed.

(** X7.  Between ordered bounds [clamp] returns a number of the range,
    the value itself when that is in the range, and clamping twice is
    clamping once.  With the bounds the wrong way round it never returns
    the value: it returns the first bound below it and the second bound
    otherwise. *)
Theorem clamp_stays_in_range (v lo hi : R) :
  (lo <= hi ->
   lo <= clamp v lo hi <= hi /\
   (lo <= v <= hi -> clamp v lo hi = v) /\
   clamp (clamp v lo hi) lo hi = clamp v lo hi) /\
  (hi < lo ->
   (v < lo -> clamp v lo hi = lo) /\ (lo <= v -> clamp v lo hi = hi)).
Proof.
  split.
  - intros Hb.
    assert (R1 : forall u, lo <= clamp u lo hi <= hi).
    { intros u. destruct (clamp_cases u lo hi) as [[A ->]|[(A & B & ->)|[A ->]]]; lra. }
    assert (R2 : forall u, lo <= u <= hi -> clamp u lo hi = u).
    { intros u Hu.
      destruct (clamp_cases u lo hi) as [[A E]|[(A & B & E)|[A E]]]; rewrite E; lra. }
    split; [apply R1|]. split; [apply R2|]. apply R2, R1.
  - intros Hb. split; intros Hv;
      destruct (clamp_cases v lo hi) as [[A E]|[(A & B & E)|[A E]]]; rewrite E; lra.
Qed.

Lemma clamp01_range (p : R) : 0 <= clamp p 0 1 <= 1.
Proof.
  destruct (clamp_cases p 0 1) as [[A ->]|[(A & B & ->)|[A ->]]]; lra.
Qed.

Lemma clamp01_id (p : R) : 0 <= p <= 1 -> clamp p 0 1 = p.
Proof.
  intros Hp.
  destruct (clamp_cases p 0 1) as [[A E]|[(A & B & E)|[A E]]]; rewrite E; lra.
Qed.

(** X8.  [percent] is a number of [0, 1], and 0 when the two bounds are
    equal, where it does not divide.  Between distinct bounds, in either
    order, [lerp] undoes [percent] on every value between the bounds, and
    [percent] undoes [lerp] up to the clamping of the fraction. *)
Theorem percent_and_lerp_are_inverse (v p lo hi : R) :
  0 <= percent v lo hi <= 1 /\
  (lo = hi -> percent v lo hi = 0) /\
  (lo <> hi ->
   (lo <= v <= hi \/ hi <= v <= lo -> lerp (percent v lo hi) lo hi = v) /\
   percent (lerp p lo hi) lo hi = clamp p 0 1).
Proof.
  unfold percent. split; [|split].
  - destruct (truthy (hi - lo)); [apply clamp01_range | lra].
  - intros ->. replace (truthy (hi - hi)) with false; [reflexivity|].
    symmetry; apply truthy_false; ring.
  - intros Hne.
    replace (truthy (hi - lo)) with true by (symmetry; apply truthy_true; lra).
    split.
    + intros Hv.
      assert (Ht : 0 <= (v - lo) / (hi - lo) <= 1).
      { destruct Hv as [Hv|Hv].
        - assert (0 < hi - lo) by lra.
          assert (0 < / (hi - lo)) by (apply Rinv_0_lt_compat; lra).
          assert ((hi - lo) * / (hi - lo) = 1) by (field; lra).
          unfold Rdiv. split; nra.
        - assert (0 < lo - hi) by lra.
          assert (0 < / (lo - hi)) by (apply Rinv_0_lt_compat; lra).
          assert ((lo - hi) * / (lo - hi) = 1) by (field; lra).
          replace ((v - lo) / (hi - lo)) with ((lo - v) * / (lo - hi))
            by (field; lra).
          split; nra. }
      unfold lerp. rewrite (clamp01_id _ (clamp01_range _)).
      rewrite (clamp01_id _ Ht). field; lra.
    + unfold lerp.
      replace ((lo + clamp p 0 1 * (hi - lo) - lo) / (hi - lo))
        with (clamp p 0 1) by (field; lra).
      apply clamp01_id, clamp01_range.
Qed.

(** X9.  [smoothStep] fixes 0 and 1, maps [0, 1] into [0, 1] without ever
    decreasing, and is symmetric about the middle. *)
Theorem smoothStep_eases_the_unit_interval (p q : R) :
  smoothStep 0 = 0 /\ smoothStep 1 = 1 /\
  smoothStep (1 - p) = 1 - smoothStep p /\
  (0 <= p <= 1 -> 0 <= smoothStep p <= 1) /\
  (0 <= p <= q -> q <= 1 -> smoothStep p <= smoothStep q).
Proof.
  unfold smoothStep.
  split; [ring|]. split; [ring|]. split; [ring|]. split.
  - intros [H0 H1]. split.
    + assert (0 <= p * p) by nra. nra.
    + assert (B : 0 <= (1 - p) * (1 - p) * (1 + 2 * p)).
      { apply Rmult_le_pos; nra. }
      nra.
  - intros [H0 Hpq] H1.
    assert (E : q * q * (3 - 2 * q) - p * p * (3 - 2 * p)
                = (q - p) * (3 * (p + q) - 2 * (p * p + p * q + q * q))) by ring.
    assert (A : p * p <= p) by nra.
    assert (B : q * q <= q) by nra.
    assert (C : p * q <= p) by nra.
    assert (D : p * q <= q) by nra.
    assert (F : 0 <= (q - p) * (3 * (p + q) - 2 * (p * p + p * q + q * q))).
    { apply Rmult_le_pos; nra. }
    lra.
Qed.

(** ** Powers of two, waves and boxes *)

(** ** nearestPowerOfTwo, wave and isOverlapping *)

Lemma ceil_bounds (r : R) : r <= IZR (ceil r) < r + 1.
Proof.
  unfold ceil. rewrite opp_IZR. destruct (base_Int_part (- r)) as [A B]. lra.
Qed.

Lemma ceil_IZR (n : Z) : ceil (IZR n) = n.
Proof.
  pose proof (ceil_bounds (IZR n)) as [A B].
  apply le_IZR in A. rewrite <- plus_IZR in B. apply lt_IZR in B. lia.
Qed.

Lemma ln_2_pos : 0 < ln 2.
Proof. rewrite <- ln_1. apply ln_increasing; lra. Qed.

Lemma Rpower_2_log2 (v : R) : 0 < v -> Rpower 2 (ln v / ln 2) = v.
Proof.
  intros Hv. unfold Rpower.
  replace (ln v / ln 2 * ln 2) with (ln v) by (field; pose proof ln_2_pos; lra).
  apply exp_ln; exact Hv.
Qed.

(** X10.  [nearestPowerOfTwo] has no value below 0 and is 0 at 0.  Of a
    positive number it is a power of two with a whole exponent, not less
    than the number and less than twice the number; a power of two is
    returned as it is. *)
Theorem nearestPowerOfTwo_is_the_next_power (v : R) (n : Z) :
  (v < 0 -> nearestPowerOfTwo v = None) /\
  nearestPowerOfTwo 0 = Some 0 /\
  (0 < v ->
   exists k : Z,
     nearestPowerOfTwo v = Some (powerRZ 2 k) /\ v <= powerRZ 2 k < 2 * v) /\
  nearestPowerOfTwo (powerRZ 2 n) = Some (powerRZ 2 n).
Proof.
  assert (Pos : forall u, 0 < u ->
            nearestPowerOfTwo u = Some (powerRZ 2 (ceil (ln u / ln 2)))).
  { intros u Hu. unfold nearestPowerOfTwo.
    replace (Rltb u 0) with false by (symmetry; apply Rltb_false; lra).
    replace (truthy u) with true by (symmetry; apply truthy_true; lra).
    rewrite powerRZ_Rpower by lra. reflexivity. }
  split; [|split; [|split]].
  - intros Hv. unfold nearestPowerOfTwo.
    replace (Rltb v 0) with true by (symmetry; apply Rltb_true; lra).
    reflexivity.
  - unfold nearestPowerOfTwo.
    replace (Rltb 0 0) with false by (symmetry; apply Rltb_false; lra).
    replace (truthy 0) with false by (symmetry; apply truthy_false; reflexivity).
    reflexivity.
  - intros Hv. exists (ceil (ln v / ln 2)). split; [apply Pos; exact Hv|].
    rewrite powerRZ_Rpower by lra.
    destruct (ceil_bounds (ln v / ln 2)) as [A B].
    split.
    + rewrite <- (Rpower_2_log2 v Hv) at 1. apply Rle_Rpower; lra.
    + replace (2 * v) with (Rpower 2 (ln v / ln 2 + 1)).
      * apply Rpower_lt; lra.
      * rewrite Rpower_plus, Rpower_2_log2, Rpower_1 by lra. ring.
  - assert (Hp : 0 < powerRZ 2 n) by (apply powerRZ_lt; lra).
    rewrite (Pos _ Hp). do 2 f_equal.
    rewrite powerRZ_Rpower by lra. unfold Rpower at 1. rewrite ln_exp.
    replace (IZR n * ln 2 / ln 2) with (IZR n)
      by (field; pose proof ln_2_pos; lra).
    apply ceil_IZR.
Qed.

(** X11.  [wave] starts at 0, reaches the amplitude half a period later,
    repeats after each period 1/frequency, and for an amplitude that is
    not negative stays between 0 and the amplitude. *)
Theorem wave_oscillates_within_amplitude (frequency amplitude t : R) :
  wave frequency amplitude 0 = 0 /\
  (frequency <> 0 -> wave frequency amplitude (1 / (2 * frequency)) = amplitude) /\
  (frequency <> 0 ->
   wave frequency amplitude (t + 1 / frequency) = wave frequency amplitude t) /\
  (0 <= amplitude -> 0 <= wave frequency amplitude t <= amplitude).
Proof.
  unfold wave. split; [|split; [|split]].
  - replace (0 * frequency * 2 * PI) with 0 by ring. rewrite cos_0. field.
  - intros Hf. replace (1 / (2 * frequency) * frequency * 2 * PI) with PI
      by (field; exact Hf).
    rewrite cos_PI. field.
  - intros Hf.
    replace ((t + 1 / frequency) * frequency * 2 * PI)
      with (t * frequency * 2 * PI + 2 * PI) by (field; exact Hf).
    rewrite cos_plus, cos_2PI, sin_2PI. f_equal. ring.
  - intros Ha. pose proof (COS_bound (t * frequency * 2 * PI)) as [A B].
    split; nra.
Qed.

Lemma abs_lt_iff (d s : R) : abs d * 2 < s <-> - (s / 2) < d < s / 2.
Proof.
  rewrite abs_Rabs. unfold Rabs. destruct (Rcase_abs d); split; intros; lra.
Qed.

(** X12.  [isOverlapping] does not depend on the order of the two boxes,
    and holds exactly when, on both axes, each box starts before the
    other one ends: boxes that only touch do not overlap. *)
Theorem isOverlapping_is_strict_box_intersection (pA sA pB sB : Vector2) :
  isOverlapping pA sA pB sB = isOverlapping pB sB pA sA /\
  (isOverlapping pA sA pB sB = true <->
   x pA - x sA / 2 < x pB + x sB / 2 /\ x pB - x sB / 2 < x pA + x sA / 2 /\
   y pA - y sA / 2 < y pB + y sB / 2 /\ y pB - y sB / 2 < y pA + y sA / 2).
Proof.
  assert (C : forall p s q u : Vector2,
             isOverlapping p s q u = true <->
             x p - x s / 2 < x q + x u / 2 /\ x q - x u / 2 < x p + x s / 2 /\
             y p - y s / 2 < y q + y u / 2 /\ y q - y u / 2 < y p + y s / 2).
  { intros p s q u. unfold isOverlapping.
    rewrite andb_true_iff, !Rltb_true, !abs_lt_iff. split; intros; lra. }
  split; [|apply C].
  destruct (isOverlapping pA sA pB sB) eqn:E1, (isOverlapping pB sB pA sA) eqn:E2;
    try reflexivity.
  - apply C in E1. assert (E : isOverlapping pB sB pA sA = true) by (apply C; lra).
    congruence.
  - apply C in E2. assert (E : isOverlapping pA sA pB sB = true) by (apply C; lra).
    congruence.
Qed.

(** ** Truncation to 32 bits *)

Lemma toInt32_small (r : R) :
  - 2147483649 < r < 2147483648 -> toInt32 r = truncate r.
Proof.
  intros Hr. unfold toInt32.
  assert (Ht : (- 2 ^ 31 <= truncate r < 2 ^ 31)%Z).
  { unfold truncate. destruct (Rltb r 0) eqn:E.
    - apply Rltb_true in E. destruct (base_Int_part (- r)) as [A B].
      assert (H0 : (0 <= Int_part (- r))%Z).
      { apply Z.lt_succ_r. apply lt_IZR. rewrite succ_IZR. lra. }
      assert (H1 : (Int_part (- r) <= 2 ^ 31)%Z).
      { apply Z.lt_succ_r. apply lt_IZR. rewrite succ_IZR.
        change (2 ^ 31 + 1)%Z with 2147483649%Z. lra. }
      lia.
    - apply Rltb_false in E. destruct (base_Int_part r) as [A B].
      assert (H0 : (0 <= Int_part r)%Z).
      { apply Z.lt_succ_r. apply lt_IZR. rewrite succ_IZR. lra. }
      assert (H1 : (Int_part r < 2 ^ 31)%Z).
      { apply lt_IZR. change (2 ^ 31)%Z with 2147483648%Z. lra. }
      lia. }
  cbv zeta.
  destruct (Z_lt_le_dec (truncate r) 0) as [Hn|Hp].
  - replace (truncate r mod 2 ^ 32)%Z with (truncate r + 2 ^ 32)%Z.
    + replace (2 ^ 31 <=? truncate r + 2 ^ 32)%Z with true
        by (symmetry; apply Z.leb_le; lia).
      lia.
    + apply Z.mod_unique with (q := (-1)%Z); lia.
  - rewrite Z.mod_small by lia.
    replace (2 ^ 31 <=? truncate r)%Z with false
      by (symmetry; apply Z.leb_gt; lia).
    reflexivity.
Qed.

(** The whole number a number between two whole numbers truncates to. *)
Lemma truncate_between (r : R) (lo hi : Z) :
  IZR lo <= r < IZR hi ->
  ((0 <= lo)%Z -> (lo <= truncate r <= hi - 1)%Z) /\
  ((lo < 0 < hi)%Z -> (lo <= truncate r <= hi - 1)%Z) /\
  ((hi <= 0)%Z -> (lo <= truncate r <= hi)%Z).
Proof.
  intros [Hl Hh].
  assert (P : 0 <= r -> forall k : Z, r < IZR k -> (truncate r <= k - 1)%Z).
  { intros H0 k Hk. destruct (truncate_bounds r) as [[A B] _]; [exact H0|].
    apply Z.lt_le_pred. apply lt_IZR. lra. }
  assert (P' : 0 <= r -> forall k : Z, IZR k <= r -> (k <= truncate r)%Z).
  { intros H0 k Hk. destruct (truncate_bounds r) as [[A B] _]; [exact H0|].
    apply Z.lt_succ_r. apply lt_IZR. rewrite succ_IZR. lra. }
  assert (N : r <= 0 -> forall k : Z, IZR k <= r -> (k <= truncate r)%Z).
  { intros H0 k Hk. destruct (truncate_bounds r) as [_ [A B]]; [exact H0|].
    apply le_IZR. lra. }
  assert (N' : r <= 0 -> forall k : Z, r < IZR k -> (truncate r <= k)%Z).
  { intros H0 k Hk. destruct (truncate_bounds r) as [_ [A B]]; [exact H0|].
    apply Z.lt_succ_r. apply lt_IZR. rewrite succ_IZR. lra. }
  split; [|split].
  - intros H0. pose proof (IZR_le _ _ H0) as R0. split; [apply P' | apply P]; lra.
  - intros [H0 H1]. pose proof (IZR_lt _ _ H0) as R0. pose proof (IZR_lt _ _ H1) as R1.
    destruct (Rle_dec 0 r) as [Hr|Hr].
    + split; [|apply P; lra].
      assert (0 <= truncate r)%Z by (apply (P' Hr 0%Z); lra). lia.
    + split; [apply N; lra|].
      assert (truncate r <= 0)%Z by (apply N'; lra). lia.
  - intros H0. pose proof (IZR_le _ _ H0) as R0. split; [apply N | apply N']; lra.
Qed.

(** ** Times as text *)

(** The seconds of [formatTime] take two characters. *)
Lemma two_digits (s : Z) :
  (0 <= s <= 59)%Z ->
  String.length (String.append (if (s <? 10)%Z then "0" else "") (intToString s))
  = 2%nat.
Proof.
  intros Hs.
  assert (H : forallb
            (fun n : nat =>
               Nat.eqb (String.length
                          (String.append
                             (if (Z.of_nat n <? 10)%Z then "0" else "")
                             (intToString (Z.of_nat n)))) 2)
            (seq 0 60) = true) by (vm_compute; reflexivity).
  rewrite forallb_forall in H.
  specialize (H (Z.to_nat s)). rewrite Z2Nat.id in H by lia.
  apply Nat.eqb_eq. apply H. apply in_seq. lia.
Qed.

(** X13.  For a time from 0 up to 2^31 minutes, [formatTime] shows the
    whole minutes, a colon and the whole seconds left, the seconds in
    two characters.  A negative time of less than a minute is shown as
    0 minutes and, after a 0, the seconds with their minus sign. *)
Theorem formatTime_shows_minutes_and_seconds (t : R) :
  (0 <= t < 60 * 2147483648 ->
   exists m s : Z,
     (0 <= m)%Z /\ (0 <= s <= 59)%Z /\
     IZR (60 * m + s) <= t < IZR (60 * m + s) + 1 /\
     formatTime t
     = String.append (intToString m)
         (String.append ":"
            (String.append (if (s <? 10)%Z then "0" else "") (intToString s))) /\
     String.length
       (String.append (if (s <? 10)%Z then "0" else "") (intToString s))
     = 2%nat) /\
  (-60 < t < 0 -> formatTime t = String.append "0:0" (intToString (truncate t))).
Proof.
  split.
  - intros [H0 H1]. unfold formatTime.
    assert (Hq : 0 <= t / 60 < 2147483648) by lra.
    rewrite (toInt32_small (t / 60)) by lra.
    destruct (truncate_bounds (t / 60)) as [[[A0 A1] A2] _]; [lra|].
    unfold jsRem.
    set (m := truncate (t / 60)) in *.
    assert (Hrho : IZR 0 <= t - 60 * IZR m < IZR 60) by lra.
    set (rho := t - 60 * IZR m) in *.
    rewrite (toInt32_small rho) by lra.
    destruct (truncate_bounds rho) as [[[B0 B1] B2] _]; [lra|].
    destruct (truncate_between rho 0%Z 60%Z Hrho) as (T & _ & _).
    specialize (T ltac:(lia)).
    assert (Hm : (0 <= m)%Z) by (apply le_IZR; exact A0).
    exists m, (truncate rho).
    split; [exact Hm|]. split; [lia|]. split.
    { rewrite plus_IZR, mult_IZR. unfold rho in *. lra. }
    split; [|apply two_digits; lia].
    destruct (Rltb rho 10) eqn:E.
    + apply Rltb_true in E.
      assert (Hb : IZR 0 <= rho < IZR 10) by lra.
      destruct (truncate_between rho 0%Z 10%Z Hb) as (T' & _ & _).
      specialize (T' ltac:(lia)).
      replace (truncate rho <? 10)%Z with true by (symmetry; apply Z.ltb_lt; lia).
      reflexivity.
    + apply Rltb_false in E.
      assert (Hb : IZR 10 <= rho < IZR 60) by lra.
      destruct (truncate_between rho 10%Z 60%Z Hb) as (T' & _ & _).
      specialize (T' ltac:(lia)).
      replace (truncate rho <? 10)%Z with false by (symmetry; apply Z.ltb_ge; lia).
      reflexivity.
  - intros [H0 H1]. unfold formatTime.
    rewrite (toInt32_small (t / 60)) by lra.
    destruct (truncate_bounds (t / 60)) as [_ [[A0 A1] A2]]; [lra|].
    assert (Em : truncate (t / 60) = 0%Z).
    { assert (-1 < IZR (truncate (t / 60))) by lra.
      assert (-1 < truncate (t / 60))%Z by (apply lt_IZR; assumption).
      assert (truncate (t / 60) <= 0)%Z by (apply le_IZR; assumption). lia. }
    unfold jsRem. rewrite Em.
    replace (t - 60 * 0) with t by ring.
    replace (Rltb t 10) with true by (symmetry; apply Rltb_true; lra).
    rewrite (toInt32_small t) by lra. reflexivity.
Qed.

(** ** The seeded random function *)

Lemma wrapInt32_mod (n : Z) : (wrapInt32 n mod 2 ^ 32 = n mod 2 ^ 32)%Z.
Proof.
  unfold wrapInt32. cbv zeta.
  pose proof (Z.mod_pos_bound n (2 ^ 32)%Z ltac:(lia)) as B.
  destruct (2 ^ 31 <=? n mod 2 ^ 32)%Z.
  - symmetry. apply Z.mod_unique with (q := (-1)%Z).
    + left. exact B.
    + lia.
  - apply Z.mod_mod. lia.
Qed.

Lemma wrapInt32_range (n : Z) : (- 2 ^ 31 <= wrapInt32 n < 2 ^ 31)%Z.
Proof.
  unfold wrapInt32. cbv zeta.
  pose proof (Z.mod_pos_bound n (2 ^ 32)%Z ltac:(lia)) as B.
  destruct (2 ^ 31 <=? n mod 2 ^ 32)%Z eqn:E.
  - apply Z.leb_le in E. lia.
  - apply Z.leb_gt in E. lia.
Qed.

Lemma wrapInt32_zero (n : Z) : wrapInt32 n = 0%Z <-> (n mod 2 ^ 32 = 0)%Z.
Proof.
  split; intros H.
  - rewrite <- wrapInt32_mod, H. reflexivity.
  - unfold wrapInt32. cbv zeta. rewrite H. reflexivity.
Qed.

Lemma lxor_mod (a b : Z) :
  (Z.lxor a b mod 2 ^ 32 = Z.lxor (a mod 2 ^ 32) (b mod 2 ^ 32))%Z.
Proof.
  apply Z.bits_inj'. intros i Hi. rewrite Z.lxor_spec.
  destruct (Z_lt_le_dec i 32) as [L|L].
  - rewrite !Z.mod_pow2_bits_low by lia. apply Z.lxor_spec.
  - rewrite !Z.mod_pow2_bits_high by lia. reflexivity.
Qed.

Lemma bitXor_zero (a b : Z) :
  bitXor a b = 0%Z -> (a mod 2 ^ 32 = b mod 2 ^ 32)%Z.
Proof.
  unfold bitXor. intros H. apply wrapInt32_zero in H. rewrite lxor_mod in H.
  apply Z.lxor_eq. exact H.
Qed.

(** [x ^ (x << k)] is 0 only for a multiple of 2^32. *)
Lemma xor_shiftLeft_zero (s k : Z) :
  (0 <= k)%Z -> Z.gcd (2 ^ 32) (2 ^ k - 1) = 1%Z ->
  bitXor s (shiftLeft s k) = 0%Z -> (s mod 2 ^ 32 = 0)%Z.
Proof.
  intros Hk Hg H. apply bitXor_zero in H. unfold shiftLeft in H.
  rewrite wrapInt32_mod, Z.shiftl_mul_pow2 in H by lia.
  apply Z.mod_divide; [lia|].
  apply Z.gauss with (m := (2 ^ k - 1)%Z); [|exact Hg].
  apply Z.mod_divide; [lia|].
  replace ((2 ^ k - 1) * s)%Z with (s * 2 ^ k - s)%Z by ring.
  rewrite Zminus_mod, <- H, Z.sub_diag. reflexivity.
Qed.

(** [x ^ (x >>> k)] is 0 only for a multiple of 2^32. *)
Lemma xor_shiftRight_zero (s k : Z) :
  (0 < k)%Z ->
  bitXor s (shiftRightUnsigned s k) = 0%Z -> (s mod 2 ^ 32 = 0)%Z.
Proof.
  intros Hk H. apply bitXor_zero in H. unfold shiftRightUnsigned in H.
  rewrite Z.shiftr_div_pow2 in H by lia.
  pose proof (Z.mod_pos_bound s (2 ^ 32)%Z ltac:(lia)) as B.
  set (u := (s mod 2 ^ 32)%Z) in *.
  assert (P : (2 <= 2 ^ k)%Z).
  { change 2%Z with (2 ^ 1)%Z at 1. apply Z.pow_le_mono_r; lia. }
  assert (D : (0 <= u / 2 ^ k)%Z /\ (u / 2 ^ k < 2 ^ 32)%Z).
  { split; [apply Z.div_pos; lia|].
    apply Z.div_lt_upper_bound; [lia|]. nia. }
  rewrite (Z.mod_small (u / 2 ^ k)) in H by lia.
  destruct (Z.eq_dec u 0) as [E|E]; [exact E|].
  assert (u / 2 ^ k < u)%Z by (apply Z.div_lt; lia). lia.
Qed.

Lemma xorshift_nonzero (s : Z) :
  (s mod 2 ^ 32 <> 0)%Z -> xorshift s <> 0%Z.
Proof.
  intros Hs H. unfold xorshift in H. cbv zeta in H.
  apply xor_shiftLeft_zero in H; [|lia|reflexivity].
  rewrite <- wrapInt32_zero in H.
  assert (E : forall a b, wrapInt32 (bitXor a b) = bitXor a b).
  { intros a b. unfold bitXor.
    pose proof (wrapInt32_range (Z.lxor a b)) as R.
    unfold wrapInt32 at 1. cbv zeta. rewrite wrapInt32_mod.
    reflexivity. }
  rewrite E in H. apply xor_shiftRight_zero in H; [|lia].
  rewrite <- wrapInt32_zero, E in H.
  apply xor_shiftLeft_zero in H; [|lia|reflexivity].
  exact (Hs H).
Qed.

(** X14.  [randSeeded] leaves a seed that is a 32-bit integer.  The
    seed 0 stays 0 and gives the second argument; a seed that is not a
    multiple of 2^32, so any other 32-bit seed, leaves a seed that is
    not 0.  The result is the second argument plus a whole number of
    billionths, fewer than a billion, of the difference: between
    distinct arguments it can be the second one and never the first. *)
Theorem randSeeded_keeps_a_nonzero_seed (a b : R) (randSeed : Z) :
  (- 2 ^ 31 <= snd (randSeeded a b randSeed) < 2 ^ 31)%Z /\
  randSeeded a b 0 = (b, 0%Z) /\
  ((randSeed mod 2 ^ 32 <> 0)%Z -> snd (randSeeded a b randSeed) <> 0%Z) /\
  (exists k : Z,
     (0 <= k < 10 ^ 9)%Z /\
     fst (randSeeded a b randSeed) = b + (a - b) * IZR k / 1000000000) /\
  (b < a -> b <= fst (randSeeded a b randSeed) < a) /\
  (a < b -> a < fst (randSeeded a b randSeed) <= b).
Proof.
  assert (K : exists k : Z,
             (0 <= k < 10 ^ 9)%Z /\
             fst (randSeeded a b randSeed) = b + (a - b) * IZR k / 1000000000).
  { unfold randSeeded. cbv zeta. cbn [fst].
    exists (Z.abs (Z.rem (xorshift randSeed) 1000000000)). split.
    - pose proof (Z.rem_bound_abs (xorshift randSeed) 1000000000 ltac:(lia)). lia.
    - rewrite abs_Rabs, <- abs_IZR. reflexivity. }
  split; [|split; [|split; [|split; [exact K|]]]].
  - unfold randSeeded. cbv zeta. cbn [snd]. unfold xorshift. cbv zeta.
    unfold bitXor at 1. apply wrapInt32_range.
  - unfold randSeeded. cbv zeta.
    replace (xorshift 0) with 0%Z by reflexivity.
    replace (Z.rem 0 1000000000) with 0%Z by reflexivity.
    f_equal. rewrite abs_Rabs, Rabs_R0. lra.
  - intros Hs. unfold randSeeded. cbv zeta. cbn [snd].
    apply xorshift_nonzero. exact Hs.
  - destruct K as (k & [K0 K1] & ->).
    apply IZR_le in K0. apply IZR_lt in K1.
    change (IZR (10 ^ 9)) with 1000000000 in K1.
    split; intros Hab; split; nra.
Qed.

(** * More of Vector2 *)

Lemma vec_eq (a b c d : R) : a = c -> b = d -> vec a b = vec c d.
Proof. intros -> ->. reflexivity. Qed.

(** X15.  [rotate] keeps the length of a vector and the dot product of
    two vectors; rotating by 0 changes nothing, and two rotations in a
    row are the rotation by the sum of the angles.  [invert] is the
    quarter turn [rotate(-PI/2)], so that inverting twice gives the
    opposite vector, not the vector.  [direction] is one of 0, 1, 2, 3,
    and off the diagonals [invert] moves it on by one. *)
Theorem rotate_is_an_isometry (u v : Vector2) (a b : R) :
  Vec.length (Vec.rotate v a) = Vec.length v /\
  Vec.dot (Vec.rotate u a) (Vec.rotate v a) = Vec.dot u v /\
  Vec.rotate v 0 = v /\
  Vec.rotate (Vec.rotate v a) b = Vec.rotate v (a + b) /\
  Vec.invert v = Vec.rotate v (- (PI / 2)) /\
  Vec.invert (Vec.invert v) = Vec.scale v (-1) /\
  (Vec.direction v < 4)%nat /\
  (Rabs (x v) <> Rabs (y v) ->
   Vec.direction (Vec.invert v) = ((Vec.direction v + 1) mod 4)%nat).
Proof.
  pose proof (sin2_cos2 a) as H. unfold Rsqr in H.
  split; [apply length_rotate|].
  split.
  { unfold Vec.dot, Vec.rotate. cbn [x y].
    replace ((x u * cos a - y u * sin a) * (x v * cos a - y v * sin a)
             + (x u * sin a + y u * cos a) * (x v * sin a + y v * cos a))
      with ((x u * x v + y u * y v) * (sin a * sin a + cos a * cos a)) by ring.
    rewrite H. ring. }
  split.
  { unfold Vec.rotate. cbv zeta. rewrite cos_0, sin_0. destruct v as [vx vy].
    cbn [x y]. apply vec_eq; ring. }
  split.
  { unfold Vec.rotate. cbv zeta. cbn [x y]. rewrite cos_plus, sin_plus.
    apply vec_eq; ring. }
  split.
  { unfold Vec.invert, Vec.rotate. cbv zeta.
    rewrite cos_neg, sin_neg, cos_PI2, sin_PI2. apply vec_eq; ring. }
  split.
  { unfold Vec.invert, Vec.scale. cbn [x y]. apply vec_eq; ring. }
  split.
  { unfold Vec.direction.
    destruct (Rgtb _ _), (Rltb (x v) 0), (Rltb (y v) 0); lia. }
  intros Hd. unfold Vec.direction, Vec.invert, Rgtb. cbn [x y].
  rewrite !abs_Rabs. rewrite Rabs_Ropp.
  destruct (Rltb (Rabs (y v)) (Rabs (x v))) eqn:E1.
  - apply Rltb_true in E1.
    replace (Rltb (Rabs (x v)) (Rabs (y v))) with false
      by (symmetry; apply Rltb_false; lra).
    destruct (Rltb (x v) 0) eqn:E2.
    + apply Rltb_true in E2.
      replace (Rltb (- x v) 0) with false by (symmetry; apply Rltb_false; lra).
      reflexivity.
    + apply Rltb_false in E2.
      assert (x v <> 0).
      { intros H0. rewrite H0, Rabs_R0 in E1. pose proof (Rabs_pos (y v)). lra. }
      replace (Rltb (- x v) 0) with true by (symmetry; apply Rltb_true; lra).
      reflexivity.
  - apply Rltb_false in E1.
    replace (Rltb (Rabs (x v)) (Rabs (y v))) with true
      by (symmetry; apply Rltb_true; lra).
    destruct (Rltb (y v) 0) eqn:E2; reflexivity.
Qed.

(** X16.  For a length that is not negative, [clampLength] gives a
    vector whose length is the smaller of the vector's own length and
    the length asked for: a vector that is short enough is returned as
    it is, a longer one is scaled down by a positive factor, dividing
    by a length that is not 0. *)
Theorem clampLength_caps_the_length (v : Vector2) (len : R) :
  0 <= len ->
  Vec.length (Vec.clampLength v len) = min (Vec.length v) len /\
  (Vec.length v <= len -> Vec.clampLength v len = v) /\
  (len < Vec.length v ->
   Vec.length v <> 0 /\ 0 <= len / Vec.length v < 1 /\
   Vec.clampLength v len = Vec.scale v (len / Vec.length v)).
Proof.
  intros Hlen. pose proof (length_nonneg v) as Hl.
  unfold Vec.clampLength, min, Rgtb. cbv zeta.
  destruct (Rltb len (Vec.length v)) eqn:E.
  - apply Rltb_true in E.
    assert (Hq : 0 <= len / Vec.length v < 1).
    { assert (0 < / Vec.length v) by (apply Rinv_0_lt_compat; lra).
      assert (Vec.length v * / Vec.length v = 1) by (field; lra).
      unfold Rdiv. split; nra. }
    split; [|split].
    + replace (Rltb (Vec.length v) len) with false
        by (symmetry; apply Rltb_false; lra).
      rewrite length_scale by lra. field. lra.
    + intros H. lra.
    + intros _. split; [lra|]. split; [exact Hq | reflexivity].
  - apply Rltb_false in E. split; [|split].
    + destruct (Rltb (Vec.length v) len) eqn:E'; [reflexivity|].
      apply Rltb_false in E'. lra.
    + intros _. reflexivity.
    + intros H. lra.
Qed.

Lemma distance_length (u v : Vector2) :
  distance u v = Vec.length (Vec.subtract u v).
Proof. reflexivity. Qed.

(** X17.  [lerp] gives a point of the segment between the two vectors:
    its distance from the receiver is the clamped fraction of the
    distance between the two, and its distance from the argument is the
    rest.  A fraction of 0 or less gives the receiver, a fraction of 1
    or more the argument. *)
Theorem vector_lerp_stays_on_the_segment (this v : Vector2) (p : R) :
  distance this (Vec.lerp this v p) = clamp p 0 1 * distance this v /\
  distance (Vec.lerp this v p) v = (1 - clamp p 0 1) * distance this v /\
  (p <= 0 -> Vec.lerp this v p = this) /\
  (1 <= p -> Vec.lerp this v p = v).
Proof.
  pose proof (clamp01_range p) as Hc.
  assert (S : forall (k : R) (a b : Vector2), 0 <= k ->
            sqrt ((k * (x a - x b)) * (k * (x a - x b))
                  + (k * (y a - y b)) * (k * (y a - y b)))
            = k * distance a b).
  { intros k a b Hk. unfold distance, distanceSquared.
    replace ((k * (x a - x b)) * (k * (x a - x b))
             + (k * (y a - y b)) * (k * (y a - y b)))
      with (k * k * ((x a - x b) * (x a - x b) + (y a - y b) * (y a - y b)))
      by ring.
    rewrite sqrt_mult_alt by nra. rewrite sqrt_square by exact Hk. reflexivity. }
  assert (Sym : distance v this = distance this v).
  { unfold distance, distanceSquared. f_equal. ring. }
  split; [|split; [|split]].
  - rewrite <- Sym, <- (S _ v this) by lra.
    unfold distance, distanceSquared, Vec.lerp, Vec.add, Vec.scale, Vec.subtract.
    cbn [x y]. f_equal. ring.
  - rewrite <- (S _ this v) by lra.
    unfold distance, distanceSquared, Vec.lerp, Vec.add, Vec.scale, Vec.subtract.
    cbn [x y]. f_equal. ring.
  - intros Hp. unfold Vec.lerp, Vec.add, Vec.scale, Vec.subtract, clamp.
    destruct (Rltb p 0) eqn:E.
    + destruct this as [tx ty]. cbn [x y]. apply vec_eq; ring.
    + apply Rltb_false in E. assert (p = 0) by lra. subst p.
      unfold Rgtb. replace (Rltb 1 0) with false by (symmetry; apply Rltb_false; lra).
      destruct this as [tx ty]. cbn [x y]. apply vec_eq; ring.
  - intros Hp. unfold Vec.lerp, Vec.add, Vec.scale, Vec.subtract, clamp, Rgtb.
    replace (Rltb p 0) with false by (symmetry; apply Rltb_false; lra).
    destruct (Rltb 1 p) eqn:E.
    + destruct v as [vx vy]. cbn [x y]. apply vec_eq; ring.
    + apply Rltb_false in E. assert (p = 1) by lra. subst p.
      destruct v as [vx vy]. cbn [x y]. apply vec_eq; ring.
Qed.

(** * Color *)

(** Clamping to [0, 1] brings two numbers no further apart, here for a
    number of the range. *)
Lemma clamp01_close (c d k : R) :
  0 <= c <= 1 -> Rabs d <= k -> Rabs (clamp (c + d) 0 1 - c) <= k.
Proof.
  intros Hc Hd. unfold clamp, Rgtb.
  assert (D : - k <= d <= k).
  { unfold Rabs in Hd. destruct (Rcase_abs d); lra. }
  destruct (Rltb (c + d) 0) eqn:E.
  - apply Rltb_true in E. unfold Rabs. destruct (Rcase_abs (0 - c)); lra.
  - apply Rltb_false in E. destruct (Rltb 1 (c + d)) eqn:E'.
    + apply Rltb_true in E'. unfold Rabs. destruct (Rcase_abs (1 - c)); lra.
    + unfold Rabs. destruct (Rcase_abs (c + d - c)); lra.
Qed.

Lemma color_clamp_valid (c : Color.Color) : Color.valid (Color.clamp c).
Proof.
  unfold Color.valid, Color.clamp. cbn [Color.r Color.g Color.b Color.a].
  repeat split; apply clamp01_range.
Qed.

(** ** Colors as integers *)

Lemma wrapInt32_small (n : Z) : (- 2 ^ 31 <= n < 2 ^ 31)%Z -> wrapInt32 n = n.
Proof.
  intros Hn. unfold wrapInt32. cbv zeta.
  destruct (Z_lt_le_dec n 0) as [Hneg|Hpos].
  - replace (n mod 2 ^ 32)%Z with (n + 2 ^ 32)%Z
      by (apply Z.mod_unique with (q := (-1)%Z); lia).
    replace (2 ^ 31 <=? n + 2 ^ 32)%Z with true by (symmetry; apply Z.leb_le; lia).
    lia.
  - rewrite Z.mod_small by lia.
    replace (2 ^ 31 <=? n)%Z with false by (symmetry; apply Z.leb_gt; lia).
    reflexivity.
Qed.

Lemma wrapInt32_high (n : Z) :
  (2 ^ 31 <= n < 2 ^ 32)%Z -> wrapInt32 n = (n - 2 ^ 32)%Z.
Proof.
  intros Hn. unfold wrapInt32. cbv zeta. rewrite Z.mod_small by lia.
  replace (2 ^ 31 <=? n)%Z with true by (symmetry; apply Z.leb_le; lia).
  reflexivity.
Qed.

(** The byte of a component of a valid color. *)
Lemma byte_of_component (c : R) :
  0 <= c <= 1 ->
  toInt32 (c * 255) = truncate (c * 255) /\ (0 <= truncate (c * 255) <= 255)%Z.
Proof.
  intros Hc. split.
  - apply toInt32_small. lra.
  - assert (H : IZR 0 <= c * 255 < IZR 256) by lra.
    destruct (truncate_between _ 0%Z 256%Z H) as (T & _ & _). lia.
Qed.

(** X18.  For a valid color, [rgbaInt] is the signed 32-bit integer
    whose four bytes, lowest first, are the red, green, blue and alpha
    components times 255, rounded down.  It is negative as soon as the
    alpha byte is 128 or more, as for every opaque color. *)
Theorem rgbaInt_is_a_signed_integer (this : Color.Color) :
  Color.valid this ->
  (0 <= truncate (Color.r this * 255) <= 255)%Z /\
  (0 <= truncate (Color.g this * 255) <= 255)%Z /\
  (0 <= truncate (Color.b this * 255) <= 255)%Z /\
  (0 <= truncate (Color.a this * 255) <= 255)%Z /\
  Color.rgbaInt this
  = wrapInt32 (truncate (Color.r this * 255)
               + 2 ^ 8 * truncate (Color.g this * 255)
               + 2 ^ 16 * truncate (Color.b this * 255)
               + 2 ^ 24 * truncate (Color.a this * 255)) /\
  ((truncate (Color.a this * 255) < 128)%Z ->
   Color.rgbaInt this
   = (truncate (Color.r this * 255)
      + 2 ^ 8 * truncate (Color.g this * 255)
      + 2 ^ 16 * truncate (Color.b this * 255)
      + 2 ^ 24 * truncate (Color.a this * 255))%Z) /\
  ((128 <= truncate (Color.a this * 255))%Z -> (Color.rgbaInt this < 0)%Z) /\
  (Color.a this = 1 -> (Color.rgbaInt this < 0)%Z).
Proof.
  intros (Hr & Hg & Hb & Ha).
  destruct (byte_of_component _ Hr) as [Er Br].
  destruct (byte_of_component _ Hg) as [Eg Bg].
  destruct (byte_of_component _ Hb) as [Eb Bb].
  destruct (byte_of_component _ Ha) as [Ea Ba].
  unfold Color.rgbaInt. rewrite Er, Eg, Eb, Ea.
  set (cr := truncate (Color.r this * 255)) in *.
  set (cg := truncate (Color.g this * 255)) in *.
  set (cb := truncate (Color.b this * 255)) in *.
  set (ca := truncate (Color.a this * 255)) in *.
  unfold shiftLeft. rewrite !Z.shiftl_mul_pow2 by lia.
  rewrite (wrapInt32_small (cg * 2 ^ 8)) by lia.
  rewrite (wrapInt32_small (cb * 2 ^ 16)) by lia.
  assert (Low : (ca < 128)%Z ->
            (cr + cg * 2 ^ 8 + cb * 2 ^ 16 + wrapInt32 (ca * 2 ^ 24)
             = cr + 2 ^ 8 * cg + 2 ^ 16 * cb + 2 ^ 24 * ca)%Z).
  { intros H. rewrite wrapInt32_small by lia. ring. }
  assert (High : (128 <= ca)%Z ->
            (cr + cg * 2 ^ 8 + cb * 2 ^ 16 + wrapInt32 (ca * 2 ^ 24)
             = cr + 2 ^ 8 * cg + 2 ^ 16 * cb + 2 ^ 24 * ca - 2 ^ 32)%Z).
  { intros H. rewrite wrapInt32_high by lia. ring. }
  split; [exact Br|]. split; [exact Bg|]. split; [exact Bb|]. split; [exact Ba|].
  split; [|split; [exact Low|split]].
  - destruct (Z_lt_le_dec ca 128) as [H|H].
    + rewrite (Low H). symmetry. apply wrapInt32_small. lia.
    + rewrite (High H). symmetry. apply wrapInt32_high. lia.
  - intros H. rewrite (High H). lia.
  - intros H1. assert (Hca : ca = 255%Z).
    { unfold ca. rewrite H1.
      assert (H : IZR 255 <= 1 * 255 < IZR 256) by lra.
      destruct (truncate_between _ 255%Z 256%Z H) as (T & _ & _). lia. }
    rewrite High by lia. lia.
Qed.

(** ** Hue, saturation and lightness *)

(** [((t%1)+1)%1] is the one number of [0, 1) that differs from [t] by
    a whole number. *)
Lemma wrap1_spec (t : R) :
  0 <= jsRem (jsRem t 1 + 1) 1 < 1 /\
  exists k : Z, t = IZR k + jsRem (jsRem t 1 + 1) 1.
Proof.
  pose proof (jsRem_abs_bound t 1 ltac:(lra)) as H1.
  destruct (jsRem_bounds (jsRem t 1 + 1) 1 ltac:(lra)) as [P _].
  specialize (P ltac:(lra)).
  pose proof (jsRem_multiple t 1) as M1.
  pose proof (jsRem_multiple (jsRem t 1 + 1) 1) as M2.
  split; [exact P|].
  exists (truncate (t / 1) + truncate ((jsRem t 1 + 1) / 1) - 1)%Z.
  rewrite minus_IZR, plus_IZR. lra.
Qed.

Lemma wrap1_unique (t m : R) (k : Z) :
  0 <= m < 1 -> t = IZR k + m -> jsRem (jsRem t 1 + 1) 1 = m.
Proof.
  intros Hm E. destruct (wrap1_spec t) as [B [k' E']].
  apply (multiples_close 1 k k' m _ ltac:(lra)); lra.
Qed.

Lemma f_between (p q t : R) : p <= q -> p <= Color.f p q t <= q.
Proof.
  intros Hpq. unfold Color.f. cbv zeta.
  destruct (wrap1_spec t) as [[B0 B1] _].
  set (m := jsRem (jsRem t 1 + 1) 1) in *.
  destruct (Rltb m (1 / 6)) eqn:E1.
  - apply Rltb_true in E1. split; nra.
  - destruct (Rltb m (1 / 2)) eqn:E2; [lra|].
    destruct (Rltb m (2 / 3)) eqn:E3; [|lra].
    apply Rltb_false in E2. apply Rltb_true in E3. split; nra.
Qed.

Lemma f_period (p q t : R) (n : Z) : Color.f p q (t + IZR n) = Color.f p q t.
Proof.
  unfold Color.f. cbv zeta.
  destruct (wrap1_spec t) as [B [k E]].
  rewrite (wrap1_unique (t + IZR n) (jsRem (jsRem t 1 + 1) 1) (k + n)%Z B).
  - reflexivity.
  - rewrite plus_IZR. lra.
Qed.

Lemma f_flat (p t : R) : Color.f p p t = p.
Proof.
  unfold Color.f. cbv zeta.
  destruct (Rltb _ (1 / 6)); [ring|].
  destruct (Rltb _ (1 / 2)); [reflexivity|].
  destruct (Rltb _ (2 / 3)); [ring|reflexivity].
Qed.

(** The two levels [q] and [p] of [setHSLA]. *)
Lemma hsl_levels (s l : R) :
  0 <= s <= 1 -> 0 <= l <= 1 ->
  0 <= 2 * l - (if Rltb l (1 / 2) then l * (1 + s) else l + s - l * s)
  /\ 2 * l - (if Rltb l (1 / 2) then l * (1 + s) else l + s - l * s)
     <= (if Rltb l (1 / 2) then l * (1 + s) else l + s - l * s)
  /\ (if Rltb l (1 / 2) then l * (1 + s) else l + s - l * s) <= 1.
Proof.
  intros Hs Hl. destruct (Rltb l (1 / 2)) eqn:E.
  - apply Rltb_true in E. repeat split; nra.
  - apply Rltb_false in E. repeat split; nra.
Qed.

(** X19.  With a saturation and a lightness of [0, 1], [setHSLA] stores
    red, green and blue components of [0, 1], whatever the hue, and the
    alpha as it is given.  The hue counts modulo 1: a whole number added
    to it changes nothing, so that negative hues are accepted.  With
    saturation 0 the three components are the lightness. *)
Theorem setHSLA_gives_valid_components (h s l al : R) (n : Z) :
  0 <= s <= 1 -> 0 <= l <= 1 ->
  0 <= Color.r (Color.setHSLA h s l al) <= 1 /\
  0 <= Color.g (Color.setHSLA h s l al) <= 1 /\
  0 <= Color.b (Color.setHSLA h s l al) <= 1 /\
  Color.a (Color.setHSLA h s l al) = al /\
  Color.setHSLA (h + IZR n) s l al = Color.setHSLA h s l al /\
  (s = 0 -> Color.setHSLA h s l al = Color.rgba l l l al).
Proof.
  intros Hs Hl. destruct (hsl_levels s l Hs Hl) as (L0 & L1 & L2).
  unfold Color.setHSLA. cbv zeta. cbn [Color.r Color.g Color.b Color.a].
  set (q := if Rltb l (1 / 2) then l * (1 + s) else l + s - l * s) in *.
  pose proof (fun t => f_between (2 * l - q) q t L1) as F.
  split; [pose proof (F (h + 1 / 3)); lra|].
  split; [pose proof (F h); lra|].
  split; [pose proof (F (h - 1 / 3)); lra|].
  split; [reflexivity|]. split.
  - replace (h + IZR n + 1 / 3) with (h + 1 / 3 + IZR n) by ring.
    replace (h + IZR n - 1 / 3) with (h - 1 / 3 + IZR n) by ring.
    rewrite !f_period. reflexivity.
  - intros ->. assert (Eq : q = l) by (unfold q; destruct (Rltb l (1 / 2)); ring).
    rewrite Eq. replace (2 * l - l) with l by ring. rewrite !f_flat. reflexivity.
Qed.

Lemma Reqb_true (a b : R) : Reqb a b = true <-> a = b.
Proof. unfold Reqb. destruct (Req_dec_T a b); split; congruence. Qed.

Lemma Reqb_false (a b : R) : Reqb a b = false <-> a <> b.
Proof. unfold Reqb. destruct (Req_dec_T a b); split; congruence. Qed.

(** The largest and the smallest of three numbers. *)
Lemma max3_spec (u v w : R) :
  u <= Rmax (Rmax u v) w /\ v <= Rmax (Rmax u v) w /\ w <= Rmax (Rmax u v) w /\
  (Rmax (Rmax u v) w = u \/ Rmax (Rmax u v) w = v \/ Rmax (Rmax u v) w = w).
Proof.
  unfold Rmax. destruct (Rle_dec u v); destruct (Rle_dec _ w); lra.
Qed.

Lemma min3_spec (u v w : R) :
  Rmin (Rmin u v) w <= u /\ Rmin (Rmin u v) w <= v /\ Rmin (Rmin u v) w <= w /\
  (Rmin (Rmin u v) w = u \/ Rmin (Rmin u v) w = v \/ Rmin (Rmin u v) w = w).
Proof.
  unfold Rmin. destruct (Rle_dec u v); destruct (Rle_dec _ w); lra.
Qed.

(** A quotient of a difference of components by the spread. *)
Lemma ratio_spec (n d : R) :
  0 < d -> - d <= n <= d -> -1 <= n / d <= 1 /\ n / d * d = n.
Proof.
  intros Hd Hn.
  assert (E : n / d * d = n) by (field; lra).
  split; [|exact E]. split; nra.
Qed.

(** The saturation [getHSLA] computes. *)
Lemma saturation_range (mx mn : R) :
  0 <= mn -> mn < mx -> mx <= 1 ->
  (1 / 2 < (mx + mn) / 2 -> 0 < 2 - mx - mn /\ 0 < (mx - mn) / (2 - mx - mn) <= 1) /\
  ((mx + mn) / 2 <= 1 / 2 -> 0 < mx + mn /\ 0 < (mx - mn) / (mx + mn) <= 1).
Proof.
  intros H0 H1 H2. split; intros Hl.
  - assert (D : 0 < 2 - mx - mn) by lra. split; [exact D|].
    assert (0 < / (2 - mx - mn)) by (apply Rinv_0_lt_compat; exact D).
    assert ((2 - mx - mn) * / (2 - mx - mn) = 1) by (field; lra).
    unfold Rdiv. split; nra.
  - assert (D : 0 < mx + mn) by lra. split; [exact D|].
    assert (0 < / (mx + mn)) by (apply Rinv_0_lt_compat; exact D).
    assert ((mx + mn) * / (mx + mn) = 1) by (field; lra).
    unfold Rdiv. split; nra.
Qed.

(** X20.  For a valid color, [getHSLA] gives a hue of [0, 1), a
    saturation and a lightness of [0, 1] and the alpha of the color.
    A grey, whose red, green and blue are equal, has hue 0 and
    saturation 0 and is not divided by; for any other valid color the
    spread of the components and the divisor of the saturation are
    positive. *)
Theorem getHSLA_gives_valid_components (this : Color.Color) :
  Color.valid this ->
  (let '(h, s, l, al) := Color.getHSLA this in
   0 <= h < 1 /\ 0 <= s <= 1 /\ 0 <= l <= 1 /\ al = Color.a this /\
   l = (Rmax (Rmax (Color.r this) (Color.g this)) (Color.b this)
        + Rmin (Rmin (Color.r this) (Color.g this)) (Color.b this)) / 2) /\
  (Color.r this = Color.g this -> Color.g this = Color.b this ->
   Color.getHSLA this = (0, 0, Color.r this, Color.a this)) /\
  (Rmax (Rmax (Color.r this) (Color.g this)) (Color.b this)
   <> Rmin (Rmin (Color.r this) (Color.g this)) (Color.b this) ->
   let mx := Rmax (Rmax (Color.r this) (Color.g this)) (Color.b this) in
   let mn := Rmin (Rmin (Color.r this) (Color.g this)) (Color.b this) in
   0 < mx - mn /\
   (if Rgtb ((mx + mn) / 2) (1 / 2) then 0 < 2 - mx - mn else 0 < mx + mn) /\
   0 < snd (fst (fst (Color.getHSLA this)))).
Proof.
  intros (Hr & Hg & Hb & Ha). destruct this as [rr gg bb aa].
  cbn [Color.r Color.g Color.b Color.a] in *.
  unfold Color.getHSLA. cbn [Color.r Color.g Color.b Color.a].
  destruct (max3_spec rr gg bb) as (X1 & X2 & X3 & X4).
  destruct (min3_spec rr gg bb) as (N1 & N2 & N3 & N4).
  set (mx := Rmax (Rmax rr gg) bb) in *.
  set (mn := Rmin (Rmin rr gg) bb) in *.
  clearbody mx mn.
  assert (Hmx : mx <= 1) by (destruct X4 as [->|[->| ->]]; lra).
  assert (Hmn : 0 <= mn) by (destruct N4 as [->|[->| ->]]; lra).
  destruct (Reqb mx mn) eqn:Em.
  - apply Reqb_true in Em. cbn [negb]. cbv iota.
    split; [|split].
    + repeat split; lra.
    + intros E1 E2. repeat f_equal; lra.
    + intros Hne. contradiction.
  - apply Reqb_false in Em. cbn [negb]. cbv iota. cbv zeta.
    assert (Hd : 0 < mx - mn) by lra.
    destruct (saturation_range mx mn Hmn ltac:(lra) Hmx) as [S1 S2].
    assert (Hs : 0 < (if Rgtb ((mx + mn) / 2) (1 / 2)
                      then (mx - mn) / (2 - mx - mn) else (mx - mn) / (mx + mn)) <= 1
                 /\ (if Rgtb ((mx + mn) / 2) (1 / 2)
                     then 0 < 2 - mx - mn else 0 < mx + mn)).
    { unfold Rgtb. destruct (Rltb (1 / 2) ((mx + mn) / 2)) eqn:El.
      - apply Rltb_true in El. destruct (S1 El). split; assumption.
      - apply Rltb_false in El. destruct (S2 El). split; assumption. }
    destruct Hs as [Hs Hdiv].
    split; [|split].
    + split; [|split; [lra|split; [lra|split; reflexivity]]].
      destruct (Reqb rr mx) eqn:E1.
      * apply Reqb_true in E1.
        destruct (ratio_spec (gg - bb) (mx - mn) Hd ltac:(lra)) as [Q1 Q2].
        destruct (Rltb gg bb) eqn:E2.
        -- apply Rltb_true in E2.
           assert ((gg - bb) / (mx - mn) < 0) by nra. lra.
        -- apply Rltb_false in E2.
           assert (0 <= (gg - bb) / (mx - mn)) by nra. lra.
      * destruct (Reqb gg mx) eqn:E3.
        -- destruct (ratio_spec (bb - rr) (mx - mn) Hd ltac:(lra)) as [Q1 Q2]. lra.
        -- destruct (Reqb bb mx) eqn:E4.
           ++ destruct (ratio_spec (rr - gg) (mx - mn) Hd ltac:(lra)) as [Q1 Q2]. lra.
           ++ lra.
    + intros E1 E2. exfalso. apply Em.
      destruct X4 as [->|[->| ->]]; destruct N4 as [->|[->| ->]]; lra.
    + intros _. cbn [fst snd]. split; [exact Hd|]. split; [exact Hdiv|]. lra.
Qed.

(** The function [f] of [setHSLA] on the six sextants of the hue:
    [t] is a whole number plus [T/6]. *)
Lemma f_sextant (p q t T : R) (k : Z) :
  t = IZR k + T / 6 -> 0 <= T < 6 ->
  (T < 1 -> Color.f p q t = p + (q - p) * T) /\
  (1 <= T < 3 -> Color.f p q t = q) /\
  (3 <= T < 4 -> Color.f p q t = p + (q - p) * (4 - T)) /\
  (4 <= T -> Color.f p q t = p).
Proof.
  intros Et HT. unfold Color.f. cbv zeta.
  rewrite (wrap1_unique t (T / 6) k ltac:(lra) Et).
  repeat split; intros H.
  - replace (Rltb (T / 6) (1 / 6)) with true by (symmetry; apply Rltb_true; lra).
    field.
  - replace (Rltb (T / 6) (1 / 6)) with false by (symmetry; apply Rltb_false; lra).
    replace (Rltb (T / 6) (1 / 2)) with true by (symmetry; apply Rltb_true; lra).
    reflexivity.
  - replace (Rltb (T / 6) (1 / 6)) with false by (symmetry; apply Rltb_false; lra).
    replace (Rltb (T / 6) (1 / 2)) with false by (symmetry; apply Rltb_false; lra).
    replace (Rltb (T / 6) (2 / 3)) with true by (symmetry; apply Rltb_true; lra).
    field.
  - replace (Rltb (T / 6) (1 / 6)) with false by (symmetry; apply Rltb_false; lra).
    replace (Rltb (T / 6) (1 / 2)) with false by (symmetry; apply Rltb_false; lra).
    replace (Rltb (T / 6) (2 / 3)) with false by (symmetry; apply Rltb_false; lra).
    reflexivity.
Qed.

(** [setHSLA] finds the largest and the smallest component again from
    the lightness and the saturation [getHSLA] computes. *)
Lemma levels_inverse (mx mn : R) :
  0 <= mn -> mn < mx -> mx <= 1 ->
  let l := (mx + mn) / 2 in
  let s := if Rgtb l (1 / 2) then (mx - mn) / (2 - mx - mn)
           else (mx - mn) / (mx + mn) in
  (if Rltb l (1 / 2) then l * (1 + s) else l + s - l * s) = mx.
Proof.
  intros H0 H1 H2 l s. unfold s, l, Rgtb.
  destruct (Rltb (1 / 2) ((mx + mn) / 2)) eqn:E1.
  - apply Rltb_true in E1.
    replace (Rltb ((mx + mn) / 2) (1 / 2)) with false
      by (symmetry; apply Rltb_false; lra).
    field. lra.
  - apply Rltb_false in E1.
    destruct (Rltb ((mx + mn) / 2) (1 / 2)) eqn:E2.
    + field. lra.
    + apply Rltb_false in E2. assert (E : mx + mn = 1) by lra.
      rewrite E. lra.
Qed.

(** X21.  [setHSLA] undoes [getHSLA]: from the hue, saturation,
    lightness and alpha of a valid color it stores that color again. *)
Theorem setHSLA_undoes_getHSLA (this : Color.Color) :
  Color.valid this ->
  let '(h, s, l, al) := Color.getHSLA this in
  Color.setHSLA h s l al = this.
Proof.
  intros (Hr & Hg & Hb & Ha). destruct this as [rr gg bb aa].
  cbn [Color.r Color.g Color.b Color.a] in *.
  unfold Color.getHSLA. cbn [Color.r Color.g Color.b Color.a].
  destruct (max3_spec rr gg bb) as (X1 & X2 & X3 & X4).
  destruct (min3_spec rr gg bb) as (N1 & N2 & N3 & N4).
  set (mx := Rmax (Rmax rr gg) bb) in *.
  set (mn := Rmin (Rmin rr gg) bb) in *.
  clearbody mx mn.
  assert (Hmx : mx <= 1) by (destruct X4 as [->|[->| ->]]; lra).
  assert (Hmn : 0 <= mn) by (destruct N4 as [->|[->| ->]]; lra).
  destruct (Reqb mx mn) eqn:Em.
  - apply Reqb_true in Em. cbn [negb]. cbv iota.
    unfold Color.setHSLA. cbv zeta.
    assert (Eq : (if Rltb ((mx + mn) / 2) (1 / 2)
                  then (mx + mn) / 2 * (1 + 0)
                  else (mx + mn) / 2 + 0 - (mx + mn) / 2 * 0) = mx).
    { destruct (Rltb _ _); lra. }
    rewrite Eq. replace (2 * ((mx + mn) / 2) - mx) with mx by lra.
    rewrite !f_flat. f_equal; lra.
  - apply Reqb_false in Em. cbn [negb]. cbv iota. cbv zeta.
    assert (Hd : 0 < mx - mn) by lra.
    unfold Color.setHSLA. cbv zeta.
    rewrite (levels_inverse mx mn Hmn ltac:(lra) Hmx).
    replace (2 * ((mx + mn) / 2) - mx) with mn by lra.
    remember (mx - mn) as d eqn:Ed.
    destruct (Reqb rr mx) eqn:E1.
    + apply Reqb_true in E1.
      destruct (ratio_spec (gg - bb) d Hd ltac:(lra)) as [Q1 Q2].
      set (rho := (gg - bb) / d) in *.
      destruct (Rltb gg bb) eqn:E2.
      * apply Rltb_true in E2.
        assert (Hrho : rho < 0) by nra.
        assert (Emn : mn = gg) by (destruct N4 as [->|[->| ->]]; lra).
        destruct (f_sextant mn mx ((rho + 6) / 6 + 1 / 3) (rho + 2) 1
                    ltac:(lra) ltac:(lra)) as (_ & F & _ & _).
        destruct (f_sextant mn mx ((rho + 6) / 6) (rho + 6) 0
                    ltac:(lra) ltac:(lra)) as (_ & _ & _ & G).
        destruct (f_sextant mn mx ((rho + 6) / 6 - 1 / 3) (rho + 4) 0
                    ltac:(lra) ltac:(lra)) as (_ & _ & B & _).
        rewrite F, G, B by lra. f_equal; [lra|lra|].
        rewrite <- ?Ed. nra.
      * apply Rltb_false in E2.
        assert (Hrho : 0 <= rho) by nra.
        assert (Emn : mn = bb) by (destruct N4 as [->|[->| ->]]; lra).
        destruct (f_sextant mn mx ((rho + 0) / 6 + 1 / 3) (rho + 2) 0
                    ltac:(lra) ltac:(lra)) as (_ & F1 & F2 & _).
        destruct (f_sextant mn mx ((rho + 0) / 6) rho 0
                    ltac:(lra) ltac:(lra)) as (G1 & G2 & _ & _).
        destruct (f_sextant mn mx ((rho + 0) / 6 - 1 / 3) (rho + 4) (-1)
                    ltac:(lra) ltac:(lra)) as (_ & _ & _ & B).
        rewrite B by lra. rewrite <- ?Ed.
        destruct (Rlt_dec rho 1) as [L|L].
        -- rewrite F1, G1 by lra. f_equal; [lra| |lra]. nra.
        -- assert (rho = 1) by lra.
           rewrite F2, G2 by lra. f_equal; [nra| |lra]. nra.
    + apply Reqb_false in E1.
      destruct (Reqb gg mx) eqn:E3.
      * apply Reqb_true in E3.
        destruct (ratio_spec (bb - rr) d Hd ltac:(lra)) as [Q1 Q2].
        set (rho := (bb - rr) / d) in *.
        destruct (Rlt_dec rho 0) as [Lr|Lr].
        -- assert (Emn : mn = bb) by (destruct N4 as [->|[->| ->]]; nra).
           destruct (f_sextant mn mx ((rho + 2) / 6 + 1 / 3) (rho + 4) 0
                       ltac:(lra) ltac:(lra)) as (_ & _ & F & _).
           destruct (f_sextant mn mx ((rho + 2) / 6) (rho + 2) 0
                       ltac:(lra) ltac:(lra)) as (_ & G & _ & _).
           destruct (f_sextant mn mx ((rho + 2) / 6 - 1 / 3) (rho + 6) (-1)
                       ltac:(lra) ltac:(lra)) as (_ & _ & _ & B).
           rewrite F, G, B by lra. rewrite <- ?Ed. f_equal; [nra|lra|lra].
        -- assert (Emn : mn = rr) by (destruct N4 as [->|[->| ->]]; nra).
           destruct (f_sextant mn mx ((rho + 2) / 6 + 1 / 3) (rho + 4) 0
                       ltac:(lra) ltac:(lra)) as (_ & _ & _ & F).
           destruct (f_sextant mn mx ((rho + 2) / 6) (rho + 2) 0
                       ltac:(lra) ltac:(lra)) as (_ & G1 & G2 & _).
           destruct (f_sextant mn mx ((rho + 2) / 6 - 1 / 3) rho 0
                       ltac:(lra) ltac:(lra)) as (B1 & B2 & _ & _).
           rewrite F by lra. rewrite <- ?Ed.
           destruct (Rlt_dec rho 1) as [L|L].
           ++ rewrite G1, B1 by lra. f_equal; [lra|lra|nra].
           ++ assert (rho = 1) by lra.
              rewrite G2, B2 by lra. f_equal; [lra|nra|nra].
      * apply Reqb_false in E3.
        assert (E4 : bb = mx) by (destruct X4 as [->|[->| ->]]; congruence).
        replace (Reqb bb mx) with true by (symmetry; apply Reqb_true; exact E4).
        assert (Lr : rr < mx) by lra. assert (Lg : gg < mx) by lra.
        destruct (ratio_spec (rr - gg) d Hd ltac:(lra)) as [Q1 Q2].
        set (rho := (rr - gg) / d) in *.
        assert (Hrho : rho < 1) by nra.
        destruct (f_sextant mn mx ((rho + 4) / 6 - 1 / 3) (rho + 2) 0
                    ltac:(lra) ltac:(lra)) as (_ & B & _ & _).
        rewrite B by lra.
        destruct (Rlt_dec rho 0) as [L|L].
        -- assert (Emn : mn = rr) by (destruct N4 as [->|[->| ->]]; nra).
           destruct (f_sextant mn mx ((rho + 4) / 6 + 1 / 3) (rho + 6) 0
                       ltac:(lra) ltac:(lra)) as (_ & _ & _ & F).
           destruct (f_sextant mn mx ((rho + 4) / 6) (rho + 4) 0
                       ltac:(lra) ltac:(lra)) as (_ & _ & G & _).
           rewrite F, G by lra. rewrite <- ?Ed. f_equal; [lra|nra|lra].
        -- assert (Emn : mn = gg) by (destruct N4 as [->|[->| ->]]; nra).
           destruct (f_sextant mn mx ((rho + 4) / 6 + 1 / 3) rho 1
                       ltac:(lra) ltac:(lra)) as (F & _ & _ & _).
           destruct (f_sextant mn mx ((rho + 4) / 6) (rho + 4) 0
                       ltac:(lra) ltac:(lra)) as (_ & _ & _ & G).
           rewrite F, G by lra. rewrite <- ?Ed. f_equal; [nra|lra|lra].
Qed.

(** ** Colors as text *)

(** A byte written by [toHex] takes two characters, and [parseInt]
    reads it back. *)
Lemma toHex_byte (n : Z) :
  (0 <= n <= 255)%Z ->
  exists c1 c2 : Ascii.ascii,
    String.append (if (n <? 16)%Z then "0" else "") (intToString16 n)
    = String.String c1 (String.String c2 String.EmptyString) /\
    parseInt16 (String.String c1 (String.String c2 String.EmptyString)) = Some n.
Proof.
  intros Hn.
  assert (H : forallb
            (fun k : nat =>
               match String.append (if (Z.of_nat k <? 16)%Z then "0" else "")
                                   (intToString16 (Z.of_nat k)) with
               | String.String c1 (String.String c2 String.EmptyString) =>
                   match parseInt16
                           (String.String c1 (String.String c2 String.EmptyString)) with
                   | Some v => Z.eqb v (Z.of_nat k)
                   | None => false
                   end
               | _ => false
               end)
            (seq 0 256) = true) by (vm_compute; reflexivity).
  rewrite forallb_forall in H.
  specialize (H (Z.to_nat n)). rewrite Z2Nat.id in H by lia.
  specialize (H ltac:(apply in_seq; lia)).
  destruct (String.append _ _) as [|c1 [|c2 [|c3 s]]]; try discriminate.
  exists c1, c2. split; [reflexivity|].
  destruct (parseInt16 _) as [v|]; [|discriminate].
  apply Z.eqb_eq in H. rewrite H. reflexivity.
Qed.

(** X22.  For a valid color, [hex] is a string of seven characters, and
    [setHex] of it stores the red, green and blue components rounded
    down to a whole number of 255ths, each less than 1/255 below the
    component it comes from, and the alpha 1: the alpha of the color
    is not kept. *)
Theorem setHex_reads_what_hex_writes (this : Color.Color) :
  Color.valid this ->
  String.length (Color.hex this) = 7%nat /\
  Color.setHex (Color.hex this)
  = (Some (IZR (truncate (Color.r this * 255)) / 255),
     Some (IZR (truncate (Color.g this * 255)) / 255),
     Some (IZR (truncate (Color.b this * 255)) / 255), 1) /\
  0 <= Color.r this - IZR (truncate (Color.r this * 255)) / 255 < 1 / 255 /\
  0 <= Color.g this - IZR (truncate (Color.g this * 255)) / 255 < 1 / 255 /\
  0 <= Color.b this - IZR (truncate (Color.b this * 255)) / 255 < 1 / 255.
Proof.
  intros (Hr & Hg & Hb & Ha).
  destruct (byte_of_component _ Hr) as [Er Br].
  destruct (byte_of_component _ Hg) as [Eg Bg].
  destruct (byte_of_component _ Hb) as [Eb Bb].
  destruct (toHex_byte _ Br) as (r1 & r2 & Sr & Pr).
  destruct (toHex_byte _ Bg) as (g1 & g2 & Sg & Pg).
  destruct (toHex_byte _ Bb) as (b1 & b2 & Sb & Pb).
  assert (Eh : Color.hex this
               = String.String (Ascii.ascii_of_nat 35)
                   (String.String r1 (String.String r2
                      (String.String g1 (String.String g2
                         (String.String b1 (String.String b2
                            String.EmptyString))))))).
  { unfold Color.hex, Color.toHex. cbv zeta. rewrite Er, Eg, Eb, Sr, Sg, Sb.
    reflexivity. }
  split; [rewrite Eh; reflexivity|]. split.
  - unfold Color.setHex, Color.fromHex. rewrite Eh.
    cbn [String.substring]. rewrite Pr, Pg, Pb. reflexivity.
  - assert (Q : forall c, 0 <= c <= 1 ->
                 0 <= c - IZR (truncate (c * 255)) / 255 < 1 / 255).
    { intros c Hc. destruct (truncate_bounds (c * 255)) as [[[A0 A1] A2] _]; lra. }
    split; [apply Q; exact Hr|]. split; [apply Q; exact Hg | apply Q; exact Hb].
Qed.

(** * Timer *)

Lemma Rleb_true (a b : R) : Rleb a b = true <-> a <= b.
Proof. unfold Rleb. destruct (Rle_dec a b); split; intros; congruence || lra. Qed.

Lemma Rleb_false (a b : R) : Rleb a b = false <-> b < a.
Proof. unfold Rleb. destruct (Rle_dec a b); split; intros; congruence || lra. Qed.

(** X23.  A timer set at time [start] to [timeLeft] seconds, by [set]
    or by the constructor, is set.  At time [now] it is active up to
    and at the end time [start + timeLeft] and elapsed after it, never
    both; [get] is the time since the end, negative while active.
    [getPercent] is the part of [timeLeft] that has passed since
    [start], clamped to [0, 1]; for a timer set to 0 seconds it is 0,
    elapsed or not. *)
Theorem timer_counts_from_its_end_time
    (start timeLeft now : R) (old : Timer.Timer) :
  let t := Timer.set start timeLeft old in
  Timer.new start (Some timeLeft) = t /\
  Timer.isSet t = true /\
  (Timer.active now t = true <-> now <= start + timeLeft) /\
  Timer.elapsed now t = negb (Timer.active now t) /\
  Timer.get now t = now - (start + timeLeft) /\
  (timeLeft = 0 -> Timer.getPercent now t = 0) /\
  (timeLeft <> 0 ->
   Timer.getPercent now t = clamp ((now - start) / timeLeft) 0 1) /\
  (0 < timeLeft ->
   (now <= start -> Timer.getPercent now t = 0) /\
   (start <= now <= start + timeLeft ->
    Timer.getPercent now t = (now - start) / timeLeft) /\
   (start + timeLeft <= now -> Timer.getPercent now t = 1)).
Proof.
  intros t. unfold t, Timer.set, Timer.new, Timer.isSet, Timer.active,
    Timer.elapsed, Timer.get, Timer.getPercent.
  cbn [Timer.time Timer.setTime isSome].
  assert (P0 : timeLeft = 0 -> percent (start + timeLeft - now) timeLeft 0 = 0).
  { intros ->. unfold percent.
    replace (truthy (0 - 0)) with false; [reflexivity|].
    symmetry. apply truthy_false. ring. }
  assert (P1 : timeLeft <> 0 ->
               percent (start + timeLeft - now) timeLeft 0
               = clamp ((now - start) / timeLeft) 0 1).
  { intros Hne. unfold percent.
    replace (truthy (0 - timeLeft)) with true
      by (symmetry; apply truthy_true; lra).
    f_equal. field. exact Hne. }
  split; [reflexivity|]. split; [reflexivity|].
  split; [apply Rleb_true|]. split.
  { unfold Rgtb. destruct (Rleb now (start + timeLeft)) eqn:E.
    - apply Rleb_true in E. apply Rltb_false. exact E.
    - apply Rleb_false in E. apply Rltb_true. exact E. }
  split; [reflexivity|]. split; [exact P0|]. split; [exact P1|].
  intros Hpos. rewrite P1 by lra.
  assert (Hi : 0 < / timeLeft) by (apply Rinv_0_lt_compat; exact Hpos).
  assert (Hm : timeLeft * / timeLeft = 1) by (field; lra).
  split; [|split].
  - intros H. unfold clamp, Rgtb.
    destruct (Rltb _ 0) eqn:E; [reflexivity|]. apply Rltb_false in E.
    assert (Hz : (now - start) / timeLeft = 0) by (unfold Rdiv in *; nra).
    rewrite Hz. replace (Rltb 1 0) with false by (symmetry; apply Rltb_false; lra).
    reflexivity.
  - intros H. apply clamp01_id. unfold Rdiv. split; nra.
  - intros H. unfold clamp, Rgtb.
    assert (Hq : 1 <= (now - start) / timeLeft) by (unfold Rdiv; nra).
    replace (Rltb ((now - start) / timeLeft) 0) with false
      by (symmetry; apply Rltb_false; lra).
    destruct (Rltb 1 _) eqn:E; [reflexivity|]. apply Rltb_false in E. lra.
Qed.

(** X24.  A timer that is not set, after [unset] or from a constructor
    without an argument, is neither active nor elapsed, and both [get]
    and [getPercent] are 0.  With the debug switch on, [toString]
    unsets the timer before it reads it: the timer is left unset and
    the string is that of 0 seconds after, whatever the timer was;
    with the switch off there is no string and the timer is kept. *)
Theorem unset_timer_is_neither_active_nor_elapsed
    (now : R) (this : Timer.Timer) (Number_toString : R -> String.string) :
  Timer.isSet (Timer.unset this) = false /\
  Timer.isSet (Timer.new now None) = false /\
  Timer.active now (Timer.unset this) = false /\
  Timer.elapsed now (Timer.unset this) = false /\
  Timer.get now (Timer.unset this) = 0 /\
  Timer.getPercent now (Timer.unset this) = 0 /\
  Timer.toString true Number_toString now this
  = (Some (String.append (Number_toString 0) " seconds after"),
     Timer.unset this) /\
  Timer.toString false Number_toString now this = (None, this).
Proof.
  repeat split; try reflexivity.
  unfold Timer.toString. cbv zeta.
  unfold Timer.get, Timer.unset. cbn [Timer.time].
  rewrite Rabs_R0.
  replace (Rltb 0 0) with false by (symmetry; apply Rltb_false; lra).
  reflexivity.
Qed.

(** * The hierarchy *)

Lemma indexOf_absent (l : list ObjId) (c : ObjId) :
  ~ In c l -> indexOf l c = None.
Proof.
  induction l as [|a l IH]; intros H; [reflexivity|].
  simpl. destruct (Nat.eqb a c) eqn:E.
  - apply Nat.eqb_eq in E. exfalso. apply H. left. exact E.
  - rewrite IH; [reflexivity|]. intros Hin. apply H. right. exact Hin.
Qed.

Lemma splice1_pushed (l : list ObjId) (c : ObjId) :
  ~ In c l -> splice1 (indexOf (l ++ [c]) c) (l ++ [c]) = l.
Proof.
  induction l as [|a l IH]; intros H.
  - simpl. rewrite Nat.eqb_refl. reflexivity.
  - simpl. destruct (Nat.eqb a c) eqn:E.
    + apply Nat.eqb_eq in E. exfalso. apply H. left. exact E.
    + assert (H' : ~ In c l) by (intros Hin; apply H; right; exact Hin).
      specialize (IH H'). destruct (indexOf (l ++ [c]) c) as [i|] eqn:Ei.
      * simpl in *. rewrite IH. reflexivity.
      * exfalso. clear - Ei. induction l as [|b l IHl]; simpl in Ei.
        -- rewrite Nat.eqb_refl in Ei. discriminate.
        -- destruct (Nat.eqb b c); [discriminate|].
           destruct (indexOf (l ++ [c]) c); [discriminate|]. apply IHl. reflexivity.
Qed.

(** X25.  For an object that is not among the children of [this],
    as the assertion of [addChild] asks: [addChild] puts it last in the
    list of children and gives it the parent and the local transform,
    without taking it from the list of a parent it had before; and
    [removeChild] after that restores the list of children and clears
    the parent of the child, which keeps its local transform, and
    changes no other object.  [removeChild] of the object without
    [addChild] before, against its assertion, takes the last child from
    the list instead, since the index -1 of [splice] counts from the
    end: that child keeps its parent, and the object passed in loses
    its own. *)
Theorem removeChild_undoes_addChild (s : Store) (this child : ObjId)
    (lpos : Vector2) (langle : R) :
  this <> child ->
  ~ In child (children (s this)) ->
  let s1 := addChild this child lpos langle s in
  let s2 := removeChild this child s1 in
  let s' := removeChild this child s in
  (children (s1 this) = children (s this) ++ [child] /\
   parent (s1 child) = Some this /\
   localPos (s1 child) = lpos /\
   localAngle (s1 child) = langle /\
   (forall q : ObjId, q <> this -> children (s1 q) = children (s q))) /\
  (s2 this = s this /\
   s2 child = set_localAngle langle (set_localPos lpos (set_parent None (s child))) /\
   (forall i : ObjId, i <> this -> i <> child -> s2 i = s i)) /\
  (children (s' this) = removelast (children (s this)) /\
   parent (s' child) = None /\
   (forall c : ObjId, c <> child -> parent (s' c) = parent (s c)) /\
   (forall q : ObjId, q <> this -> children (s' q) = children (s q))).
Proof.
  intros Hne Hin s1 s2 s'.
  assert (E1t : s1 this = set_children (children (s this) ++ [child]) (s this)).
  { unfold s1, addChild. rewrite upd_other by exact Hne. apply upd_same. }
  assert (E1c : s1 child
                = set_localAngle langle
                    (set_localPos (Vec.copy lpos) (set_parent (Some this) (s child)))).
  { unfold s1, addChild. rewrite upd_same.
    rewrite upd_other by (apply not_eq_sym; exact Hne). reflexivity. }
  assert (E1o : forall i, i <> this -> i <> child -> s1 i = s i).
  { intros i Hi Hc. unfold s1, addChild. rewrite !upd_other by assumption.
    reflexivity. }
  split; [|split].
  - split; [rewrite E1t; reflexivity|].
    split; [rewrite E1c; reflexivity|].
    split; [rewrite E1c; cbn; apply copy_eq|].
    split; [rewrite E1c; reflexivity|].
    intros q Hq. destruct (Nat.eq_dec q child) as [->|Hc].
    + rewrite E1c. reflexivity.
    + rewrite E1o by assumption. reflexivity.
  - split; [|split].
    + unfold s2, removeChild. rewrite upd_other by exact Hne. rewrite upd_same.
      rewrite E1t. cbn [children set_children].
      rewrite splice1_pushed by exact Hin.
      destruct (s this); reflexivity.
    + unfold s2, removeChild. rewrite upd_same.
      rewrite upd_other by (apply not_eq_sym; exact Hne).
      rewrite E1c, copy_eq. reflexivity.
    + intros i Hi Hc. unfold s2, removeChild. rewrite !upd_other by assumption.
      apply E1o; assumption.
  - unfold s', removeChild.
    rewrite (indexOf_absent _ _ Hin). cbn [splice1].
    split; [|split; [|split]].
    + rewrite upd_other by exact Hne. rewrite upd_same. reflexivity.
    + rewrite upd_same. reflexivity.
    + intros c Hc. rewrite upd_other by exact Hc.
      destruct (Nat.eq_dec c this) as [->|Ht].
      * rewrite upd_same. reflexivity.
      * rewrite upd_other by exact Ht. reflexivity.
    + intros q Hq. destruct (Nat.eq_dec q child) as [->|Hc].
      * rewrite upd_same. cbn [children set_parent].
        rewrite upd_other by exact Hq. reflexivity.
      * rewrite !upd_other by assumption. reflexivity.
Qed.

(** * The random functions *)

Section Random.

Variable Math_random : nat -> R.

(** [Math.random()] returns a number of [0, 1). *)
Hypothesis Math_random_range : forall n : nat, 0 <= Math_random n < 1.

(** X26.  [rand(a, b)] makes one call to [Math.random] and changes
    nothing else.  Its result lies between the two arguments, in
    whichever order they come: the second argument can be returned, the
    first one only when both are equal. *)
Theorem rand_between_its_arguments (a b : R) (w : World) :
  randomCalls (snd (rand Math_random a b w)) = S (randomCalls w) /\
  objects (snd (rand Math_random a b w)) = objects w /\
  (b < a -> b <= fst (rand Math_random a b w) < a) /\
  (a < b -> a < fst (rand Math_random a b w) <= b) /\
  (a = b -> fst (rand Math_random a b w) = b).
Proof.
  unfold rand. cbn [fst snd]. pose proof (Math_random_range (randomCalls w)) as [H0 H1].
  split; [reflexivity|]. split; [reflexivity|].
  split; [|split].
  - intros Hab. split; nra.
  - intros Hab. split; nra.
  - intros ->. ring.
Qed.

Lemma rand_range (a b : R) (w : World) :
  b < a -> b <= fst (rand Math_random a b w) < a.
Proof.
  intros Hab. unfold rand. cbn [fst].
  pose proof (Math_random_range (randomCalls w)) as [H0 H1]. split; nra.
Qed.

(** X27.  Between two whole numbers [lo < hi] that fit 32 bits,
    [randInt(hi, lo)] is a whole number from [lo] to [hi - 1] when [hi]
    is positive.  When [hi] is not positive the truncation goes up:
    the result is a whole number from [lo] to [hi], and it is [hi]
    whenever the random number is above [1 - 1/(hi - lo)].  [randSign]
    is 1 when the random number is at least 1/2, and -1 otherwise. *)
Theorem randInt_truncates_towards_zero (lo hi : Z) (w : World) :
  (- 2 ^ 31 <= lo < hi)%Z -> (hi <= 2 ^ 31)%Z ->
  ((0 < hi)%Z ->
   (lo <= fst (randInt Math_random (IZR hi) (IZR lo) w) <= hi - 1)%Z) /\
  ((hi <= 0)%Z ->
   (lo <= fst (randInt Math_random (IZR hi) (IZR lo) w) <= hi)%Z /\
   (1 - 1 / IZR (hi - lo) < Math_random (randomCalls w) ->
    fst (randInt Math_random (IZR hi) (IZR lo) w) = hi)) /\
  fst (randSign Math_random w)
  = (if Rltb (Math_random (randomCalls w)) (1 / 2) then -1 else 1)%Z.
Proof.
  intros [Hlo Hlh] Hhi.
  assert (Rlh : IZR lo < IZR hi) by (apply IZR_lt; exact Hlh).
  assert (Blo : -2147483648 <= IZR lo).
  { apply IZR_le. lia. }
  assert (Bhi : IZR hi <= 2147483648).
  { apply IZR_le. lia. }
  pose proof (rand_range (IZR hi) (IZR lo) w Rlh) as Hr.
  assert (E : fst (randInt Math_random (IZR hi) (IZR lo) w)
              = truncate (fst (rand Math_random (IZR hi) (IZR lo) w))).
  { unfold randInt, rand. cbn [fst]. apply toInt32_small.
    unfold rand in Hr. cbn [fst] in Hr. lra. }
  destruct (truncate_between _ lo hi Hr) as (T1 & T2 & T3).
  split; [|split].
  - intros Hp. rewrite E.
    destruct (Z_le_gt_dec 0 lo) as [H|H]; [apply T1; exact H | apply T2; lia].
  - intros Hn. rewrite E. split; [apply T3; exact Hn|].
    intros Hu. apply Z.le_antisymm; [apply T3; exact Hn|].
    set (r := fst (rand Math_random (IZR hi) (IZR lo) w)) in *.
    assert (Hr' : IZR hi - 1 < r).
    { unfold r, rand. cbn [fst]. rewrite minus_IZR in Hu.
      assert (D : 0 < IZR hi - IZR lo) by lra.
      assert (D' : (IZR hi - IZR lo) * (1 / (IZR hi - IZR lo)) = 1) by (field; lra).
      nra. }
    assert (Hr0 : r <= 0).
    { apply IZR_le in Hn. lra. }
    destruct (truncate_bounds r) as [_ [A B]]; [exact Hr0|].
    apply Z.lt_pred_le. apply lt_IZR. unfold Z.pred. rewrite plus_IZR. lra.
  - unfold randSign, rand. cbn [fst].
    pose proof (Math_random_range (randomCalls w)) as [H0 H1].
    set (u := Math_random (randomCalls w)) in *.
    rewrite toInt32_small by lra.
    destruct (Rltb u (1 / 2)) eqn:Eu.
    + apply Rltb_true in Eu.
      assert (Hb : IZR 0 <= 0 + (2 - 0) * u < IZR 1) by lra.
      destruct (truncate_between _ 0%Z 1%Z Hb) as (T & _ & _). lia.
    + apply Rltb_false in Eu.
      assert (Hb : IZR 1 <= 0 + (2 - 0) * u < IZR 2) by lra.
      destruct (truncate_between _ 1%Z 2%Z Hb) as (T & _ & _). lia.
Qed.

(** X28.  [randVector(length)] is a vector of the length asked for (of
    its absolute value), from one random number.  For a positive radius
    and a least radius between 0 and the radius, [randInCircle] is a
    vector whose length is at least the least radius and at most the
    radius, from two random numbers; for a radius that is not positive
    it is the zero vector, from none. *)
Theorem random_vectors_have_the_length_asked_for
    (len radius minRadius : R) (w : World) :
  Vec.length (fst (randVector Math_random len w)) = Rabs len /\
  randomCalls (snd (randVector Math_random len w)) = S (randomCalls w) /\
  (0 < radius -> 0 <= minRadius <= radius ->
   minRadius <= Vec.length (fst (randInCircle Math_random radius minRadius w))
     <= radius /\
   randomCalls (snd (randInCircle Math_random radius minRadius w))
   = S (S (randomCalls w))) /\
  (radius <= 0 -> randInCircle Math_random radius minRadius w = (vec 0 0, w)).
Proof.
  split; [|split; [|split]].
  - unfold randVector. cbn [fst]. apply length_setAngle.
  - reflexivity.
  - intros Hr [Hm0 Hm]. unfold randInCircle, Rgtb.
    replace (Rltb 0 radius) with true by (symmetry; apply Rltb_true; exact Hr).
    unfold rand, randVector. cbn [fst snd randomCalls tickRandom].
    split; [|reflexivity].
    rewrite length_setAngle.
    pose proof (Math_random_range (randomCalls w)) as [H0 H1].
    set (u := Math_random (randomCalls w)) in *.
    set (t := 1 + (minRadius / radius - 1) * u).
    assert (Hq : 0 <= minRadius / radius <= 1).
    { assert (0 < / radius) by (apply Rinv_0_lt_compat; exact Hr).
      assert (radius * / radius = 1) by (field; lra).
      unfold Rdiv. split; nra. }
    assert (Ht : minRadius / radius <= t <= 1) by (unfold t; split; nra).
    assert (Hs : t <= sqrt t <= 1).
    { split.
      - destruct (Req_dec t 0) as [->|Hne]; [rewrite sqrt_0; lra|].
        assert (0 < sqrt t) by (apply sqrt_lt_R0; lra).
        assert (sqrt t * sqrt t = t) by (apply sqrt_sqrt; lra).
        destruct (Rle_dec t (sqrt t)); [assumption|]. nra.
      - rewrite <- sqrt_1. apply sqrt_le_1; lra. }
    rewrite Rabs_right by (apply Rle_ge; apply Rmult_le_pos; [lra|apply sqrt_pos]).
    assert (Em : minRadius = radius * (minRadius / radius)) by (field; lra).
    split; [|nra].
    rewrite Em at 1. apply Rmult_le_compat_l; lra.
  - intros Hr. unfold randInCircle, Rgtb.
    replace (Rltb 0 radius) with false by (symmetry; apply Rltb_false; exact Hr).
    reflexivity.
Qed.

Lemma rand_amount (k : R) (w : World) :
  0 <= k -> Rabs (fst (rand Math_random k (- k) w)) <= k.
Proof.
  intros Hk. unfold rand. cbn [fst].
  pose proof (Math_random_range (randomCalls w)) as [H0 H1].
  unfold Rabs. destruct (Rcase_abs _); nra.
Qed.

(** X29.  [clamp] gives a valid color, one whose four components are in
    [0, 1], and gives a valid color back as it is.  [mutate] gives a
    valid color from any color and any amounts, with four random
    numbers.  From a valid color and amounts that are not negative, no
    component moves by more than its amount, so that the alpha is kept
    at the default alpha amount 0. *)
Theorem mutate_gives_a_valid_color_nearby
    (amount alphaAmount : R) (this : Color.Color) (w : World) :
  Color.valid (Color.clamp this) /\
  (Color.valid this -> Color.clamp this = this) /\
  Color.valid (fst (mutate Math_random amount alphaAmount this w)) /\
  randomCalls (snd (mutate Math_random amount alphaAmount this w))
  = (randomCalls w + 4)%nat /\
  (Color.valid this -> 0 <= amount -> 0 <= alphaAmount ->
   Rabs (Color.r (fst (mutate Math_random amount alphaAmount this w))
         - Color.r this) <= amount /\
   Rabs (Color.g (fst (mutate Math_random amount alphaAmount this w))
         - Color.g this) <= amount /\
   Rabs (Color.b (fst (mutate Math_random amount alphaAmount this w))
         - Color.b this) <= amount /\
   Rabs (Color.a (fst (mutate Math_random amount alphaAmount this w))
         - Color.a this) <= alphaAmount).
Proof.
  split; [apply color_clamp_valid|].
  split.
  { intros (Hr & Hg & Hb & Ha). destruct this as [cr cg cb ca].
    unfold Color.clamp. cbn [Color.r Color.g Color.b Color.a] in *.
    rewrite !clamp01_id by assumption. reflexivity. }
  unfold mutate.
  set (w1 := snd (rand Math_random amount (- amount) w)).
  set (w2 := snd (rand Math_random amount (- amount) w1)).
  set (w3 := snd (rand Math_random amount (- amount) w2)).
  change (rand Math_random amount (- amount) w)
    with (fst (rand Math_random amount (- amount) w), w1).
  cbv iota beta.
  change (rand Math_random amount (- amount) w1)
    with (fst (rand Math_random amount (- amount) w1), w2).
  cbv iota beta.
  change (rand Math_random amount (- amount) w2)
    with (fst (rand Math_random amount (- amount) w2), w3).
  cbv iota beta.
  change (rand Math_random alphaAmount (- alphaAmount) w3)
    with (fst (rand Math_random alphaAmount (- alphaAmount) w3),
          snd (rand Math_random alphaAmount (- alphaAmount) w3)).
  cbv iota beta. cbn [fst snd].
  split; [apply color_clamp_valid|].
  split.
  { unfold w3, w2, w1, rand. cbn [snd randomCalls tickRandom]. lia. }
  intros (Hr & Hg & Hb & Ha) Hk Hk'.
  unfold Color.clamp. cbn [Color.r Color.g Color.b Color.a].
  repeat split; apply clamp01_close; try assumption; apply rand_amount; assumption.
Qed.

Lemma between_lerp (p u v : R) :
  Rmin u v <= u + (v - u) * clamp p 0 1 <= Rmax u v.
Proof.
  pose proof (clamp01_range p) as Hc.
  unfold Rmin, Rmax. destruct (Rle_dec u v); split; nra.
Qed.

Lemma between_rand (u v : R) (w : World) :
  Rmin u v <= fst (rand Math_random u v w) <= Rmax u v.
Proof.
  unfold rand. cbn [fst].
  pose proof (Math_random_range (randomCalls w)) as [H0 H1].
  unfold Rmin, Rmax. destruct (Rle_dec u v); split; nra.
Qed.

(** X30.  Each component of [randColor(cA, cB, linear)] lies between
    the same component of [cA] and of [cB], so that two valid colors
    give a valid one.  The linear form is the color [cA.lerp(cB, p)] of
    one random number [p]; the other form takes four random numbers,
    one for each component. *)
Theorem randColor_lies_between_the_colors
    (cA cB : Color.Color) (linear : bool) (w : World) :
  let c := fst (randColor Math_random cA cB linear w) in
  (Rmin (Color.r cA) (Color.r cB) <= Color.r c <= Rmax (Color.r cA) (Color.r cB) /\
   Rmin (Color.g cA) (Color.g cB) <= Color.g c <= Rmax (Color.g cA) (Color.g cB) /\
   Rmin (Color.b cA) (Color.b cB) <= Color.b c <= Rmax (Color.b cA) (Color.b cB) /\
   Rmin (Color.a cA) (Color.a cB) <= Color.a c <= Rmax (Color.a cA) (Color.a cB)) /\
  (Color.valid cA -> Color.valid cB -> Color.valid c) /\
  randomCalls (snd (randColor Math_random cA cB linear w))
  = (randomCalls w + (if linear then 1 else 4))%nat.
Proof.
  intros c.
  assert (B : Rmin (Color.r cA) (Color.r cB) <= Color.r c <= Rmax (Color.r cA) (Color.r cB) /\
   Rmin (Color.g cA) (Color.g cB) <= Color.g c <= Rmax (Color.g cA) (Color.g cB) /\
   Rmin (Color.b cA) (Color.b cB) <= Color.b c <= Rmax (Color.b cA) (Color.b cB) /\
   Rmin (Color.a cA) (Color.a cB) <= Color.a c <= Rmax (Color.a cA) (Color.a cB)).
  { unfold c, randColor. destruct linear.
    - unfold rand at 1. cbv iota beta. cbn [fst].
      unfold Color.lerp, Color.add, Color.scale, Color.subtract.
      cbn [Color.r Color.g Color.b Color.a].
      repeat split; apply between_lerp.
    - set (w1 := snd (rand Math_random (Color.r cA) (Color.r cB) w)).
      set (w2 := snd (rand Math_random (Color.g cA) (Color.g cB) w1)).
      set (w3 := snd (rand Math_random (Color.b cA) (Color.b cB) w2)).
      change (rand Math_random (Color.r cA) (Color.r cB) w)
        with (fst (rand Math_random (Color.r cA) (Color.r cB) w), w1).
      cbv iota beta.
      change (rand Math_random (Color.g cA) (Color.g cB) w1)
        with (fst (rand Math_random (Color.g cA) (Color.g cB) w1), w2).
      cbv iota beta.
      change (rand Math_random (Color.b cA) (Color.b cB) w2)
        with (fst (rand Math_random (Color.b cA) (Color.b cB) w2), w3).
      cbv iota beta.
      change (rand Math_random (Color.a cA) (Color.a cB) w3)
        with (fst (rand Math_random (Color.a cA) (Color.a cB) w3),
              snd (rand Math_random (Color.a cA) (Color.a cB) w3)).
      cbv iota beta. cbn [fst Color.r Color.g Color.b Color.a].
      repeat split; apply between_rand. }
  split; [exact B|]. split.
  - intros (Ar & Ag & Ab & Aa) (Br & Bg & Bb & Ba).
    destruct B as (Cr & Cg & Cb & Ca). unfold Color.valid.
    revert Cr Cg Cb Ca. unfold Rmin, Rmax.
    destruct (Rle_dec (Color.r cA) (Color.r cB)),
             (Rle_dec (Color.g cA) (Color.g cB)),
             (Rle_dec (Color.b cA) (Color.b cB)),
             (Rle_dec (Color.a cA) (Color.a cB)); intros; lra.
  - unfold randColor. destruct linear.
    + unfold rand. cbn [snd randomCalls tickRandom]. lia.
    + unfold rand. cbn [snd randomCalls tickRandom]. lia.
Qed.

End Random.

(** * The further statements at sample data *)

Lemma clamped_half : Rmax 0 (Rmin 1 (Rmax (1 / 2) 0)) = 1 / 2.
Proof.
  rewrite (Rmax_left (1 / 2) 0) by lra.
  rewrite (Rmin_right 1 (1 / 2)) by lra.
  apply Rmax_right; lra.
Qed.

Lemma collision_keeps_the_momentum_witness :
  (let w := sideHit 1 (1 / 2) 2 0 0 in
   let w' := collideWith 0 sampleCollide sampleRandom 0%nat sideOld false w 1%nat in
   resolvesX 0 0%nat 1%nat sideOld w = true /\
   x (velocity (objects w 0%nat)) = 1 /\ x (velocity (objects w 1%nat)) = 0 /\
   x (velocity (objects w' 0%nat)) = 0 /\
   x (velocity (objects w' 1%nat)) = 1 / 2) /\
  (let w := topHit 1 0 2 (1 / 2) 0 in
   let w' := collideWith 0 sampleCollide sampleRandom 0%nat topOld true w 1%nat in
   resolvesY 0 0%nat 1%nat topOld w = true /\
   isGround (groundObject (objects w 1%nat)) && true = false /\
   y (velocity (objects w 0%nat)) = -1 /\ y (velocity (objects w 1%nat)) = 0 /\
   y (velocity (objects w' 0%nat)) = 0 /\
   y (velocity (objects w' 1%nat)) = - (1 / 2)).
Proof.
  assert (Hne : 0%nat <> 1%nat) by discriminate.
  split; cbv zeta.
  - destruct (sideHit_meets 1 (1 / 2) 2 0 0 false) as [Hx [_ Hc]]. rewrite Hc.
    destruct (collision_keeps_the_momentum 0 0%nat 1%nat sideOld false
                (sideHit 1 (1 / 2) 2 0 0) Hne) as [HX _];
      [simpl; lra | simpl; lra |].
    destruct (HX Hx) as [M [V _]].
    split; [exact Hx|].
    cbn [objects sideHit pairWorld pairStore sampleBody mass elasticity velocity x y]
      in M, V.
    rewrite clamped_half in V.
    cbn [objects sideHit pairWorld pairStore sampleBody velocity x y].
    repeat split; lra.
  - destruct (topHit_meets 1 0 2 (1 / 2) 0 true) as [Hy [_ Hc]]. rewrite Hc.
    destruct (collision_keeps_the_momentum 0 0%nat 1%nat topOld true
                (topHit 1 0 2 (1 / 2) 0) Hne) as [_ HY];
      [simpl; lra | simpl; lra |].
    destruct (HY Hy eq_refl) as [M [V _]].
    split; [exact Hy|]. split; [reflexivity|].
    cbn [objects topHit pairWorld pairStore sampleBody mass elasticity velocity x y]
      in M, V.
    rewrite (Rmax_comm 0 (1 / 2)) in V. rewrite clamped_half in V.
    cbn [objects topHit pairWorld pairStore sampleBody velocity x y].
    repeat split; lra.
Defined.

Lemma new_overlap_is_separated_witness :
  0%nat <> 1%nat /\
  0 <= x (size (objects sampleWorld 0%nat)) + x (size (objects sampleWorld 1%nat)) /\
  0 <= y (size (objects sampleWorld 0%nat)) + y (size (objects sampleWorld 1%nat)) /\
  let w' := resolveNew 0 0%nat 1%nat (vec 0 2) true sampleWorld in
  isOverlapping (pos (objects w' 0%nat)) (size (objects w' 0%nat))
                (pos (objects w' 1%nat)) (size (objects w' 1%nat)) = false.
Proof.
  assert (Hne : 0%nat <> 1%nat) by discriminate.
  assert (Hx : 0 <= x (size (objects sampleWorld 0%nat))
                    + x (size (objects sampleWorld 1%nat))) by (simpl; lra).
  assert (Hy : 0 <= y (size (objects sampleWorld 0%nat))
                    + y (size (objects sampleWorld 1%nat))) by (simpl; lra).
  split; [exact Hne|]. split; [exact Hx|]. split; [exact Hy|].
  exact (proj1 (proj2 (new_overlap_is_separated 0 0%nat 1%nat (vec 0 2) true
                         sampleWorld Hne Hx Hy))).
Defined.


Lemma length_3_4 : Vec.length (vec 3 4) = 5.
Proof.
  unfold Vec.length, Vec.lengthSquared. cbn [x y].
  replace (3 * 3 + 4 * 4) with (5 * 5) by lra.
  apply sqrt_square. lra.
Qed.

Lemma child_follows_its_parent_witness :
  let w' := update 0 1 true sampleTiles sampleCollide sampleRandom 1%nat familyWorld in
  parent (objects familyWorld 1%nat) = Some 0%nat /\
  pos (objects familyWorld 0%nat) = vec 1 2 /\
  angle (objects familyWorld 0%nat) = PI / 2 /\
  getMirrorSign (objects familyWorld 0%nat) = -1 /\
  localPos (objects familyWorld 1%nat) = vec 3 4 /\
  localAngle (objects familyWorld 1%nat) = 1 /\
  pos (objects familyWorld 1%nat) = vec 0 0 /\
  pos (objects w' 1%nat) = vec 5 5 /\
  distance (pos (objects w' 1%nat)) (vec 1 2) = 5 /\
  angle (objects w' 1%nat) = PI / 2 - 1 /\
  velocity (objects w' 1%nat) = vec 7 7 /\
  objects w' 0%nat = objects familyWorld 0%nat.
Proof.
  cbv zeta.
  assert (Hp : parent (objects familyWorld 1%nat) = Some 0%nat) by reflexivity.
  destruct (child_follows_its_parent 0 1 true sampleTiles sampleCollide sampleRandom
              1%nat 0%nat familyWorld Hp) as [P [D [A [V [_ [O _]]]]]].
  split; [exact Hp|]. split; [reflexivity|]. split; [reflexivity|].
  split; [unfold getMirrorSign; simpl; lra|].
  split; [reflexivity|]. split; [reflexivity|]. split; [reflexivity|].
  split.
  { rewrite P. unfold Vec.add, Vec.rotate, Vec.multiply, getMirrorSign.
    cbn [objects familyWorld familyStore localPos pos angle mirror x y].
    rewrite cos_neg, sin_neg, cos_PI2, sin_PI2.
    f_equal; lra. }
  split.
  { change (vec 1 2) with (pos (objects familyWorld 0%nat)).
    rewrite D. exact length_3_4. }
  split.
  { rewrite A. unfold getMirrorSign.
    cbn [objects familyWorld familyStore localAngle angle mirror]. lra. }
  split; [rewrite V; reflexivity|].
  apply O. discriminate.
Defined.

Lemma update_without_solver_only_integrates_witness :
  false = false /\
  parent (objects sampleWorld 0%nat) = None /\
  0 <= 1 /\
  let w' := update 0 1 false sampleTiles sampleCollide sampleRandom 0%nat sampleWorld in
  pos (objects w' 0%nat)
  = Vec.add (pos (objects sampleWorld 0%nat)) (velocity (objects w' 0%nat)) /\
  Rabs (x (velocity (objects w' 0%nat)))
  <= Rabs (damping (objects sampleWorld 0%nat)) * 1.
Proof.
  assert (H1 : 0 <= 1) by lra.
  split; [reflexivity|]. split; [reflexivity|]. split; [exact H1|].
  destruct (update_without_solver_only_integrates 0 1 false sampleTiles sampleCollide
              sampleRandom 0%nat sampleWorld eq_refl eq_refl H1) as (P & B & _).
  split; [exact P | exact B].
Defined.

Lemma mod_wraps_into_the_divisor_range_witness :
  0 < 3 /\
  exists (m : R) (k : Z),
    mod_ (-7) 3 = Some m /\ 0 <= m < 3 /\ -7 = IZR k * 3 + m.
Proof.
  assert (H : 0 < 3) by lra.
  split; [exact H|].
  destruct (proj1 (proj2 (mod_wraps_into_the_divisor_range (-7) 3)) H)
    as (m & k & A & B & C & _).
  exists m, k. split; [exact A|]. split; [exact B | exact C].
Defined.

Lemma clamp_stays_in_range_witness :
  0 <= 3 /\ 0 <= clamp 5 0 3 <= 3 /\ clamp (clamp 5 0 3) 0 3 = clamp 5 0 3.
Proof.
  assert (H : 0 <= 3) by lra.
  split; [exact H|].
  destruct (proj1 (clamp_stays_in_range 5 0 3) H) as (A & _ & B).
  split; [exact A | exact B].
Defined.

Lemma percent_and_lerp_are_inverse_witness :
  0 <> 4 /\ (0 <= 3 <= 4 \/ 4 <= 3 <= 0) /\
  lerp (percent 3 0 4) 0 4 = 3 /\
  percent (lerp (1 / 2) 0 4) 0 4 = clamp (1 / 2) 0 1.
Proof.
  assert (H : 0 <> 4) by lra.
  assert (Hv : 0 <= 3 <= 4 \/ 4 <= 3 <= 0) by (left; lra).
  split; [exact H|]. split; [exact Hv|].
  destruct (proj2 (proj2 (percent_and_lerp_are_inverse 3 (1 / 2) 0 4)) H) as [A B].
  split; [exact (A Hv) | exact B].
Defined.

Lemma smoothStep_eases_the_unit_interval_witness :
  0 <= 1 / 4 <= 1 / 2 /\ 1 / 2 <= 1 /\
  smoothStep (1 / 4) <= smoothStep (1 / 2).
Proof.
  assert (H : 0 <= 1 / 4 <= 1 / 2) by lra.
  assert (H' : 1 / 2 <= 1) by lra.
  split; [exact H|]. split; [exact H'|].
  exact (proj2 (proj2 (proj2 (proj2
           (smoothStep_eases_the_unit_interval (1 / 4) (1 / 2))))) H H').
Defined.

Lemma nearestPowerOfTwo_is_the_next_power_witness :
  0 < 3 /\
  exists k : Z,
    nearestPowerOfTwo 3 = Some (powerRZ 2 k) /\ 3 <= powerRZ 2 k < 2 * 3.
Proof.
  assert (H : 0 < 3) by lra.
  split; [exact H|].
  exact (proj1 (proj2 (proj2 (nearestPowerOfTwo_is_the_next_power 3 0))) H).
Defined.

Lemma wave_oscillates_within_amplitude_witness :
  2 <> 0 /\ 0 <= 3 /\
  wave 2 3 (1 / (2 * 2)) = 3 /\
  wave 2 3 (1 + 1 / 2) = wave 2 3 1 /\
  0 <= wave 2 3 1 <= 3.
Proof.
  assert (Hf : 2 <> 0) by lra.
  assert (Ha : 0 <= 3) by lra.
  split; [exact Hf|]. split; [exact Ha|].
  destruct (wave_oscillates_within_amplitude 2 3 1) as (_ & A & B & C).
  split; [exact (A Hf)|]. split; [exact (B Hf) | exact (C Ha)].
Defined.

Lemma formatTime_shows_minutes_and_seconds_witness :
  0 <= 125 < 60 * 2147483648 /\ formatTime 125 = "2:05".
Proof.
  assert (H : 0 <= 125 < 60 * 2147483648) by lra.
  split; [exact H|].
  destruct (proj1 (formatTime_shows_minutes_and_seconds 125) H)
    as (m & s & Hm & Hs & [B0 B1] & E & _).
  assert (Z0 : (60 * m + s <= 125)%Z) by (apply le_IZR; exact B0).
  assert (Z1 : (125 < 60 * m + s + 1)%Z).
  { apply lt_IZR. rewrite plus_IZR. exact B1. }
  assert (Em : m = 2%Z) by lia.
  assert (Es : s = 5%Z) by lia.
  rewrite E, Em, Es. reflexivity.
Defined.

Lemma randSeeded_keeps_a_nonzero_seed_witness :
  (1 mod 2 ^ 32 <> 0)%Z /\ 0 < 1 /\
  snd (randSeeded 1 0 1) <> 0%Z /\
  0 <= fst (randSeeded 1 0 1) < 1.
Proof.
  assert (Hs : (1 mod 2 ^ 32 <> 0)%Z) by discriminate.
  assert (H : 0 < 1) by lra.
  split; [exact Hs|]. split; [exact H|].
  destruct (randSeeded_keeps_a_nonzero_seed 1 0 1) as (_ & _ & A & _ & B & _).
  split; [exact (A Hs) | exact (B H)].
Defined.

Lemma Rabs_1_0 : Rabs 1 <> Rabs 0.
Proof. rewrite Rabs_R0, Rabs_R1. lra. Qed.

Lemma rotate_is_an_isometry_witness :
  Rabs (x (vec 1 0)) <> Rabs (y (vec 1 0)) /\
  Vec.direction (Vec.invert (vec 1 0)) = ((Vec.direction (vec 1 0) + 1) mod 4)%nat.
Proof.
  split; [exact Rabs_1_0|].
  exact (proj2 (proj2 (proj2 (proj2 (proj2 (proj2 (proj2
           (rotate_is_an_isometry (vec 0 0) (vec 1 0) 0 0)))))))
           Rabs_1_0).
Defined.

Lemma clampLength_caps_the_length_witness :
  0 <= 1 /\
  Vec.length (Vec.clampLength (vec 3 4) 1) = min (Vec.length (vec 3 4)) 1.
Proof.
  assert (H : 0 <= 1) by lra.
  split; [exact H|].
  exact (proj1 (clampLength_caps_the_length (vec 3 4) 1 H)).
Defined.

Lemma vector_lerp_stays_on_the_segment_witness :
  1 <= 2 /\ Vec.lerp (vec 0 0) (vec 2 0) 2 = vec 2 0.
Proof.
  assert (H : 1 <= 2) by lra.
  split; [exact H|].
  exact (proj2 (proj2 (proj2
           (vector_lerp_stays_on_the_segment (vec 0 0) (vec 2 0) 2))) H).
Defined.

Lemma sampleColor_valid : Color.valid sampleColor.
Proof. unfold Color.valid, sampleColor. cbn. lra. Qed.

Lemma rgbaInt_is_a_signed_integer_witness :
  Color.valid sampleColor /\ Color.a sampleColor = 1 /\
  (Color.rgbaInt sampleColor < 0)%Z.
Proof.
  split; [exact sampleColor_valid|]. split; [reflexivity|].
  exact (proj2 (proj2 (proj2 (proj2 (proj2 (proj2 (proj2
           (rgbaInt_is_a_signed_integer sampleColor sampleColor_valid)))))))
           eq_refl).
Defined.

Lemma setHSLA_gives_valid_components_witness :
  0 <= 1 <= 1 /\ 0 <= 1 / 2 <= 1 /\
  0 <= Color.r (Color.setHSLA (1 / 3) 1 (1 / 2) 1) <= 1 /\
  Color.setHSLA (1 / 3 + IZR 1) 1 (1 / 2) 1 = Color.setHSLA (1 / 3) 1 (1 / 2) 1.
Proof.
  assert (Hs : 0 <= 1 <= 1) by lra.
  assert (Hl : 0 <= 1 / 2 <= 1) by lra.
  split; [exact Hs|]. split; [exact Hl|].
  destruct (setHSLA_gives_valid_components (1 / 3) 1 (1 / 2) 1 1 Hs Hl)
    as (A & _ & _ & _ & B & _).
  split; [exact A | exact B].
Defined.

Lemma getHSLA_gives_valid_components_witness :
  Color.valid sampleColor /\
  let '(h, s, l, al) := Color.getHSLA sampleColor in
  0 <= h < 1 /\ 0 <= s <= 1 /\ 0 <= l <= 1 /\ al = Color.a sampleColor.
Proof.
  split; [exact sampleColor_valid|].
  pose proof (proj1 (getHSLA_gives_valid_components sampleColor sampleColor_valid))
    as H.
  destruct (Color.getHSLA sampleColor) as [[[h s] l] al].
  destruct H as (A & B & C & D & _).
  split; [exact A|]. split; [exact B|]. split; [exact C | exact D].
Defined.

Lemma setHSLA_undoes_getHSLA_witness :
  Color.valid sampleColor /\
  let '(h, s, l, al) := Color.getHSLA sampleColor in
  Color.setHSLA h s l al = sampleColor.
Proof.
  split; [exact sampleColor_valid|].
  exact (setHSLA_undoes_getHSLA sampleColor sampleColor_valid).
Defined.

Lemma setHex_reads_what_hex_writes_witness :
  Color.valid sampleColor /\
  String.length (Color.hex sampleColor) = 7%nat /\
  Color.setHex (Color.hex sampleColor)
  = (Some (IZR (truncate (Color.r sampleColor * 255)) / 255),
     Some (IZR (truncate (Color.g sampleColor * 255)) / 255),
     Some (IZR (truncate (Color.b sampleColor * 255)) / 255), 1).
Proof.
  split; [exact sampleColor_valid|].
  destruct (setHex_reads_what_hex_writes sampleColor sampleColor_valid)
    as (A & B & _).
  split; [exact A | exact B].
Defined.

Lemma timer_counts_from_its_end_time_witness :
  0 < 5 /\ 10 <= 12 <= 10 + 5 /\
  Timer.getPercent 12 (Timer.set 10 5 (Timer.mk None None)) = (12 - 10) / 5 /\
  Timer.active 12 (Timer.set 10 5 (Timer.mk None None)) = true.
Proof.
  assert (H : 0 < 5) by lra.
  assert (H' : 10 <= 12 <= 10 + 5) by lra.
  split; [exact H|]. split; [exact H'|].
  destruct (timer_counts_from_its_end_time 10 5 12 (Timer.mk None None))
    as (_ & _ & A & _ & _ & _ & _ & P).
  split; [exact (proj1 (proj2 (P H)) H') | exact (proj2 A (proj2 H'))].
Defined.

Lemma stranger_of_sampleTree : ~ In 3%nat (children (sampleTree 0%nat)).
Proof. simpl. intros [H|[H|[]]]; discriminate. Qed.

Lemma removeChild_undoes_addChild_witness :
  0%nat <> 3%nat /\
  ~ In 3%nat (children (sampleTree 0%nat)) /\
  children (removeChild 0%nat 3%nat (addChild 0%nat 3%nat (vec 1 1) 0 sampleTree)
              0%nat)
  = children (sampleTree 0%nat) /\
  children (removeChild 0%nat 3%nat sampleTree 0%nat)
  = removelast (children (sampleTree 0%nat)).
Proof.
  assert (Hne : 0%nat <> 3%nat) by discriminate.
  split; [exact Hne|]. split; [exact stranger_of_sampleTree|].
  destruct (removeChild_undoes_addChild sampleTree 0%nat 3%nat (vec 1 1) 0 Hne
              stranger_of_sampleTree) as (_ & (A & _) & (B & _)).
  split; [rewrite A; reflexivity | exact B].
Defined.

Lemma halfRandom_range (n : nat) : 0 <= halfRandom n < 1.
Proof. unfold halfRandom. lra. Qed.

Lemma rand_between_its_arguments_witness :
  (forall n : nat, 0 <= halfRandom n < 1) /\ 4 < 10 /\
  4 <= fst (rand halfRandom 10 4 sampleWorld) < 10.
Proof.
  assert (H : 4 < 10) by lra.
  split; [exact halfRandom_range|]. split; [exact H|].
  exact (proj1 (proj2 (proj2
           (rand_between_its_arguments halfRandom halfRandom_range 10 4 sampleWorld)))
           H).
Defined.

Lemma randInt_truncates_towards_zero_witness :
  (forall n : nat, 0 <= halfRandom n < 1) /\
  (- 2 ^ 31 <= 0 < 6)%Z /\ (6 <= 2 ^ 31)%Z /\ (0 < 6)%Z /\
  (0 <= fst (randInt halfRandom (IZR 6) (IZR 0) sampleWorld) <= 6 - 1)%Z.
Proof.
  assert (H1 : (- 2 ^ 31 <= 0 < 6)%Z) by lia.
  assert (H2 : (6 <= 2 ^ 31)%Z) by lia.
  assert (H3 : (0 < 6)%Z) by lia.
  split; [exact halfRandom_range|]. split; [exact H1|]. split; [exact H2|].
  split; [exact H3|].
  exact (proj1 (randInt_truncates_towards_zero halfRandom halfRandom_range 0 6
                  sampleWorld H1 H2) H3).
Defined.

Lemma random_vectors_have_the_length_asked_for_witness :
  (forall n : nat, 0 <= halfRandom n < 1) /\ 0 < 2 /\ 0 <= 1 <= 2 /\
  1 <= Vec.length (fst (randInCircle halfRandom 2 1 sampleWorld)) <= 2.
Proof.
  assert (H1 : 0 < 2) by lra.
  assert (H2 : 0 <= 1 <= 2) by lra.
  split; [exact halfRandom_range|]. split; [exact H1|]. split; [exact H2|].
  exact (proj1 (proj1 (proj2 (proj2
           (random_vectors_have_the_length_asked_for halfRandom halfRandom_range
              1 2 1 sampleWorld))) H1 H2)).
Defined.

Lemma mutate_gives_a_valid_color_nearby_witness :
  (forall n : nat, 0 <= halfRandom n < 1) /\
  Color.valid sampleColor /\ 0 <= 1 / 20 /\ 0 <= 0 /\
  Color.valid (fst (mutate halfRandom (1 / 20) 0 sampleColor sampleWorld)) /\
  Rabs (Color.a (fst (mutate halfRandom (1 / 20) 0 sampleColor sampleWorld))
        - Color.a sampleColor) <= 0.
Proof.
  assert (H1 : 0 <= 1 / 20) by lra.
  assert (H2 : 0 <= 0) by lra.
  split; [exact halfRandom_range|]. split; [exact sampleColor_valid|].
  split; [exact H1|]. split; [exact H2|].
  destruct (mutate_gives_a_valid_color_nearby halfRandom halfRandom_range
              (1 / 20) 0 sampleColor sampleWorld) as (_ & _ & V & _ & C).
  split; [exact V|].
  exact (proj2 (proj2 (proj2 (C sampleColor_valid H1 H2)))).
Defined.

Lemma white_valid : Color.valid white.
Proof. unfold Color.valid, white. cbn. lra. Qed.

Lemma black_valid : Color.valid black.
Proof. unfold Color.valid, black. cbn. lra. Qed.

Lemma randColor_lies_between_the_colors_witness :
  (forall n : nat, 0 <= halfRandom n < 1) /\
  Color.valid white /\ Color.valid black /\
  Color.valid (fst (randColor halfRandom white black true sampleWorld)) /\
  randomCalls (snd (randColor halfRandom white black true sampleWorld))
  = (randomCalls sampleWorld + 1)%nat.
Proof.
  split; [exact halfRandom_range|]. split; [exact white_valid|].
  split; [exact black_valid|].
  destruct (randColor_lies_between_the_colors halfRandom halfRandom_range
              white black true sampleWorld) as (_ & V & N).
  split; [exact (V white_valid black_valid) | exact N].
Defined.
